(** * zza-cache: a shallow embedding of the Go sources and its verification

    The development follows the three Go packages of the repository:
    - [lru]            (src/lru/lru.go)        the bounded recency cache,
    - [consistenthash] (src/unnamed/part_000)  the hash ring,
    - [zzacache]       (src/zzacache.go, src/byteview.go, src/unnamed/part_001)
                       the namespace coordinator (Group) and the HTTP peer
                       client.

    Conventions of the embedding.
    - Go's [int] and [int64] are 64-bit two's complement integers (amd64 and
      arm64); they are carried as [Z] and every arithmetic result is
      normalised with [int64], which writes the wrap-around out.
    - A Go [string] is a sequence of bytes: [string] here, [len] its length.
    - Pointers to [list.Element] are locations ([Element]); the payload
      [ele.Value.( *entry)] lives in a store indexed by these locations, so
      that the in-place update [kv.value = value] and the aliasing between
      the recency list and the lookup map are modelled as written.
    - A call either returns, panics, or never returns: see [outcome]. *)

From stdpp Require Import gmap strings list fin_maps sorting.
From Stdlib Require Import ZArith Lia DecimalString.
From Stdlib.Strings Require Import Byte Ascii.

Local Open Scope Z_scope.

(** ** Outcomes of a call *)

Inductive outcome (A : Type) : Type :=
  | Ret (a : A)   (* the call returns [a] *)
  | Panic         (* a run-time panic: failed type assertion or nil dereference *)
  | Loops.        (* the call never returns *)
Arguments Ret {A} a.
Arguments Panic {A}.
Arguments Loops {A}.

Global Instance outcome_ret : MRet outcome := @Ret.
Global Instance outcome_bind : MBind outcome := λ A B f m,
  match m with
  | Ret a => f a
  | Panic => Panic
  | Loops => Loops
  end.

Global Instance outcome_fmap : FMap outcome := λ A B f m,
  match m with
  | Ret a => Ret (f a)
  | Panic => Panic
  | Loops => Loops
  end.

(** ** Machine integers *)

Definition max_int64 : Z := 2 ^ 63 - 1.
Definition min_int64 : Z := - 2 ^ 63.

(** Conversion to [int64] (and to [int]): the value modulo 2^64, read as a
    signed number. *)
Definition int64 (z : Z) : Z := (z + 2 ^ 63) `mod` 2 ^ 64 - 2 ^ 63.

(** [len(s)] for a Go string. *)
Definition len (s : string) : Z := Z.of_nat (String.length s).

(** ** Package lru *)

Module lru.

(** [type Value interface { Len() int }] *)
Class Value (V : Type) := Len : V → Z.

(** [type entry struct { key string; value Value }] *)
Record entry (V : Type) := Entry { key : string; value : V }.
Arguments Entry {V} key value.
Arguments key {V} e.
Arguments value {V} e.

(** A [*list.Element]. *)
Definition Element := positive.

(** *** The operations of container/list that the cache uses.
    The list is kept front first. *)

(** [l.Back()]: the last element, [nil] when the list is empty. *)
Definition Back (l : list Element) : option Element := last l.

(** [l.Remove(e)]: unlinks [e] when it is an element of [l] (an element is
    linked at most once). *)
Definition Remove (e : Element) (l : list Element) : list Element :=
  filter (λ x, x ≠ e) l.

(** [l.MoveToFront(e)]: nothing when [e] is not an element of [l] (or is
    already the front), otherwise [e] is unlinked and relinked at the front. *)
Definition MoveToFront (e : Element) (l : list Element) : list Element :=
  if decide (e ∈ l) then e :: Remove e l else l.

Section Cache.
Context {V : Type} `{!Value V} {W : Type}.

(** [type Cache struct].  [elems] is the store behind the element pointers;
    [world] is the part of the program state that the eviction callback
    acts on (the callback is taken to return and not to call the cache). *)
Record Cache := mkCache {
  maxBytes : Z;
  nbytes : Z;
  ll : list Element;
  elems : gmap Element (entry V);
  cache : gmap string Element;
  OnEvicated : option (string → V → W → W);
  world : W;
}.

(** [func New(maxBytes int64, onEvicted func(string, Value)) *Cache] *)
Definition New (maxBytes : Z) (onEvicted : option (string → V → W → W)) (w : W) : Cache :=
  {| maxBytes := maxBytes;
     nbytes := 0;
     ll := [];
     elems := ∅;
     cache := ∅;
     OnEvicated := onEvicted;
     world := w |}.

(** [ele.Value.( *entry)]: the assertion panics on an element without payload. *)
Definition deref (c : Cache) (ele : Element) : outcome (entry V) :=
  match elems c !! ele with
  | Some kv => Ret kv
  | None => Panic
  end.

(** [func (c *Cache) Get(key string) (value Value, ok bool)] *)
Definition Get (key : string) (c : Cache) : outcome (option V * Cache) :=
  match cache c !! key with
  | Some ele =>
      let c1 := {| maxBytes := maxBytes c;
                   nbytes := nbytes c;
                   ll := MoveToFront ele (ll c);
                   elems := elems c;
                   cache := cache c;
                   OnEvicated := OnEvicated c;
                   world := world c |} in
      kv ← deref c1 ele;
      Ret (Some (value kv), c1)
  | None => Ret (None, c)
  end.

(** [func (c *Cache) RemoveOldest()] *)
Definition RemoveOldest (c : Cache) : outcome Cache :=
  match Back (ll c) with
  | Some ele =>
      kv ← deref c ele;
      Ret {| maxBytes := maxBytes c;
             nbytes := int64 (nbytes c
                              - int64 (int64 (len (key kv)) + int64 (Len (value kv))));
             ll := Remove ele (ll c);
             elems := elems c;
             cache := delete (key kv) (cache c);
             OnEvicated := OnEvicated c;
             world := match OnEvicated c with
                      | Some f => f (key kv) (value kv) (world c)
                      | None => world c
                      end |}
  | None => Ret c
  end.

(** The guard of the loop in [Add]: [c.maxBytes != 0 && c.maxBytes < c.nbytes]. *)
Definition over_budget (c : Cache) : bool :=
  negb (maxBytes c =? 0) && (maxBytes c <? nbytes c).

(** [for c.maxBytes != 0 && c.maxBytes < c.nbytes { c.RemoveOldest() }],
    unrolled at most [fuel] times. *)
Fixpoint evict (fuel : nat) (c : Cache) : outcome Cache :=
  if over_budget c then
    match fuel with
    | O => Loops
    | S fuel' => c' ← RemoveOldest c; evict fuel' c'
    end
  else Ret c.

(** The same loop as a relation: [evicts c c'] when the loop started in [c]
    exits in [c']. *)
Inductive evicts : Cache → Cache → Prop :=
  | evicts_exit c :
      over_budget c = false → evicts c c
  | evicts_step c c1 c' :
      over_budget c = true → RemoveOldest c = Ret c1 → evicts c1 c' → evicts c c'.

(** The state of [Add] when it reaches its loop. *)
Definition insert_or_update (key : string) (value : V) (c : Cache) : outcome Cache :=
  match cache c !! key with
  | Some ele =>
      kv ← deref c ele;
      Ret {| maxBytes := maxBytes c;
             nbytes := int64 (nbytes c
                              + int64 (int64 (Len value) - int64 (Len (lru.value kv))));
             ll := MoveToFront ele (ll c);
             elems := <[ele := Entry (lru.key kv) value]> (elems c);
             cache := cache c;
             OnEvicated := OnEvicated c;
             world := world c |}
  | None =>
      let ele := fresh (dom (elems c)) in
      Ret {| maxBytes := maxBytes c;
             nbytes := int64 (nbytes c + int64 (int64 (len key) + int64 (Len value)));
             ll := ele :: ll c;
             elems := <[ele := Entry key value]> (elems c);
             cache := <[key := ele]> (cache c);
             OnEvicated := OnEvicated c;
             world := world c |}
  end.

(** [func (c *Cache) Add(key string, value Value)].  Each turn of the loop
    that does not exit removes one element, and on the empty list
    [RemoveOldest] changes nothing, so a loop that has not exited after
    [length (ll c1) + 1] turns never does (lemma [evict_Loops]). *)
Definition Add (key : string) (value : V) (c : Cache) : outcome Cache :=
  c1 ← insert_or_update key value c;
  evict (S (length (ll c1))) c1.

(** [func (c *Cache) Len() int] *)
Definition Len_ (c : Cache) : Z := Z.of_nat (length (ll c)).

(** The entries in recency order, most recently used first. *)
Definition entries (c : Cache) : list (entry V) := omap (λ e, elems c !! e) (ll c).

(** Size contribution of an entry: byte length of the key plus [Len] of the value. *)
Definition entry_size (kv : entry V) : Z := len (key kv) + Len (value kv).

Definition total_size (c : Cache) : Z := foldr (λ kv a, entry_size kv + a) 0 (entries c).

(** Sequences of calls. *)
Inductive op :=
  | OpGet (key : string)
  | OpAdd (key : string) (value : V)
  | OpRemoveOldest.

Definition step (o : op) (c : Cache) : outcome Cache :=
  match o with
  | OpGet k => r ← Get k c; Ret r.2
  | OpAdd k v => Add k v c
  | OpRemoveOldest => RemoveOldest c
  end.

Fixpoint run (ops : list op) (c : Cache) : outcome Cache :=
  match ops with
  | [] => Ret c
  | o :: ops' => c' ← step o c; run ops' c'
  end.

End Cache.
Arguments Cache V W : clear implicits.
Arguments op V : clear implicits.

End lru.

(** ** Package consistenthash *)

Module consistenthash.

(** [type Hash func(data []byte) uint32].  The result is read as a [uint32]
    wherever it is used ([uint32_of]). *)
Definition Hash := list byte → Z.

Definition uint32_of (z : Z) : Z := z `mod` 2 ^ 32.

(** [crc32.ChecksumIEEE]: the CRC-32 checksum with the IEEE polynomial,
    computed bit by bit. *)
Definition crc32_bit (c : Z) : Z :=
  if Z.testbit c 0 then Z.lxor (Z.shiftr c 1) 0xEDB88320 else Z.shiftr c 1.

Definition crc32_update (crc : Z) (x : byte) : Z :=
  Nat.iter 8 crc32_bit (Z.lxor crc (Z.of_N (Byte.to_N x))).

Definition ChecksumIEEE : Hash := λ data,
  Z.lxor (fold_left crc32_update data 0xFFFFFFFF) 0xFFFFFFFF.

(** [strconv.Itoa]: decimal digits, with a sign for negative numbers. *)
Definition Itoa (i : Z) : string := NilZero.string_of_int (Z.to_int i).

(** [sort.Ints]: the integers in increasing order. *)
Definition sort_Ints (l : list Z) : list Z := merge_sort Z.le l.

(** [sort.Search(n, f)]: binary search for the smallest index in [0, n) at
    which [f] holds, [n] when there is none.
<<
    i, j := 0, n
    for i < j {
        h := int(uint(i+j) >> 1)
        if !f(h) { i = h + 1 } else { j = h }
    }
    return i
>>
    Every turn of the loop shrinks [j - i], so [n] turns suffice. *)
Fixpoint search_loop (fuel : nat) (f : Z → bool) (i j : Z) : Z :=
  match fuel with
  | O => i
  | S fuel' =>
      if i <? j then
        let h := Z.shiftr (i + j) 1 in
        if negb (f h) then search_loop fuel' f (h + 1) j
        else search_loop fuel' f i h
      else i
  end.

Definition Search (n : Z) (f : Z → bool) : Z := search_loop (Z.to_nat n) f 0 n.

(** [type Map struct] *)
Record Map := mkMap {
  hash : Hash;
  replicas : Z;
  keys : list Z;
  hashMap : gmap Z string;
}.

(** [func New(replicas int, fn Hash) *Map]; [None] is the nil function. *)
Definition New (replicas : Z) (fn : option Hash) : Map :=
  {| replicas := replicas;
     hash := match fn with Some f => f | None => ChecksumIEEE end;
     keys := [];
     hashMap := ∅ |}.

(** [int(m.hash([]byte(s)))] *)
Definition hash_of (m : Map) (s : string) : Z :=
  uint32_of (hash m (String.list_byte_of_string s)).

(** The body of the inner loop of [Add], for replica [i] of node [key]. *)
Definition add_replica (key : string) (m : Map) (i : Z) : Map :=
  let h := hash_of m (Itoa i ++ key)%string in
  {| replicas := replicas m;
     hash := hash m;
     keys := keys m ++ [h];
     hashMap := <[h := key]> (hashMap m) |}.

(** [for i := 0; i < m.replicas; i++ { ... }] *)
Definition add_node (m : Map) (key : string) : Map :=
  foldl (add_replica key) m (seqZ 0 (replicas m)).

(** [func (m *Map) Add(keys ...string)] *)
Definition Add (nodes : list string) (m : Map) : Map :=
  let m' := foldl add_node m nodes in
  {| replicas := replicas m';
     hash := hash m';
     keys := sort_Ints (keys m');
     hashMap := hashMap m' |}.

(** [m.keys[i]]; every index the code uses is within range
    (lemmas [Search_range] and [Get_index_range]). *)
Definition key_at (m : Map) (i : Z) : Z := keys m !!! Z.to_nat i.

(** [func (m *Map) Get(key string) string] *)
Definition Get (key : string) (m : Map) : string :=
  if decide (length (keys m) = 0%nat) then ""
  else
    let h := hash_of m key in
    let n := Z.of_nat (length (keys m)) in
    let idx := Search n (λ i, h <=? key_at m i) in
    default "" (hashMap m !! key_at m (Z.rem idx n)).

End consistenthash.

(** ** Package zzacache *)

Module zzacache.

(** *** byteview.go *)

(** [type ByteView struct { b []byte }] *)
Record ByteView := mkByteView { b : list byte }.

(** [func cloneBytes(b []byte) []byte]: a copy; byte sequences are values
    here, so the copy is the sequence itself. *)
Definition cloneBytes (x : list byte) : list byte := x.

(** [func (v ByteView) Len() int] *)
Global Instance ByteView_Value : lru.Value ByteView := λ v, Z.of_nat (length (b v)).

(** [func (v ByteView) ByteSlice() []byte] *)
Definition ByteView_ByteSlice (v : ByteView) : list byte := cloneBytes (b v).

(** [func (v ByteView) String() string] *)
Definition ByteView_String (v : ByteView) : string := String.string_of_list_byte (b v).

(** *** The local cache of a Group.

    Modelled from the spec: the type [cache] and its methods [get] and [add]
    (cache.go) are not among the sources; zzacache.go builds the value as
    [cache{cacheBytes: cacheBytes}].  The spec (4.3, 4.4, 5) has a Group own
    one bounded recency cache of the given byte budget, consult it on every
    Get, insert into it what the Loader returns, and guard each access by a
    mutex; the recency cache is built with the first insertion and without
    an eviction callback.  The mutex has no effect on a sequential run. *)
Record cache := mkcache {
  cacheBytes : Z;
  lru_ : option (lru.Cache ByteView unit);
}.

(** Modelled from the spec: [func (c *cache) add(key string, value ByteView)]. *)
Definition cache_add (key : string) (value : ByteView) (c : cache) : outcome cache :=
  let l := match lru_ c with
           | Some l => l
           | None => lru.New (cacheBytes c) None tt
           end in
  l' ← lru.Add key value l;
  Ret {| cacheBytes := cacheBytes c; lru_ := Some l' |}.

(** Modelled from the spec:
    [func (c *cache) get(key string) (value ByteView, ok bool)]. *)
Definition cache_get (key : string) (c : cache) : outcome (option ByteView * cache) :=
  match lru_ c with
  | None => Ret (None, c)
  | Some l =>
      r ← lru.Get key l;
      Ret (r.1, {| cacheBytes := cacheBytes c; lru_ := Some r.2 |})
  end.

(** *** Errors and results *)

(** A Go [error], carried as its message. *)
Definition error := string.

(** A pair [(value, err)] of which the code fills exactly one side. *)
Inductive result (A : Type) : Type :=
  | Ok (a : A)
  | Err (e : error).
Arguments Ok {A} a.
Arguments Err {A} e.

Section Group.

(** The world outside the process: the data source behind the Loader, the
    network and the peers.  The callbacks act on it and are assumed to
    return. *)
Context {Env : Type}.

(** [type Getter interface { Get(key string) ([]byte, error) }] *)
Definition Getter := string → Env → result (list byte) * Env.

(** [type PeerGetter interface { Get(group string, key string) ([]byte, error) }],
    as [httpGetter] implements it. *)
Definition PeerGetter := string → string → Env → result (list byte) * Env.

(** [type PeerPicker interface { PickPeer(key string) (PeerGetter, bool) }],
    as [HTTPPool] implements it. *)
Definition PeerPicker := string → Env → option PeerGetter * Env.

(** What a Group does to the outside, in order. *)
Inductive call :=
  | CallGetter (key : string)              (* g.getter.Get(key) *)
  | CallPickPeer (key : string)            (* g.peers.PickPeer(key) *)
  | CallPeerGet (group key : string)       (* peer.Get(g.name, key) *)
  | CallLog (msg : string).                (* log.Println(msg) *)

Record World := mkWorld {
  env : Env;
  calls : list call;
}.

Definition record (c : call) (e : Env) (w : World) : World :=
  {| env := e; calls := calls w ++ [c] |}.

(** [type Group struct] *)
Record Group := mkGroup {
  name : string;
  getter : Getter;
  mainCache : cache;
  peers : option PeerPicker;
}.

Definition with_mainCache (c : cache) (g : Group) : Group :=
  {| name := name g; getter := getter g; mainCache := c; peers := peers g |}.

(** [func NewGroup(name string, cacheBytes int64, getter Getter) *Group];
    a nil [getter] panics.  The registry [groups] is left out. *)
Definition NewGroup (name : string) (cacheBytes : Z) (getter : option Getter) : outcome Group :=
  match getter with
  | None => Panic
  | Some f =>
      Ret {| name := name;
             getter := f;
             mainCache := {| cacheBytes := cacheBytes; lru_ := None |};
             peers := None |}
  end.

(** [func (g *Group) RegisterPeers(peers PeerPicker)]; the argument is an
    interface value and may be nil ([None]): on a Group without a strategy
    the call then returns and leaves [g.peers] nil. *)
Definition RegisterPeers (p : option PeerPicker) (g : Group) : outcome Group :=
  match peers g with
  | Some _ => Panic
  | None =>
      Ret {| name := name g; getter := getter g; mainCache := mainCache g;
             peers := p |}
  end.

(** [func (g *Group) populateCache(key string, value ByteView)] *)
Definition populateCache (key : string) (value : ByteView) (g : Group) : outcome Group :=
  c ← cache_add key value (mainCache g);
  Ret (with_mainCache c g).

(** [func (g *Group) getLocally(key string) (ByteView, error)] *)
Definition getLocally (key : string) (g : Group) (w : World)
    : outcome (result ByteView * Group * World) :=
  let (r, e) := getter g key (env w) in
  let w := record (CallGetter key) e w in
  match r with
  | Err err => Ret (Err err, g, w)
  | Ok bytes =>
      let value := {| b := cloneBytes bytes |} in
      g ← populateCache key value g;
      Ret (Ok value, g, w)
  end.

(** [func (g *Group) getFromPeer(peer PeerGetter, key string) (ByteView, error)] *)
Definition getFromPeer (peer : PeerGetter) (key : string) (g : Group) (w : World)
    : result ByteView * World :=
  let (r, e) := peer (name g) key (env w) in
  let w := record (CallPeerGet (name g) key) e w in
  match r with
  | Err err => (Err err, w)
  | Ok bytes => (Ok {| b := bytes |}, w)
  end.

(** [func (g *Group) load(key string) (value ByteView, err error)] *)
Definition load (key : string) (g : Group) (w : World)
    : outcome (result ByteView * Group * World) :=
  match peers g with
  | Some pick =>
      let (p, e) := pick key (env w) in
      let w := record (CallPickPeer key) e w in
      match p with
      | Some peer =>
          match getFromPeer peer key g w with
          | (Ok value, w) => Ret (Ok value, g, w)
          | (Err err, w) =>
              let w := record (CallLog ("[GeeCache] Failed to get from peer " ++ err)%string) (env w) w in
              getLocally key g w
          end
      | None => getLocally key g w
      end
  | None => getLocally key g w
  end.

(** [func (g *Group) Get(key string) (ByteView, error)] *)
Definition Group_Get (key : string) (g : Group) (w : World)
    : outcome (result ByteView * Group * World) :=
  if decide (key = "") then Ret (Err "key不能为空", g, w)
  else
    r ← cache_get key (mainCache g);
    match r.1 with
    | Some v =>
        Ret (Ok v, with_mainCache r.2 g, record (CallLog "[ZzaCache] hit") (env w) w)
    | None => load key (with_mainCache r.2 g) w
    end.

End Group.
Arguments Group Env : clear implicits.
Arguments World Env : clear implicits.
Arguments Getter Env : clear implicits.
Arguments PeerGetter Env : clear implicits.
Arguments PeerPicker Env : clear implicits.

(** *** The HTTP pool (src/unnamed/part_001): the client side *)

Definition defaultBasePath : string := "/_zzacache".
Definition defaultReplicas : Z := 50.

(** [url.QueryEscape]: letters, digits and [-_.~] stand for themselves, a
    space becomes [+], every other byte becomes [%XX] in upper-case
    hexadecimal. *)
Definition unreserved (c : ascii) : bool :=
  let n := nat_of_ascii c in
  ((48 <=? n) && (n <=? 57) || (65 <=? n) && (n <=? 90) || (97 <=? n) && (n <=? 122)
   || (n =? 45) || (n =? 95) || (n =? 46) || (n =? 126))%nat.

Definition upperhex (n : nat) : ascii :=
  ascii_of_nat (if (n <? 10)%nat then 48 + n else 55 + n).

Definition escape_byte (c : ascii) : string :=
  if unreserved c then String.String c ""
  else if Ascii.eqb c " " then "+"
  else
    let n := nat_of_ascii c in
    String.String "%" (String.String (upperhex (n / 16)) (String.String (upperhex (n mod 16)) "")).

Fixpoint QueryEscape (s : string) : string :=
  match s with
  | EmptyString => ""
  | String.String c s' => escape_byte c ++ QueryEscape s'
  end.

(** [type httpGetter struct { baseURL string }] *)
Record httpGetter := mkhttpGetter { baseURL : string }.

(** [type HTTPPool struct]; [peers] is nil until [Set] builds the ring. *)
Record HTTPPool := mkHTTPPool {
  self : string;
  basePath : string;
  pool_peers : option consistenthash.Map;
  httpGetters : gmap string httpGetter;
}.

(** [func NewHTTPPool(self string) *HTTPPool] *)
Definition NewHTTPPool (self : string) : HTTPPool :=
  {| self := self; basePath := defaultBasePath; pool_peers := None; httpGetters := ∅ |}.

(** [func (p *HTTPPool) Set(peers ...string)] *)
Definition Set_ (peers : list string) (p : HTTPPool) : HTTPPool :=
  {| self := self p;
     basePath := basePath p;
     pool_peers := Some (consistenthash.Add peers (consistenthash.New defaultReplicas None));
     httpGetters :=
       foldl (λ m peer, <[peer := {| baseURL := peer ++ basePath p |}]> m) ∅ peers |}.

(** [func (p *HTTPPool) PickPeer(key string) (PeerGetter, bool)]: the getter
    registered for the peer that owns [key], unless that peer is this node.
    The inner option is the pointer found in [httpGetters], nil when the map
    has none; calling the method on a pool whose ring was never set panics. *)
Definition PickPeer (key : string) (p : HTTPPool) : outcome (option (option httpGetter)) :=
  match pool_peers p with
  | None => Panic
  | Some m =>
      let peer := consistenthash.Get key m in
      if decide (peer ≠ "" ∧ peer ≠ self p) then Ret (Some (httpGetters p !! peer))
      else Ret None
  end.

(** The URL that [httpGetter.Get] builds:
    [fmt.Sprintf("%v%v/%v", h.baseURL, url.QueryEscape(group), url.QueryEscape(key))]. *)
Definition request_url (h : httpGetter) (group key : string) : string :=
  baseURL h ++ QueryEscape group ++ "/" ++ QueryEscape key.

Section httpGetter.
Context {Env : Type}.

(** What [http.Get] hands back: a transport error, or a response with its
    status and the outcome of reading its body. *)
Record Response := mkResponse {
  StatusCode : Z;
  Status : string;
  Body : result (list byte);
}.

(** The transport, [http.Get]. *)
Variable http_Get : string → Env → result Response * Env.

Definition StatusOK : Z := 200.

(** [func (h *httpGetter) Get(group string, key string) ([]byte, error)] *)
Definition httpGetter_Get (h : httpGetter) : PeerGetter Env := λ group key e,
  let u := request_url h group key in
  match http_Get u e with
  | (Err err, e) => (Err err, e)
  | (Ok res, e) =>
      if decide (StatusCode res ≠ StatusOK) then (Err ("server returned: " ++ Status res)%string, e)
      else
        match Body res with
        | Err err => (Err ("reading response body: " ++ err)%string, e)
        | Ok bytes => (Ok bytes, e)
        end
  end.

End httpGetter.

End zzacache.

(** ** Values for concrete runs *)

Module examples.
Import zzacache.

(** A value type as in the tests of the original: [type String string],
    whose [Len] is the length of the string. *)
Global Instance String_Value : lru.Value string := len.

(** The result of a call that returned ([d] otherwise). *)
Definition returned {A} (d : A) (o : outcome A) : A :=
  match o with
  | Ret a => a
  | _ => d
  end.

(** Two entries in a cache of six bytes: B is the most recently used. *)
Definition ab : lru.Cache string unit :=
  returned (lru.New 6 None tt)
    (lru.run [lru.OpAdd "A" "11"; lru.OpAdd "B" "22"] (lru.New 6 None tt)).

(** ... then Get("A") ... *)
Definition ab_got : lru.Cache string unit := (returned (None, ab) (lru.Get "A" ab)).2.

(** ... then Add("C", "33"), before and after its loop. *)
Definition ab_got_ins : lru.Cache string unit :=
  returned ab_got (lru.insert_or_update "C" "33" ab_got).

Definition ab_got_added : lru.Cache string unit :=
  returned ab_got (lru.Add "C" "33" ab_got).

(** A Loader that answers every key with the two bytes of "xy". *)
Definition xy : list byte := String.list_byte_of_string "xy".

Definition loader : Getter unit := λ key e, (Ok xy, e).

(** A peer whose fetch fails, one whose fetch succeeds, and the strategies
    that pick them. *)
Definition peer_down : PeerGetter unit := λ group key e, (Err "connection refused", e).
Definition peer_up : PeerGetter unit := λ group key e, (Ok xy, e).
Definition pick (p : PeerGetter unit) : PeerPicker unit := λ key e, (Some p, e).

(** The Group that [NewGroup("scores", cacheBytes, loader)] returns, with
    [peers] registered. *)
Definition scores (cacheBytes : Z) (peers : option (PeerPicker unit)) : Group unit :=
  {| name := "scores";
     getter := loader;
     mainCache := {| cacheBytes := cacheBytes; lru_ := None |};
     peers := peers |}.

Definition quiet : World unit := {| env := tt; calls := [] |}.

(** A value that reports the size it is told:
    [type sized int] with [func (s sized) Len() int { return int(s) }]. *)
Definition sized : Type := Z.
Global Instance sized_Value : lru.Value sized := λ s, s.

(** A hash for small rings: the length of the data. *)
Definition by_length : consistenthash.Hash := λ data, Z.of_nat (length data).

End examples.

(** ** Vocabulary of the specification *)

Section LruVocabulary.
Context {V : Type} `{!lru.Value V} {W : Type}.
Implicit Types (c : lru.Cache V W) (kv : lru.entry V) (es : list (lru.entry V)).

(** The recency list has no repeated element; every element of the list has
    a payload and the lookup map sends the payload's key back to the element;
    every binding of the lookup map points into the list, at an element whose
    payload carries that key; and the byte counter is the sum of the entry
    sizes, as an [int64]. *)
Record wf c : Prop := {
  wf_NoDup : NoDup (lru.ll c);
  wf_elems : ∀ e, e ∈ lru.ll c →
    ∃ kv, lru.elems c !! e = Some kv ∧ lru.cache c !! lru.key kv = Some e;
  wf_cache : ∀ k e, lru.cache c !! k = Some e →
    e ∈ lru.ll c ∧ ∃ kv, lru.elems c !! e = Some kv ∧ lru.key kv = k;
  wf_nbytes : lru.nbytes c = int64 (lru.total_size c);
}.

Definition sizes es : Z := foldr (λ kv a, lru.entry_size kv + a) 0 es.

(** The effect of the eviction callback on the world, for one entry. *)
Definition notify c kv (w : W) : W :=
  match lru.OnEvicated c with
  | Some f => f (lru.key kv) (lru.value kv) w
  | None => w
  end.

(** A sequence of [Add] calls. *)
Definition adds (kvs : list (string * V)) : list (lru.op V) :=
  (λ p, lru.OpAdd p.1 p.2) <$> kvs.

(** One entry fits beside a full budget without leaving the [int64] range,
    and its value reports a length that is not negative. *)
Definition fits (mb : Z) (p : string * V) : Prop :=
  0 ≤ lru.Len p.2 ∧ mb + len p.1 + lru.Len p.2 ≤ max_int64.

Definition nonneg es : Prop := Forall (λ kv, 0 ≤ lru.Len (lru.value kv)) es.

(** The invariant behind C1: the counter is exact and within the budget. *)
Definition exact_counter (mb : Z) c : Prop :=
  wf c ∧ lru.maxBytes c = mb ∧ nonneg (lru.entries c)
  ∧ lru.nbytes c = lru.total_size c ∧ lru.total_size c ≤ mb.

End LruVocabulary.

Section RingVocabulary.
Import consistenthash.

(** The invariant of a ring: the positions are sorted and each has a node. *)
Record ring_wf (m : Map) : Prop := {
  ring_sorted : StronglySorted Z.le (keys m);
  ring_mapped : ∀ p, p ∈ keys m → is_Some (hashMap m !! p);
}.

End RingVocabulary.

Section GroupVocabulary.
Import zzacache.
Context {Env : Type}.

(** The local cache of a Group is well formed: its recency cache, once
    built, satisfies [wf], has the Group's byte budget and no callback. *)
Definition cache_wf (c : cache) : Prop :=
  match lru_ c with
  | None => True
  | Some l => wf l ∧ lru.maxBytes l = cacheBytes c ∧ lru.OnEvicated l = None
  end.

(** Two Gets of the same key in a row: both results and the calls made. *)
Definition Get_twice (key : string) (g : Group Env) (w : World Env)
    : outcome (result ByteView * result ByteView * list call) :=
  r1 ← Group_Get key g w;
  r2 ← Group_Get key r1.1.2 r1.2;
  Ret (r1.1.1, r2.1.1, calls r2.2).

End GroupVocabulary.

Section LruModel.
Context {V : Type}.

(** What one Add does to the recency order when nothing is evicted: the
    entry goes to the front and an older entry of the same key goes away. *)
Definition touch (es : list (lru.entry V)) (p : string * V) : list (lru.entry V) :=
  lru.Entry p.1 p.2 :: filter (λ x, lru.key x ≠ p.1) es.

End LruModel.

Section LruRange.
Context {V : Type} `{!lru.Value V} {W : Type}.

(** The sizes met while a sequence of Adds runs stay in the range of the
    64-bit counter: each value reports a length that is not negative, and
    the sum of the sizes of the stored entries, taken after the insertion
    of an Add and before its eviction loop, is at most [MaxInt64]. *)
Fixpoint in_range (kvs : list (string * V)) (c : lru.Cache V W) : Prop :=
  match kvs with
  | [] => True
  | p :: rest =>
      0 ≤ lru.Len p.2
      ∧ sizes (touch (lru.entries c) p) ≤ max_int64
      ∧ match lru.Add p.1 p.2 c with
        | Ret c' => in_range rest c'
        | _ => True
        end
  end.

End LruRange.

Section RingModel.
Import consistenthash.

(** The ring positions of a node: the hashes of "0node", "1node", ... for
    the replica indices below [replicas]. *)
Definition positions (m : Map) (node : string) : list Z :=
  (λ i, hash_of m (Itoa i ++ node)%string) <$> seqZ 0 (replicas m).

(** A ring built from [New(R, fn)] by successive calls of Add. *)
Definition ring (R : Z) (fn : option Hash) (adds : list (list string)) : Map :=
  foldl (λ m nodes, Add nodes m) (New R fn) adds.

End RingModel.

(** ** Package zzacache, continued: the registry and the server side *)

Module zzaserver.
Import zzacache.

(** [strings.SplitN(s, "/", 2)]: [s] cut at its first slash, or [s] alone
    when it has none. *)
Fixpoint cut_slash (s : string) : option (string * string) :=
  match s with
  | EmptyString => None
  | String.String c s' =>
      if Ascii.eqb c "/" then Some (EmptyString, s')
      else match cut_slash s' with
           | Some (a, rest) => Some (String.String c a, rest)
           | None => None
           end
  end.

Definition SplitN2 (s : string) : list string :=
  match cut_slash s with
  | Some (a, rest) => [a; rest]
  | None => [s]
  end.

(** [s[n:]] for [n] within the string. *)
Fixpoint skip (n : nat) (s : string) : string :=
  match n, s with
  | O, _ => s
  | S n', String.String _ s' => skip n' s'
  | S _, EmptyString => EmptyString
  end.

(** What the handler has written to its [http.ResponseWriter] when it
    returns: the status, the Content-Type header and the body. *)
Record Reply := mkReply {
  status : Z;
  content_type : string;
  reply_body : list byte;
}.

(** [http.Error(w, msg, code)]: a plain-text reply, the message and a newline. *)
Definition http_Error (msg : string) (code : Z) : Reply :=
  {| status := code;
     content_type := "text/plain; charset=utf-8";
     reply_body := String.list_byte_of_string (msg ++ String.String "010" "") |}.

Definition StatusBadRequest : Z := 400.
Definition StatusNotFound : Z := 404.
Definition StatusInternalServerError : Z := 500.

(** The two fields of [*http.Request] that the handler reads. *)
Record Request := mkRequest {
  Method : string;
  URL_Path : string;
}.

Section Registry.
Context {Env : Type}.

(** The package variable [groups = make(map[string]*Group)] and the Groups
    its pointers lead to.  A [*Group] is a location of [store]; a Group that
    lost its name to a later one stays in the store. *)
Record Registry := mkRegistry {
  groups : gmap string positive;
  store : gmap positive (Group Env);
}.

Definition no_groups : Registry := {| groups := ∅; store := ∅ |}.

(** [func NewGroup(name string, cacheBytes int64, getter Getter) *Group],
    with the registration that [zzacache.NewGroup] leaves out: the panic on
    a nil getter comes first, then the new Group is stored under its name. *)
Definition NewGroup_registered (name : string) (cacheBytes : Z) (getter : option (Getter Env))
    (r : Registry) : outcome (positive * Registry) :=
  g ← NewGroup name cacheBytes getter;
  let l := fresh (dom (store r)) in
  Ret (l, {| groups := <[name := l]> (groups r); store := <[l := g]> (store r) |}).

(** [func GetGroup(name string) *Group]; [None] is nil. *)
Definition GetGroup (name : string) (r : Registry) : option positive := groups r !! name.

(** [group.Get(key)] through a pointer: the Group behind it is updated in
    place. *)
Definition Get_at (l : positive) (key : string) (r : Registry) (w : World Env)
    : outcome (result ByteView * Registry * World Env) :=
  match store r !! l with
  | None => Panic
  | Some g =>
      x ← Group_Get key g w;
      Ret (x.1.1, {| groups := groups r; store := <[l := x.1.2]> (store r) |}, x.2)
  end.

(** [func (p *HTTPPool) Log(format string, v ...interface{})], for the one
    format the handler uses. *)
Definition Log (p : HTTPPool) (msg : string) (w : World Env) : World Env :=
  record (CallLog ("[Server " ++ self p ++ "] " ++ msg)%string) (env w) w.

(** [func (p *HTTPPool) ServerHTTP(w http.ResponseWriter, r *http.Request)] *)
Definition ServerHTTP (p : HTTPPool) (r : Request) (reg : Registry) (w : World Env)
    : outcome (Reply * Registry * World Env) :=
  if negb (String.prefix (basePath p) (URL_Path r)) then Panic
  else
    let w := Log p (Method r ++ " " ++ URL_Path r)%string w in
    match SplitN2 (skip (String.length (basePath p)) (URL_Path r)) with
    | [groupName; key] =>
        match GetGroup groupName reg with
        | None => Ret (http_Error ("no such group: " ++ groupName) StatusNotFound, reg, w)
        | Some group =>
            x ← Get_at group key reg w;
            match x.1.1 with
            | Err err => Ret (http_Error err StatusInternalServerError, x.1.2, x.2)
            | Ok view =>
                Ret ({| status := StatusOK;
                        content_type := "application/octet-stream";
                        reply_body := ByteView_ByteSlice view |}, x.1.2, x.2)
            end
        end
    | _ => Ret (http_Error "bad request" StatusBadRequest, reg, w)
    end.

End Registry.
Arguments Registry Env : clear implicits.

(** A string made of letters, digits and [-_.~] only. *)
Definition plain (s : string) : Prop :=
  Forall (λ c, unreserved c = true) (String.list_ascii_of_string s).

(** The bytes [url.QueryEscape] can produce: the unreserved ones, [+] and [%]. *)
Definition url_safe (c : ascii) : bool :=
  unreserved c || Ascii.eqb c "+" || Ascii.eqb c "%".

(** A string without a slash. *)
Definition no_slash (s : string) : Prop :=
  Forall (λ c, c ≠ "/"%char) (String.list_ascii_of_string s).


(** Every name of the registry leads to a Group. *)
Definition reg_ok {Env} (r : Registry Env) : Prop :=
  ∀ n l, groups r !! n = Some l → is_Some (store r !! l).

(** What the handler replies for the outcome of [group.Get]. *)
Definition reply_of (res : result ByteView) : Reply :=
  match res with
  | Err err => http_Error err StatusInternalServerError
  | Ok view =>
      {| status := StatusOK;
         content_type := "application/octet-stream";
         reply_body := ByteView_ByteSlice view |}
  end.

End zzaserver.

Section GroupModel.
Import zzacache.
Context {Env : Type}.

(** The byte counter of a Group's local cache (0 before the cache is built). *)
Definition used_bytes (c : cache) : Z :=
  match lru_ c with
  | Some l => lru.nbytes l
  | None => 0
  end.

(** The entries of a Group's local cache, most recently used first. *)
Definition cached (c : cache) : list (lru.entry ByteView) :=
  match lru_ c with
  | Some l => lru.entries l
  | None => []
  end.

(** The local cache counts exactly and is within its budget. *)
Definition cache_exact (c : cache) : Prop :=
  match lru_ c with
  | Some l => exact_counter (cacheBytes c) l ∧ lru.OnEvicated l = None
  | None => True
  end.

(** Gets one after the other. *)
Fixpoint Get_all (keys : list string) (g : Group Env) (w : World Env)
    : outcome (Group Env * World Env) :=
  match keys with
  | [] => Ret (g, w)
  | key :: keys' => x ← Group_Get key g w; Get_all keys' x.1.2 x.2
  end.

(** A sequence of [RegisterPeers] calls on one Group, nil arguments
    included. *)
Fixpoint RegisterPeers_all (ps : list (option (PeerPicker Env))) (g : Group Env)
    : outcome (Group Env) :=
  match ps with
  | [] => Ret g
  | p :: ps' => g' ← RegisterPeers p g; RegisterPeers_all ps' g'
  end.

End GroupModel.

(** ** More values for concrete runs *)

Module examples2.
Import zzacache zzaserver examples.


(** The cache [ab] emptied by two calls of RemoveOldest. *)
Definition ab_drained : lru.Cache string unit :=
  returned ab (lru.run [lru.OpRemoveOldest; lru.OpRemoveOldest] ab).

(** A Get of "k" on a Group whose peer is down: result, Group and world. *)
Definition down : Group unit := scores 64 (Some (pick peer_down)).

Definition fell_back : result ByteView * Group unit * World unit :=
  returned (Err "", down, quiet) (Group_Get "k" down quiet).

(** Gets of "k", "kk" and "k" again on a new Group with a budget of 4 bytes. *)
Definition small : Group unit := scores 4 None.

Definition small_after : Group unit * World unit :=
  returned (small, quiet) (Get_all ["k"; "kk"; "k"] small quiet).

(** A registry with the Group "scores", and the world after the handler's
    log line for GET /_zzacachescores/Tom. *)
Definition one_group : Registry unit :=
  {| groups := {[ "scores" := 1%positive ]};
     store := {[ 1%positive := scores 64 None ]} |}.

Definition logged : World unit :=
  Log (NewHTTPPool "http://localhost:8001") "GET /_zzacachescores/Tom" quiet.

Definition served : result ByteView * Group unit * World unit :=
  returned (Err "", scores 64 None, logged) (Group_Get "Tom" (scores 64 None) logged).

End examples2.

(** * Verification *)

Lemma bind_Ret {A B} (a : A) (f : A → outcome B) : (Ret a ≫= f) = f a.
Proof. reflexivity. Qed.

(** ** Machine integers: arithmetic modulo 2^64 *)

Lemma int64_range z : min_int64 ≤ int64 z ≤ max_int64.
Proof.
  unfold int64, min_int64, max_int64.
  pose proof (Z.mod_pos_bound (z + 2 ^ 63) (2 ^ 64)). lia.
Qed.

Lemma int64_id z : min_int64 ≤ z ≤ max_int64 → int64 z = z.
Proof.
  unfold int64, min_int64, max_int64. intros Hz.
  rewrite Z.mod_small; lia.
Qed.

Lemma int64_add_l a b : int64 (int64 a + b) = int64 (a + b).
Proof.
  unfold int64. f_equal.
  replace ((a + 2 ^ 63) `mod` 2 ^ 64 - 2 ^ 63 + b + 2 ^ 63)
    with ((a + 2 ^ 63) `mod` 2 ^ 64 + b) by lia.
  rewrite Zplus_mod_idemp_l. f_equal. lia.
Qed.

Lemma int64_add_r a b : int64 (a + int64 b) = int64 (a + b).
Proof. rewrite (Z.add_comm a), int64_add_l. f_equal. lia. Qed.

Lemma int64_sub_r a b : int64 (a - int64 b) = int64 (a - b).
Proof.
  unfold int64. f_equal.
  replace (a - ((b + 2 ^ 63) `mod` 2 ^ 64 - 2 ^ 63) + 2 ^ 63)
    with (a + 2 ^ 64 - (b + 2 ^ 63) `mod` 2 ^ 64) by lia.
  rewrite Zminus_mod_idemp_r.
  f_equal. lia.
Qed.

Lemma int64_sub_l a b : int64 (int64 a - b) = int64 (a - b).
Proof.
  replace (int64 a - b) with (int64 a + - b) by lia.
  by rewrite int64_add_l.
Qed.

Lemma int64_shift z : ∃ k, int64 z = z + k * 2 ^ 64.
Proof.
  exists (- ((z + 2 ^ 63) `div` 2 ^ 64)). unfold int64.
  pose proof (Z.div_mod (z + 2 ^ 63) (2 ^ 64)). lia.
Qed.

Lemma int64_congr a b k : a = b + k * 2 ^ 64 → int64 a = int64 b.
Proof.
  intros ->. unfold int64. f_equal.
  replace (b + k * 2 ^ 64 + 2 ^ 63) with (b + 2 ^ 63 + k * 2 ^ 64) by lia.
  apply Z_mod_plus_full.
Qed.

(** The three updates of the byte counter. *)
Lemma int64_counter_add t a b :
  int64 (int64 t + int64 (int64 a + int64 b)) = int64 (t + (a + b)).
Proof.
  destruct (int64_shift (int64 a + int64 b)) as [k4 ->].
  destruct (int64_shift t) as [k1 ->], (int64_shift a) as [k2 ->],
    (int64_shift b) as [k3 ->].
  apply (int64_congr _ _ (k1 + k2 + k3 + k4)). lia.
Qed.

Lemma int64_counter_sub t a b :
  int64 (int64 t - int64 (int64 a + int64 b)) = int64 (t - (a + b)).
Proof.
  destruct (int64_shift (int64 a + int64 b)) as [k4 ->].
  destruct (int64_shift t) as [k1 ->], (int64_shift a) as [k2 ->],
    (int64_shift b) as [k3 ->].
  apply (int64_congr _ _ (k1 - k2 - k3 - k4)). lia.
Qed.

Lemma int64_counter_upd t a b :
  int64 (int64 t + int64 (int64 a - int64 b)) = int64 (t + (a - b)).
Proof.
  destruct (int64_shift (int64 a - int64 b)) as [k4 ->].
  destruct (int64_shift t) as [k1 ->], (int64_shift a) as [k2 ->],
    (int64_shift b) as [k3 ->].
  apply (int64_congr _ _ (k1 + k2 - k3 + k4)). lia.
Qed.

Lemma int64_0 : int64 0 = 0.
Proof. reflexivity. Qed.

Lemma len_nonneg s : 0 ≤ len s.
Proof. unfold len. lia. Qed.

(** ** container/list *)

Lemma filter_all {A} (P : A → Prop) `{!∀ x, Decision (P x)} (l : list A) :
  Forall P l → filter P l = l.
Proof.
  induction 1 as [|x l Hx Hl IH]; [done|].
  rewrite filter_cons_True by done. by rewrite IH.
Qed.

Lemma elem_of_Remove e x l : x ∈ lru.Remove e l ↔ x ∈ l ∧ x ≠ e.
Proof. unfold lru.Remove. rewrite list_elem_of_filter. tauto. Qed.

Lemma not_elem_of_Remove e l : e ∉ lru.Remove e l.
Proof. rewrite elem_of_Remove. intros [_ Hne]. by apply Hne. Qed.

Lemma NoDup_Remove e l : NoDup l → NoDup (lru.Remove e l).
Proof. apply NoDup_filter. Qed.

Lemma Remove_notin e l : e ∉ l → lru.Remove e l = l.
Proof.
  unfold lru.Remove. induction l as [|x l IH]; [done|].
  intros Hx. rewrite not_elem_of_cons in Hx. destruct Hx as [Hne Hx].
  rewrite filter_cons_True by done. by rewrite IH.
Qed.

Lemma Remove_snoc e l : e ∉ l → lru.Remove e (l ++ [e]) = l.
Proof.
  intros He. unfold lru.Remove. rewrite filter_app.
  fold (lru.Remove e l). rewrite Remove_notin by done.
  rewrite filter_cons_False by naive_solver. by rewrite filter_nil, app_nil_r.
Qed.

Lemma Back_snoc l e : lru.Back (l ++ [e]) = Some e.
Proof. apply last_snoc. Qed.

Lemma Back_Some l e : lru.Back l = Some e → ∃ l', l = l' ++ [e].
Proof. apply last_Some. Qed.

Lemma Back_None l : lru.Back l = None → l = [].
Proof. apply last_None. Qed.

Lemma MoveToFront_elem e l : e ∈ l → lru.MoveToFront e l = e :: lru.Remove e l.
Proof. intros He. unfold lru.MoveToFront. by rewrite decide_True. Qed.

Lemma Remove_Permutation e l : NoDup l → e ∈ l → e :: lru.Remove e l ≡ₚ l.
Proof.
  intros Hnd He. apply NoDup_Permutation; [| done |].
  - constructor; [apply not_elem_of_Remove | by apply NoDup_Remove].
  - intros x. rewrite elem_of_cons, elem_of_Remove. split.
    + intros [->|[Hx _]]; done.
    + intros Hx. destruct (decide (x = e)); tauto.
Qed.

(** ** The bounded recency cache: representation invariant *)

Section LruInvariant.
Context {V : Type} `{!lru.Value V} {W : Type}.
Implicit Types (c : lru.Cache V W) (kv : lru.entry V) (e : lru.Element).
Implicit Types (l : list lru.Element) (es : list (lru.entry V)).

Lemma sizes_app es1 es2 : sizes (es1 ++ es2) = sizes es1 + sizes es2.
Proof. induction es1 as [|kv es1 IH]; simpl; lia. Qed.

Lemma sizes_filter_key k kv es :
  NoDup (lru.key <$> es) → kv ∈ es → lru.key kv = k →
  sizes (filter (λ x, lru.key x ≠ k) es) = sizes es - lru.entry_size kv.
Proof.
  intros Hnd Hin <-. induction es as [|x es IH]; [by apply elem_of_nil in Hin|].
  rewrite fmap_cons in Hnd. apply NoDup_cons in Hnd as [Hx Hnd].
  apply elem_of_cons in Hin as [<-|Hin].
  - rewrite filter_cons_False by (intros Hc; by apply Hc).
    rewrite filter_all; [simpl; lia|].
    apply Forall_forall. intros y Hy Hky. apply Hx.
    rewrite <- Hky. by apply list_elem_of_fmap_2.
  - assert (lru.key x ≠ lru.key kv) as Hxk.
    { intros Hxk. apply Hx. rewrite Hxk. by apply list_elem_of_fmap_2. }
    rewrite filter_cons_True by done. simpl. rewrite IH by done. lia.
Qed.

Lemma sizes_filter_absent k es :
  k ∉ lru.key <$> es → filter (λ x, lru.key x ≠ k) es = es.
Proof.
  intros Hk. apply filter_all, Forall_forall.
  intros y Hy Hky. apply Hk. rewrite <- Hky. by apply list_elem_of_fmap_2.
Qed.

Lemma total_size_entries c : lru.total_size c = sizes (lru.entries c).
Proof. reflexivity. Qed.

Lemma elem_of_entries c kv :
  kv ∈ lru.entries c ↔ ∃ e, e ∈ lru.ll c ∧ lru.elems c !! e = Some kv.
Proof. unfold lru.entries. by rewrite list_elem_of_omap. Qed.

Lemma wf_inj c e1 e2 kv1 kv2 :
  wf c → e1 ∈ lru.ll c → e2 ∈ lru.ll c →
  lru.elems c !! e1 = Some kv1 → lru.elems c !! e2 = Some kv2 →
  lru.key kv1 = lru.key kv2 → e1 = e2.
Proof.
  intros Hwf H1 H2 Hk1 Hk2 Hkey.
  destruct (wf_elems c Hwf e1 H1) as (kv1' & Hl1 & Hc1).
  destruct (wf_elems c Hwf e2 H2) as (kv2' & Hl2 & Hc2).
  simplify_eq. rewrite Hkey in Hc1. congruence.
Qed.

Lemma wf_lookup c k e :
  wf c → lru.cache c !! k = Some e →
  ∃ kv, lru.elems c !! e = Some kv ∧ lru.key kv = k ∧ e ∈ lru.ll c ∧ kv ∈ lru.entries c.
Proof.
  intros Hwf Hk. destruct (wf_cache c Hwf k e Hk) as (Hin & kv & Hkv & Hkey).
  exists kv. repeat split; try done. apply elem_of_entries. eauto.
Qed.

Lemma wf_lookup_None c k :
  wf c → lru.cache c !! k = None → k ∉ lru.key <$> lru.entries c.
Proof.
  intros Hwf Hk Hin. apply list_elem_of_fmap in Hin as (kv & -> & Hin).
  apply elem_of_entries in Hin as (e & He & Hkv).
  destruct (wf_elems c Hwf e He) as (kv' & Hkv' & Hc). by simplify_eq.
Qed.

Lemma wf_keys c k :
  wf c → k ∈ lru.key <$> lru.entries c ↔ is_Some (lru.cache c !! k).
Proof.
  intros Hwf. split.
  - intros Hin. destruct (lru.cache c !! k) eqn:Hk; [eauto|].
    by apply wf_lookup_None in Hk.
  - intros [e He]. destruct (wf_lookup c k e Hwf He) as (kv & _ & <- & _ & Hin).
    by apply list_elem_of_fmap_2.
Qed.

(** Payloads of a part of the recency list. *)
Lemma omap_Remove c e kv l :
  wf c → l ⊆ lru.ll c → e ∈ lru.ll c → lru.elems c !! e = Some kv →
  omap (λ x, lru.elems c !! x) (lru.Remove e l)
  = filter (λ x, lru.key x ≠ lru.key kv) (omap (λ x, lru.elems c !! x) l).
Proof.
  intros Hwf Hl He Hkv. induction l as [|x l IH]; [done|].
  assert (x ∈ lru.ll c) as Hx by (apply Hl; left).
  assert (l ⊆ lru.ll c) as Hl' by (intros y Hy; apply Hl; by right).
  destruct (wf_elems c Hwf x Hx) as (kvx & Hkvx & _).
  unfold lru.Remove in *. destruct (decide (x = e)) as [->|Hne].
  - rewrite filter_cons_False by (intros Hc; by apply Hc). simpl. rewrite Hkv.
    rewrite filter_cons_False by (intros Hc; by apply Hc). by apply IH.
  - rewrite filter_cons_True by done. simpl. rewrite Hkvx.
    rewrite filter_cons_True.
    + f_equal. by apply IH.
    + intros Hkey. apply Hne. by eapply wf_inj.
Qed.

Lemma NoDup_keys_sub c l :
  wf c → l ⊆ lru.ll c → NoDup l →
  NoDup (lru.key <$> omap (λ x, lru.elems c !! x) l).
Proof.
  intros Hwf Hl Hnd. induction Hnd as [|x l Hx Hnd IH]; [constructor|].
  assert (x ∈ lru.ll c) as Hxin by (apply Hl; left).
  assert (l ⊆ lru.ll c) as Hl' by (intros y Hy; apply Hl; by right).
  destruct (wf_elems c Hwf x Hxin) as (kvx & Hkvx & _).
  simpl. rewrite Hkvx. rewrite fmap_cons. constructor; [|by apply IH].
  intros Hin. apply list_elem_of_fmap in Hin as (kv & Hkey & Hin).
  apply list_elem_of_omap in Hin as (y & Hy & Hkv).
  assert (x = y) by (eapply wf_inj; eauto). by subst.
Qed.

Lemma wf_NoDup_keys c : wf c → NoDup (lru.key <$> lru.entries c).
Proof. intros Hwf. apply NoDup_keys_sub; [done|done|by apply wf_NoDup]. Qed.

Lemma length_entries_sub c l :
  wf c → l ⊆ lru.ll c → length (omap (λ x, lru.elems c !! x) l) = length l.
Proof.
  intros Hwf Hl. induction l as [|x l IH]; [done|].
  assert (x ∈ lru.ll c) as Hxin by (apply Hl; left).
  destruct (wf_elems c Hwf x Hxin) as (kvx & Hkvx & _).
  simpl. rewrite Hkvx. simpl. f_equal. apply IH. intros y Hy. apply Hl. by right.
Qed.

Lemma length_entries c : wf c → length (lru.entries c) = length (lru.ll c).
Proof. intros Hwf. by apply length_entries_sub. Qed.

Lemma omap_insert_notin (m : gmap lru.Element (lru.entry V)) e kv l :
  e ∉ l → omap (λ x, <[e := kv]> m !! x) l = omap (λ x, m !! x) l.
Proof.
  intros He. induction l as [|x l IH]; [done|].
  apply not_elem_of_cons in He as [Hne He].
  csimpl. rewrite lookup_insert_ne by done. by rewrite IH.
Qed.

(** *** [New] *)

Lemma New_wf mb cb (w : W) : wf (lru.New mb cb w).
Proof.
  split; simpl.
  - constructor.
  - intros e He. by apply elem_of_nil in He.
  - intros k e He. by rewrite lookup_empty in He.
  - reflexivity.
Qed.

(** *** [Get] *)

Lemma Get_miss c k : lru.cache c !! k = None → lru.Get k c = Ret (None, c).
Proof. intros Hk. unfold lru.Get. by rewrite Hk. Qed.

Lemma Get_hit c k e :
  wf c → lru.cache c !! k = Some e →
  ∃ kv c', lru.elems c !! e = Some kv ∧ lru.key kv = k
    ∧ lru.Get k c = Ret (Some (lru.value kv), c')
    ∧ wf c'
    ∧ lru.entries c' = kv :: filter (λ x, lru.key x ≠ k) (lru.entries c)
    ∧ lru.ll c' = e :: lru.Remove e (lru.ll c)
    ∧ lru.elems c' = lru.elems c ∧ lru.cache c' = lru.cache c
    ∧ lru.maxBytes c' = lru.maxBytes c ∧ lru.nbytes c' = lru.nbytes c
    ∧ lru.OnEvicated c' = lru.OnEvicated c ∧ lru.world c' = lru.world c.
Proof.
  intros Hwf Hk.
  destruct (wf_lookup c k e Hwf Hk) as (kv & Hkv & Hkey & Hin & Hent).
  assert (Hnd := wf_NoDup c Hwf).
  set (c' := lru.mkCache (lru.maxBytes c) (lru.nbytes c) (e :: lru.Remove e (lru.ll c))
               (lru.elems c) (lru.cache c) (lru.OnEvicated c) (lru.world c)).
  assert (lru.entries c' = kv :: filter (λ x, lru.key x ≠ k) (lru.entries c)) as Hents.
  { unfold lru.entries at 1. simpl. rewrite Hkv. f_equal. rewrite <- Hkey.
    by apply omap_Remove. }
  exists kv, c'. split; [done|]. split; [done|]. split.
  { unfold lru.Get. rewrite Hk. unfold lru.deref. simpl. rewrite Hkv. simpl.
    by rewrite MoveToFront_elem. }
  split; [|done].
  split.
  - simpl. constructor; [apply not_elem_of_Remove | by apply NoDup_Remove].
  - simpl. intros x Hx. apply (wf_elems c Hwf).
    apply elem_of_cons in Hx as [->|Hx]; [done|]. by apply elem_of_Remove in Hx as [? _].
  - simpl. intros k' x Hx. destruct (wf_cache c Hwf k' x Hx) as (Hxin & Hrest).
    split; [|done]. destruct (decide (x = e)) as [->|Hne]; [left|right].
    by apply elem_of_Remove.
  - rewrite total_size_entries, Hents. simpl.
    rewrite (sizes_filter_key k kv); [|by apply wf_NoDup_keys|done|done].
    rewrite (wf_nbytes c Hwf), total_size_entries. f_equal. lia.
Qed.

(** *** [RemoveOldest] *)

Lemma RemoveOldest_nil c : lru.ll c = [] → lru.RemoveOldest c = Ret c.
Proof. intros Hl. unfold lru.RemoveOldest. by rewrite Hl. Qed.

Lemma RemoveOldest_snoc c l e :
  wf c → lru.ll c = l ++ [e] →
  ∃ kv c', lru.elems c !! e = Some kv
    ∧ lru.entries c = lru.entries c' ++ [kv]
    ∧ lru.RemoveOldest c = Ret c'
    ∧ wf c'
    ∧ lru.ll c' = l
    ∧ lru.elems c' = lru.elems c
    ∧ lru.cache c' = delete (lru.key kv) (lru.cache c)
    ∧ lru.maxBytes c' = lru.maxBytes c
    ∧ lru.OnEvicated c' = lru.OnEvicated c
    ∧ lru.world c' = match lru.OnEvicated c with
                     | Some f => f (lru.key kv) (lru.value kv) (lru.world c)
                     | None => lru.world c
                     end.
Proof.
  intros Hwf Hl.
  assert (Hnd := wf_NoDup c Hwf). rewrite Hl in Hnd.
  apply NoDup_app in Hnd as (Hndl & Hdisj & _).
  assert (e ∉ l) as Hel by (intros He; apply (Hdisj e He); left).
  assert (e ∈ lru.ll c) as He by (rewrite Hl; apply elem_of_app; right; left).
  destruct (wf_elems c Hwf e He) as (kv & Hkv & Hc).
  set (c' := lru.mkCache (lru.maxBytes c)
               (int64 (lru.nbytes c
                       - int64 (int64 (len (lru.key kv)) + int64 (lru.Len (lru.value kv)))))
               l (lru.elems c) (delete (lru.key kv) (lru.cache c)) (lru.OnEvicated c)
               (match lru.OnEvicated c with
                | Some f => f (lru.key kv) (lru.value kv) (lru.world c)
                | None => lru.world c
                end)).
  assert (lru.entries c = lru.entries c' ++ [kv]) as Hents.
  { unfold lru.entries. rewrite Hl, omap_app. simpl. by rewrite Hkv. }
  exists kv, c'. split; [done|]. split; [exact Hents|]. split.
  { unfold lru.RemoveOldest. rewrite Hl, Back_snoc. unfold lru.deref. rewrite Hkv. simpl.
    by rewrite Remove_snoc. }
  split; [|done].
  split.
  - done.
  - simpl. intros x Hx.
    assert (x ∈ lru.ll c) as Hxin by (rewrite Hl; apply elem_of_app; by left).
    destruct (wf_elems c Hwf x Hxin) as (kvx & Hkvx & Hcx).
    exists kvx. split; [done|]. rewrite lookup_delete_ne; [done|].
    intros Hkey. assert (e = x) by (eapply wf_inj; eauto). by subst.
  - simpl. intros k x Hx. apply lookup_delete_Some in Hx as [Hne Hx].
    destruct (wf_cache c Hwf k x Hx) as (Hxin & kvx & Hkvx & Hkey).
    split; [|eauto]. rewrite Hl in Hxin. apply elem_of_app in Hxin as [?|Hxe]; [done|].
    apply list_elem_of_singleton in Hxe. subst x. by simplify_eq.
  - change (lru.nbytes c') with
      (int64 (lru.nbytes c
              - int64 (int64 (len (lru.key kv)) + int64 (lru.Len (lru.value kv))))).
    rewrite (wf_nbytes c Hwf), int64_counter_sub.
    f_equal. rewrite !total_size_entries, Hents, sizes_app. simpl.
    unfold lru.entry_size. lia.
Qed.

Lemma RemoveOldest_Ret c : wf c → ∃ c', lru.RemoveOldest c = Ret c' ∧ wf c'.
Proof.
  intros Hwf. destruct (lru.Back (lru.ll c)) as [e|] eqn:Hb.
  - apply Back_Some in Hb as [l Hl].
    destruct (RemoveOldest_snoc c l e Hwf Hl) as (kv & c' & _ & _ & Hr & Hwf' & _).
    eauto.
  - apply Back_None in Hb. exists c. by rewrite RemoveOldest_nil.
Qed.

(** *** [Add]: the insertion or update before the loop *)

Lemma wf_fresh c : wf c → fresh (dom (lru.elems c)) ∉ lru.ll c.
Proof.
  intros Hwf Hin. destruct (wf_elems c Hwf _ Hin) as (kv & Hkv & _).
  apply (is_fresh (dom (lru.elems c))). apply elem_of_dom. eauto.
Qed.

Lemma insert_or_update_spec c k v :
  wf c →
  ∃ c1, lru.insert_or_update k v c = Ret c1
    ∧ wf c1
    ∧ lru.entries c1 = lru.Entry k v :: filter (λ x, lru.key x ≠ k) (lru.entries c)
    ∧ lru.maxBytes c1 = lru.maxBytes c
    ∧ lru.OnEvicated c1 = lru.OnEvicated c
    ∧ lru.world c1 = lru.world c.
Proof.
  intros Hwf. assert (Hnd := wf_NoDup c Hwf).
  unfold lru.insert_or_update. destruct (lru.cache c !! k) as [e|] eqn:Hk.
  - destruct (wf_lookup c k e Hwf Hk) as (kv & Hkv & Hkey & Hin & Hent).
    unfold lru.deref. rewrite Hkv. simpl. rewrite MoveToFront_elem by done.
    assert (HeR := not_elem_of_Remove e (lru.ll c)).
    eexists. split; [reflexivity|].
    match goal with |- wf ?x ∧ _ => set (c1 := x) end.
    assert (lru.entries c1 = lru.Entry k v :: filter (λ x, lru.key x ≠ k) (lru.entries c))
      as Hents.
    { unfold lru.entries at 1. simpl. rewrite lookup_insert_eq. rewrite Hkey. f_equal.
      rewrite omap_insert_notin by done. rewrite <- Hkey. by apply omap_Remove. }
    split; [|done]. split.
    + simpl. constructor; [done | by apply NoDup_Remove].
    + simpl. intros x Hx. apply elem_of_cons in Hx as [->|Hx].
      * rewrite lookup_insert_eq. eexists. split; [done|]. simpl. by rewrite Hkey.
      * assert (x ≠ e) by (intros ->; done). rewrite lookup_insert_ne by done.
        apply (wf_elems c Hwf). by apply elem_of_Remove in Hx as [? _].
    + simpl. intros k' x Hx. destruct (wf_cache c Hwf k' x Hx) as (Hxin & kvx & Hkvx & Hkx).
      destruct (decide (x = e)) as [->|Hne].
      * split; [left|]. rewrite lookup_insert_eq. eexists. split; [done|].
        simpl. by simplify_eq.
      * split; [right; by apply elem_of_Remove|]. rewrite lookup_insert_ne by done. eauto.
    + rewrite total_size_entries, Hents. simpl.
      rewrite (sizes_filter_key k kv); [|by apply wf_NoDup_keys|done|done].
      rewrite (wf_nbytes c Hwf), int64_counter_upd, total_size_entries. f_equal.
      unfold lru.entry_size. simpl. rewrite Hkey. lia.
  - assert (Hfr := wf_fresh c Hwf). set (e := fresh (dom (lru.elems c))) in *.
    eexists. split; [reflexivity|].
    match goal with |- wf ?x ∧ _ => set (c1 := x) end.
    assert (lru.entries c1 = lru.Entry k v :: filter (λ x, lru.key x ≠ k) (lru.entries c))
      as Hents.
    { unfold lru.entries at 1. simpl. rewrite lookup_insert_eq. f_equal.
      rewrite omap_insert_notin by done. symmetry. apply sizes_filter_absent.
      by apply wf_lookup_None. }
    split; [|done]. split.
    + simpl. by constructor.
    + simpl. intros x Hx. apply elem_of_cons in Hx as [->|Hx].
      * rewrite lookup_insert_eq. eexists. split; [done|]. simpl. by rewrite lookup_insert_eq.
      * assert (x ≠ e) by (intros ->; done). rewrite lookup_insert_ne by done.
        destruct (wf_elems c Hwf x Hx) as (kvx & Hkvx & Hcx). exists kvx. split; [done|].
        rewrite lookup_insert_ne; [done|]. intros Heq. rewrite Heq in Hk. congruence.
    + simpl. intros k' x Hx. apply lookup_insert_Some in Hx as [[<- <-]|[Hne Hx]].
      * split; [left|]. rewrite lookup_insert_eq. eauto.
      * destruct (wf_cache c Hwf k' x Hx) as (Hxin & kvx & Hkvx & Hkx).
        split; [by right|]. assert (x ≠ e) by (intros ->; done).
        rewrite lookup_insert_ne by done. eauto.
    + rewrite total_size_entries, Hents. simpl.
      rewrite sizes_filter_absent by (by apply wf_lookup_None).
      change (lru.nbytes c1) with
        (int64 (lru.nbytes c + int64 (int64 (len k) + int64 (lru.Len v)))).
      rewrite (wf_nbytes c Hwf), int64_counter_add, total_size_entries. f_equal.
      unfold lru.entry_size. simpl. lia.
Qed.

(** *** [Add]: the eviction loop *)

Lemma over_budget_true c :
  lru.over_budget c = true ↔ lru.maxBytes c ≠ 0 ∧ lru.maxBytes c < lru.nbytes c.
Proof.
  unfold lru.over_budget. rewrite andb_true_iff, negb_true_iff, Z.eqb_neq, Z.ltb_lt. tauto.
Qed.

Lemma over_budget_false c :
  lru.over_budget c = false ↔ lru.maxBytes c = 0 ∨ lru.nbytes c ≤ lru.maxBytes c.
Proof.
  rewrite <- not_true_iff_false, over_budget_true. lia.
Qed.

Lemma wf_nil_nbytes c : wf c → lru.ll c = [] → lru.nbytes c = 0.
Proof.
  intros Hwf Hl. rewrite (wf_nbytes c Hwf). unfold lru.total_size, lru.entries.
  by rewrite Hl.
Qed.

Lemma over_budget_nil c :
  wf c → lru.ll c = [] → 0 ≤ lru.maxBytes c → lru.over_budget c = false.
Proof.
  intros Hwf Hl Hmb. apply over_budget_false. rewrite (wf_nil_nbytes c Hwf Hl). lia.
Qed.

Lemma evict_inv fuel c :
  wf c →
  match lru.evict fuel c with
  | Ret c' =>
      wf c' ∧ lru.over_budget c' = false ∧ lru.evicts c c'
      ∧ (∃ es, lru.entries c = lru.entries c' ++ es
               ∧ lru.world c' = foldr (notify c) (lru.world c) es)
      ∧ lru.maxBytes c' = lru.maxBytes c ∧ lru.OnEvicated c' = lru.OnEvicated c
  | Panic => False
  | Loops => True
  end.
Proof.
  revert c. induction fuel as [|fuel IH]; intros c Hwf; simpl.
  - destruct (lru.over_budget c) eqn:Hob; [done|].
    split_and!; try done; [by constructor|]. exists []. by rewrite app_nil_r.
  - destruct (lru.over_budget c) eqn:Hob.
    + destruct (lru.Back (lru.ll c)) as [e|] eqn:Hb.
      * apply Back_Some in Hb as [l Hl].
        destruct (RemoveOldest_snoc c l e Hwf Hl)
          as (kv & c1 & Hkv & Hents & Hr & Hwf1 & _ & _ & _ & Hmb & Hcb & Hw).
        rewrite Hr. simpl. specialize (IH c1 Hwf1).
        destruct (lru.evict fuel c1) as [c'| |]; [|done|done].
        destruct IH as (Hwf' & Hob' & Hev & (es & Hes & Hwes) & Hmb' & Hcb').
        split_and!; try done; try congruence.
        { by econstructor. }
        exists (es ++ [kv]). split.
        { rewrite Hents, Hes. by rewrite app_assoc. }
        rewrite foldr_app. simpl. rewrite Hwes. unfold notify at 1 3. rewrite Hcb.
        f_equal. exact Hw.
      * apply Back_None in Hb. rewrite (RemoveOldest_nil c Hb). simpl.
        specialize (IH c Hwf). destruct (lru.evict fuel c) as [c'| |]; [|done|done].
        destruct IH as (Hwf' & Hob' & Hev & Hes & Hmb' & Hcb').
        by split_and!.
    + split_and!; try done; [by constructor|]. exists []. by rewrite app_nil_r.
Qed.

Lemma evict_terminates fuel c :
  wf c → 0 ≤ lru.maxBytes c → (length (lru.ll c) < fuel)%nat →
  ∃ c', lru.evict fuel c = Ret c'.
Proof.
  revert c. induction fuel as [|fuel IH]; intros c Hwf Hmb Hlen; [lia|].
  simpl. destruct (lru.over_budget c) eqn:Hob; [|eauto].
  destruct (lru.Back (lru.ll c)) as [e|] eqn:Hb.
  - apply Back_Some in Hb as [l Hl].
    destruct (RemoveOldest_snoc c l e Hwf Hl)
      as (kv & c1 & _ & _ & Hr & Hwf1 & Hl1 & _ & _ & Hmb1 & _).
    rewrite Hr. simpl. apply IH; [done|lia|].
    rewrite Hl, length_app in Hlen. simpl in Hlen. rewrite Hl1. lia.
  - apply Back_None in Hb. rewrite over_budget_nil in Hob; done.
Qed.

(** The relation and the unrolled loop agree: with more fuel than the list
    has elements, the unrolled loop returns what the loop exits with, and it
    reports [Loops] only when the loop has no exit. *)
Lemma evicts_nil c c' : lru.evicts c c' → lru.ll c = [] → lru.over_budget c = false.
Proof.
  induction 1 as [c Hob|c c1 c' Hob Hr Hev IH]; intros Hl; [done|].
  rewrite (RemoveOldest_nil c Hl) in Hr. simplify_eq. rewrite IH in Hob; done.
Qed.

Lemma evicts_evict c c' fuel :
  lru.evicts c c' → wf c → (length (lru.ll c) < fuel)%nat → lru.evict fuel c = Ret c'.
Proof.
  intros Hev. revert fuel. induction Hev as [c Hob|c c1 c' Hob Hr Hev IH]; intros fuel Hwf Hlen.
  - destruct fuel; simpl; by rewrite Hob.
  - destruct fuel as [|fuel]; [lia|]. simpl. rewrite Hob, Hr. simpl.
    destruct (lru.Back (lru.ll c)) as [e|] eqn:Hb.
    + apply Back_Some in Hb as [l Hl].
      destruct (RemoveOldest_snoc c l e Hwf Hl)
        as (kv & c1' & _ & _ & Hr' & Hwf1 & Hl1 & _).
      assert (c1' = c1) as -> by congruence. apply IH; [done|].
      rewrite Hl, length_app in Hlen. simpl in Hlen. rewrite Hl1. lia.
    + apply Back_None in Hb. assert (lru.over_budget c = false) as Hob'.
      { eapply evicts_nil; [|done]. by econstructor. }
      congruence.
Qed.

Lemma evict_Loops c :
  wf c → lru.evict (S (length (lru.ll c))) c = Loops → ∀ c', ¬ lru.evicts c c'.
Proof.
  intros Hwf Hl c' Hev. rewrite (evicts_evict c c') in Hl; [done|done|done|lia].
Qed.

(** *** [Add] *)

Lemma Add_inv c k v :
  wf c →
  match lru.Add k v c with
  | Ret c' =>
      wf c' ∧ lru.over_budget c' = false
      ∧ (∃ es, lru.Entry k v :: filter (λ x, lru.key x ≠ k) (lru.entries c)
               = lru.entries c' ++ es
               ∧ lru.world c' = foldr (notify c) (lru.world c) es)
      ∧ lru.maxBytes c' = lru.maxBytes c ∧ lru.OnEvicated c' = lru.OnEvicated c
  | Panic => False
  | Loops => True
  end.
Proof.
  intros Hwf. unfold lru.Add.
  destruct (insert_or_update_spec c k v Hwf) as (c1 & -> & Hwf1 & Hents & Hmb & Hcb & Hw).
  rewrite bind_Ret. pose proof (evict_inv (S (length (lru.ll c1))) c1 Hwf1) as Hinv.
  destruct (lru.evict _ c1) as [c'| |]; [|done|done].
  destruct Hinv as (Hwf' & Hob & _ & (es & Hes & Hwes) & Hmb' & Hcb').
  split_and!; try done; try congruence.
  exists es. split; [congruence|]. rewrite Hwes, Hw. unfold notify. by rewrite Hcb.
Qed.

Lemma Add_Ret c k v :
  wf c → 0 ≤ lru.maxBytes c → ∃ c', lru.Add k v c = Ret c'.
Proof.
  intros Hwf Hmb. unfold lru.Add.
  destruct (insert_or_update_spec c k v Hwf) as (c1 & -> & Hwf1 & _ & Hmb1 & _).
  rewrite bind_Ret. apply evict_terminates; [done|lia|lia].
Qed.

(** *** Sequences of calls *)

Lemma step_inv o c :
  wf c →
  match lru.step o c with
  | Ret c' => wf c' ∧ lru.maxBytes c' = lru.maxBytes c
  | Panic => False
  | Loops => True
  end.
Proof.
  intros Hwf. destruct o as [k|k v|]; simpl.
  - destruct (lru.cache c !! k) as [e|] eqn:Hk.
    + destruct (Get_hit c k e Hwf Hk) as (kv & c' & _ & _ & -> & Hwf' & _ & _ & _ & _ & Hmb & _).
      by simpl.
    + by rewrite Get_miss.
  - pose proof (Add_inv c k v Hwf) as Hinv. destruct (lru.Add k v c); [|done|done].
    by destruct Hinv as (? & _ & _ & ? & _).
  - destruct (lru.Back (lru.ll c)) as [e|] eqn:Hb.
    + apply Back_Some in Hb as [l Hl].
      destruct (RemoveOldest_snoc c l e Hwf Hl) as (kv & c' & _ & _ & -> & Hwf' & _ & _ & _ & Hmb & _).
      by simpl.
    + apply Back_None in Hb. by rewrite RemoveOldest_nil.
Qed.

Lemma step_Ret o c : wf c → 0 ≤ lru.maxBytes c → ∃ c', lru.step o c = Ret c'.
Proof.
  intros Hwf Hmb. destruct o as [k|k v|]; simpl.
  - destruct (lru.cache c !! k) as [e|] eqn:Hk.
    + destruct (Get_hit c k e Hwf Hk) as (kv & c' & _ & _ & -> & _). simpl. eauto.
    + rewrite Get_miss by done. simpl. eauto.
  - by apply Add_Ret.
  - destruct (RemoveOldest_Ret c Hwf) as (c' & -> & _). eauto.
Qed.

Lemma run_inv ops c :
  wf c →
  match lru.run ops c with
  | Ret c' => wf c' ∧ lru.maxBytes c' = lru.maxBytes c
  | Panic => False
  | Loops => True
  end.
Proof.
  revert c. induction ops as [|o ops IH]; intros c Hwf; simpl; [done|].
  pose proof (step_inv o c Hwf) as Hs. destruct (lru.step o c) as [c1| |]; [|done|done].
  destruct Hs as [Hwf1 Hmb1]. simpl. specialize (IH c1 Hwf1).
  destruct (lru.run ops c1); [|done|done]. destruct IH. split; [done|congruence].
Qed.

Lemma run_Ret ops c : wf c → 0 ≤ lru.maxBytes c → ∃ c', lru.run ops c = Ret c'.
Proof.
  revert c. induction ops as [|o ops IH]; intros c Hwf Hmb; simpl; [eauto|].
  destruct (step_Ret o c Hwf Hmb) as [c1 Hs]. pose proof (step_inv o c Hwf) as Hinv.
  rewrite Hs in *. destruct Hinv as [Hwf1 Hmb1]. simpl. apply IH; [done|lia].
Qed.

End LruInvariant.

(** ** The bounded recency cache: the claims *)

Section LruClaims.
Context {V : Type} `{!lru.Value V} {W : Type}.
Implicit Types (c : lru.Cache V W) (kv : lru.entry V) (es : list (lru.entry V)).

Lemma sizes_nonneg es : nonneg es → 0 ≤ sizes es.
Proof.
  induction 1 as [|kv es Hkv _ IH]; simpl; [lia|].
  unfold lru.entry_size. pose proof (len_nonneg (lru.key kv)). lia.
Qed.

Lemma sizes_filter_le (P : lru.entry V → Prop) `{!∀ x, Decision (P x)} es :
  nonneg es → sizes (filter P es) ≤ sizes es.
Proof.
  induction 1 as [|kv es Hkv Hes IH]; [done|].
  rewrite filter_cons. pose proof (len_nonneg (lru.key kv)).
  destruct (decide (P kv)); simpl; unfold lru.entry_size; lia.
Qed.

Lemma nonneg_filter (P : lru.entry V → Prop) `{!∀ x, Decision (P x)} es :
  nonneg es → nonneg (filter P es).
Proof.
  unfold nonneg. rewrite !Forall_forall. intros Hes kv Hkv.
  apply list_elem_of_filter in Hkv as [_ Hkv]. by apply Hes.
Qed.

Lemma Add_exact mb c k v :
  0 < mb → fits mb (k, v) → exact_counter mb c → ∃ c', lru.Add k v c = Ret c' ∧ exact_counter mb c'.
Proof.
  intros Hmb [Hv Hfit] (Hwf & Hmbc & Hnn & Hnb & Hle). simpl in Hv, Hfit.
  destruct (Add_Ret c k v Hwf) as [c' Hadd]; [lia|].
  pose proof (Add_inv c k v Hwf) as Hinv. rewrite Hadd in Hinv.
  destruct Hinv as (Hwf' & Hob & (es & Hes & _) & Hmb' & _).
  exists c'. split; [done|].
  assert (nonneg (lru.Entry k v :: filter (λ x, lru.key x ≠ k) (lru.entries c))) as Hnn1.
  { constructor; [done|]. by apply nonneg_filter. }
  rewrite Hes in Hnn1. apply Forall_app in Hnn1 as [Hnn' Hnnes].
  assert (sizes (lru.entries c') + sizes es ≤ mb + len k + lru.Len v) as Hbound.
  { rewrite <- sizes_app, <- Hes. simpl. unfold lru.entry_size at 1. simpl.
    pose proof (sizes_filter_le (λ x, lru.key x ≠ k) (lru.entries c) Hnn).
    rewrite <- total_size_entries in *. lia. }
  pose proof (sizes_nonneg _ Hnn'). pose proof (sizes_nonneg _ Hnnes).
  assert (lru.nbytes c' = lru.total_size c') as Hnb'.
  { rewrite (wf_nbytes c' Hwf'). apply int64_id. rewrite total_size_entries.
    unfold min_int64, max_int64 in *. lia. }
  split_and!; try done; [congruence|].
  apply over_budget_false in Hob as [Hz|Hle']; [lia|]. rewrite <- Hnb'. lia.
Qed.

Lemma New_exact mb cb (w : W) : 0 < mb → exact_counter mb (lru.New mb cb w).
Proof.
  intros Hmb. split_and!; try done; [apply New_wf|constructor|].
  unfold lru.total_size, lru.entries. simpl. lia.
Qed.


(** The same step under the weakest condition on the sizes: the sum after
    the insertion is one the counter can hold. *)
Lemma Add_in_range mb c k v :
  0 < mb → 0 ≤ lru.Len v → sizes (touch (lru.entries c) (k, v)) ≤ max_int64 →
  exact_counter mb c → ∃ c', lru.Add k v c = Ret c' ∧ exact_counter mb c'.
Proof.
  intros Hmb Hv Hfit (Hwf & Hmbc & Hnn & Hnb & Hle). unfold touch in Hfit.
  destruct (Add_Ret c k v Hwf) as [c' Hadd]; [lia|].
  pose proof (Add_inv c k v Hwf) as Hinv. rewrite Hadd in Hinv.
  destruct Hinv as (Hwf' & Hob & (es & Hes & _) & Hmb' & _).
  exists c'. split; [done|].
  assert (nonneg (lru.Entry k v :: filter (λ x, lru.key x ≠ k) (lru.entries c))) as Hnn1.
  { constructor; [done|]. by apply nonneg_filter. }
  change ((k, v).1) with k in Hfit. change ((k, v).2) with v in Hfit.
  rewrite Hes in Hnn1, Hfit. apply Forall_app in Hnn1 as [Hnn' Hnnes].
  rewrite sizes_app in Hfit.
  pose proof (sizes_nonneg _ Hnn'). pose proof (sizes_nonneg _ Hnnes).
  assert (lru.nbytes c' = lru.total_size c') as Hnb'.
  { rewrite (wf_nbytes c' Hwf'). apply int64_id. rewrite total_size_entries.
    unfold min_int64, max_int64 in *. lia. }
  split_and!; try done; [congruence|].
  apply over_budget_false in Hob as [Hz|Hle']; [lia|]. rewrite <- Hnb'. lia.
Qed.

Lemma adds_in_range mb kvs c n :
  0 < mb → exact_counter mb c → in_range kvs c →
  ∃ c', lru.run (adds (take n kvs)) c = Ret c' ∧ exact_counter mb c'.
Proof.
  intros Hmb. revert c n. induction kvs as [|[k v] kvs IH]; intros c n Hc Hr.
  - rewrite take_nil. exists c. by split.
  - destruct n as [|n]; [exists c; by split|].
    destruct Hr as (Hv & Hsz & Hrest). simpl in Hv, Hrest.
    destruct (Add_in_range mb c k v Hmb Hv Hsz Hc) as (c1 & Hadd & Hc1).
    rewrite Hadd in Hrest.
    destruct (IH c1 n Hc1 Hrest) as (c' & Hrun & Hc'). exists c'. split; [|done].
    simpl. by rewrite Hadd.
Qed.

(** Entries that fit beside a full budget keep the sizes in range. *)
Lemma fits_in_range mb kvs c :
  0 < mb → Forall (fits mb) kvs → exact_counter mb c → in_range kvs c.
Proof.
  intros Hmb Hfits. revert c. induction Hfits as [|[k v] kvs Hkv _ IH]; intros c Hc; [done|].
  destruct (Add_exact mb c k v Hmb Hkv Hc) as (c1 & Hadd & Hc1).
  destruct Hkv as [Hv Hfit]. destruct Hc as (Hwf & _ & Hnn & _ & Hle). simpl in Hv, Hfit.
  split_and!.
  - done.
  - unfold touch. simpl. unfold lru.entry_size at 1. simpl.
    pose proof (sizes_filter_le (λ x, lru.key x ≠ k) (lru.entries c) Hnn).
    rewrite <- total_size_entries in *. lia.
  - simpl. rewrite Hadd. by apply IH.
Qed.

(** C1 (as the code has it). For every sequence of Add calls on a cache
    created with a byte budget [mb > 0], in which every value reports a
    length that is
    not negative and no Add brings the sum of the sizes of the stored
    entries, taken after its insertion and before its eviction loop, above
    [MaxInt64]: after each Add of the sequence (that is, after every prefix
    [take n kvs]) the call has returned, the used-bytes counter [nbytes]
    equals the exact sum over the stored entries of
    [len(key) + value.Len()], and that sum is at most [mb]. *)
Theorem lru_used_bytes_exact_and_bounded
    (mb : Z) (cb : option (string → V → W → W)) (w : W) (kvs : list (string * V)) (n : nat) :
  0 < mb →
  in_range kvs (lru.New mb cb w) →
  ∃ c, lru.run (adds (take n kvs)) (lru.New mb cb w) = Ret c
       ∧ lru.nbytes c = lru.total_size c
       ∧ lru.total_size c ≤ mb.
Proof.
  intros Hmb Hr.
  destruct (adds_in_range mb kvs (lru.New mb cb w) n Hmb (New_exact mb cb w Hmb) Hr)
    as (c & Hrun & Hc).
  destruct Hc as (_ & _ & _ & Hnb & Hle). by exists c.
Qed.

(** *** Adds that evict nothing, and adds that evict exactly one entry *)

Lemma evict_exit fuel c : lru.over_budget c = false → lru.evict fuel c = Ret c.
Proof. intros Hob. destruct fuel; simpl; by rewrite Hob. Qed.

Lemma wf_over_budget c :
  wf c →
  lru.over_budget c = true
  ↔ lru.maxBytes c ≠ 0 ∧ lru.maxBytes c < int64 (sizes (lru.entries c)).
Proof. intros Hwf. by rewrite over_budget_true, (wf_nbytes c Hwf), total_size_entries. Qed.

Lemma Add_keep c k v :
  wf c →
  lru.maxBytes c = 0
  ∨ int64 (sizes (lru.Entry k v :: filter (λ x, lru.key x ≠ k) (lru.entries c)))
    ≤ lru.maxBytes c →
  ∃ c', lru.Add k v c = Ret c' ∧ wf c'
    ∧ lru.entries c' = lru.Entry k v :: filter (λ x, lru.key x ≠ k) (lru.entries c)
    ∧ lru.maxBytes c' = lru.maxBytes c ∧ lru.OnEvicated c' = lru.OnEvicated c
    ∧ lru.world c' = lru.world c.
Proof.
  intros Hwf Hroom. unfold lru.Add.
  destruct (insert_or_update_spec c k v Hwf) as (c1 & -> & Hwf1 & Hents & Hmb & Hcb & Hw).
  rewrite bind_Ret. exists c1. split; [|done].
  apply evict_exit, not_true_iff_false. rewrite (wf_over_budget c1 Hwf1), Hents, Hmb. lia.
Qed.

Lemma Add_evict_one c k v keep kv :
  wf c →
  lru.Entry k v :: filter (λ x, lru.key x ≠ k) (lru.entries c) = keep ++ [kv] →
  lru.maxBytes c ≠ 0 →
  lru.maxBytes c < int64 (sizes (keep ++ [kv])) →
  int64 (sizes keep) ≤ lru.maxBytes c →
  ∃ c', lru.Add k v c = Ret c' ∧ wf c'
    ∧ lru.entries c' = keep
    ∧ lru.maxBytes c' = lru.maxBytes c ∧ lru.OnEvicated c' = lru.OnEvicated c
    ∧ lru.world c' = notify c kv (lru.world c).
Proof.
  intros Hwf Hes Hnz Hover Hroom. unfold lru.Add.
  destruct (insert_or_update_spec c k v Hwf) as (c1 & -> & Hwf1 & Hents & Hmb & Hcb & Hw).
  rewrite bind_Ret. rewrite Hes in Hents.
  assert (lru.over_budget c1 = true) as Hob1.
  { apply (wf_over_budget c1 Hwf1). rewrite Hents, Hmb. done. }
  destruct (lru.Back (lru.ll c1)) as [e|] eqn:Hb.
  2:{ apply Back_None in Hb. pose proof (length_entries c1 Hwf1) as Hlen.
      rewrite Hents, Hb, length_app in Hlen. simpl in Hlen. lia. }
  apply Back_Some in Hb as [l Hl].
  destruct (RemoveOldest_snoc c1 l e Hwf1 Hl)
    as (kv' & c2 & _ & Hents2 & Hr & Hwf2 & _ & _ & _ & Hmb2 & Hcb2 & Hw2).
  rewrite Hents in Hents2. apply app_inj_tail in Hents2 as [Hkeep ->].
  exists c2. split.
  { simpl. rewrite Hob1, Hr, bind_Ret. apply evict_exit, not_true_iff_false.
    rewrite (wf_over_budget c2 Hwf2), <- Hkeep, Hmb2, Hmb. lia. }
  split_and!; try done; try congruence.
  rewrite Hw2. unfold notify. by rewrite Hcb, Hw.
Qed.

(** C2. Eviction removes exactly the least-recently-used entry, and both Get
    and Add refresh recency.  On every cache reached from a new one:
    (1) RemoveOldest removes the last entry of the recency order, from the
        list and from the lookup map, and hands it to the callback;
    (2) for entries added in the order A, B, C under three different keys
        with no Get in between, and a budget that holds A and B, does not
        hold all three, and holds B and C, the third Add evicts A and nothing
        else: the cache then holds C and B;
    (3) a Get on a present key [k] moves its entry to the most-recently-used
        position and leaves the order of the others as it was, and so does
        the insertion or update of a subsequent Add (of any key [k']); if
        that Add evicts exactly one entry (its loop leaves one element fewer
        than it found) and the cache held an entry that neither call
        touched, then the evicted entry is such an untouched entry and [k]
        is still present. *)
Theorem lru_evicts_least_recently_used
    (cb : option (string → V → W → W)) (w : W) :
  (∀ mb ops c c',
     lru.run ops (lru.New mb cb w) = Ret c →
     lru.RemoveOldest c = Ret c' →
     (lru.entries c = [] ∧ c' = c)
     ∨ ∃ kv, lru.entries c = lru.entries c' ++ [kv]
          ∧ lru.cache c' = delete (lru.key kv) (lru.cache c)
          ∧ lru.world c' = notify c kv (lru.world c))
  ∧ (∀ mb a va b vb k vk,
       a ≠ b → a ≠ k → b ≠ k →
       0 ≤ lru.Len va → 0 ≤ lru.Len vb → 0 ≤ lru.Len vk →
       0 < mb →
       len a + lru.Len va + (len b + lru.Len vb) ≤ mb →
       mb < len a + lru.Len va + (len b + lru.Len vb) + (len k + lru.Len vk) →
       len a + lru.Len va + (len b + lru.Len vb) + (len k + lru.Len vk) ≤ max_int64 →
       len b + lru.Len vb + (len k + lru.Len vk) ≤ mb →
       ∃ c, lru.run [lru.OpAdd a va; lru.OpAdd b vb; lru.OpAdd k vk] (lru.New mb cb w) = Ret c
            ∧ lru.entries c = [lru.Entry k vk; lru.Entry b vb]
            ∧ lru.cache c !! a = None
            ∧ lru.world c = notify c (lru.Entry a va) w)
  ∧ (∀ mb ops c k v c1 k' v' ci c2,
       lru.run ops (lru.New mb cb w) = Ret c →
       lru.Get k c = Ret (Some v, c1) →
       lru.insert_or_update k' v' c1 = Ret ci →
       lru.Add k' v' c1 = Ret c2 →
       lru.Len_ c2 = lru.Len_ ci - 1 →
       (∃ kv, kv ∈ lru.entries c ∧ lru.key kv ≠ k ∧ lru.key kv ≠ k') →
       (∃ kv, lru.key kv = k ∧ lru.value kv = v
              ∧ lru.entries c1 = kv :: filter (λ x, lru.key x ≠ k) (lru.entries c))
       ∧ lru.entries ci = lru.Entry k' v' :: filter (λ x, lru.key x ≠ k') (lru.entries c1)
       ∧ (∃ kv, lru.entries ci = lru.entries c2 ++ [kv]
                ∧ kv ∈ lru.entries c ∧ lru.key kv ≠ k ∧ lru.key kv ≠ k')
       ∧ is_Some (lru.cache c2 !! k)).
Proof.
  split_and!.
  - intros mb ops c c' Hrun Hr.
    pose proof (run_inv ops (lru.New mb cb w) (New_wf mb cb w)) as Hinv.
    rewrite Hrun in Hinv. destruct Hinv as [Hwf _].
    destruct (lru.Back (lru.ll c)) as [e|] eqn:Hb.
    + apply Back_Some in Hb as [l Hl]. right.
      destruct (RemoveOldest_snoc c l e Hwf Hl)
        as (kv & c1 & _ & Hents & Hr' & _ & _ & _ & Hc & _ & _ & Hw).
      assert (c1 = c') as -> by congruence. exists kv. by split_and!.
    + apply Back_None in Hb. left. rewrite (RemoveOldest_nil c Hb) in Hr.
      split; [|congruence]. unfold lru.entries. by rewrite Hb.
  - intros mb a va b vb k vk Hab Hak Hbk Hva Hvb Hvk Hmb Hfit2 Hover Hmax Hfit.
    pose proof (len_nonneg a). pose proof (len_nonneg b). pose proof (len_nonneg k).
    assert (Hwf0 := New_wf mb cb w).
    destruct (Add_keep (lru.New mb cb w) a va Hwf0) as (ca & Ha & Hwfa & Hea & Hmba & Hcba & Hwa).
    { right. simpl. unfold lru.entry_size. simpl. rewrite int64_id; [lia|].
      unfold min_int64, max_int64 in *. lia. }
    change (lru.entries (lru.New mb cb w)) with (@nil (lru.entry V)) in Hea.
    rewrite filter_nil in Hea. simpl in Hmba, Hwa, Hcba.
    destruct (Add_keep ca b vb Hwfa) as (cB & Hb & Hwfb & Heb & Hmbb & Hcbb & Hwb).
    { right. rewrite Hea, Hmba, filter_cons_True by done. simpl. unfold lru.entry_size.
      simpl. rewrite int64_id; [lia|]. unfold min_int64, max_int64 in *. lia. }
    rewrite Hea, filter_cons_True in Heb by done. rewrite filter_nil in Heb.
    destruct (Add_evict_one cB k vk [lru.Entry k vk; lru.Entry b vb] (lru.Entry a va) Hwfb)
      as (c & Hk & Hwfc & Hec & Hmbc & Hcbc & Hwc).
    { rewrite Heb. by rewrite !filter_cons_True, filter_nil by done. }
    { lia. }
    { simpl. unfold lru.entry_size. simpl. rewrite int64_id; [lia|].
      unfold min_int64, max_int64 in *. lia. }
    { simpl. unfold lru.entry_size. simpl. rewrite int64_id; [lia|].
      unfold min_int64, max_int64 in *. lia. }
    exists c. split_and!.
    + simpl. rewrite Ha, bind_Ret, Hb, bind_Ret, Hk. done.
    + done.
    + destruct (lru.cache c !! a) eqn:Hca; [|done].
      assert (a ∈ lru.key <$> lru.entries c) as Hin by (apply wf_keys; eauto).
      rewrite Hec in Hin. simpl in Hin.
      apply elem_of_cons in Hin as [?|Hin]; [done|].
      apply elem_of_cons in Hin as [?|Hin]; [done|]. by apply elem_of_nil in Hin.
    + rewrite Hwc, Hwb, Hwa. unfold notify. by rewrite Hcbc, Hcbb.
  - intros mb ops c k v c1 k' v' ci c2 Hrun Hget Hins Hadd Hlen (u & Hu & Huk & Huk').
    pose proof (run_inv ops (lru.New mb cb w) (New_wf mb cb w)) as Hinv.
    rewrite Hrun in Hinv. destruct Hinv as [Hwf _].
    destruct (lru.cache c !! k) as [e|] eqn:Hk; [|by rewrite Get_miss in Hget].
    destruct (Get_hit c k e Hwf Hk) as (kvk & c1' & Hkvk & Hkey & Hget' & Hwf1 & Hents1 & _).
    rewrite Hget in Hget'. injection Hget' as Hv <-.
    destruct (insert_or_update_spec c1 k' v' Hwf1) as (ci' & Hins' & Hwfi & Hentsi & _).
    assert (ci' = ci) as -> by congruence.
    pose proof (Add_inv c1 k' v' Hwf1) as Hinv. rewrite Hadd in Hinv.
    destruct Hinv as (Hwf2 & _ & (es & Hes & _) & _).
    rewrite <- Hentsi in Hes.
    assert (length es = 1%nat) as Hes1.
    { unfold lru.Len_ in Hlen. rewrite <- (length_entries ci Hwfi) in Hlen.
      rewrite <- (length_entries c2 Hwf2), Hes, length_app in Hlen. lia. }
    destruct es as [|kv [|? ?]]; simpl in Hes1; try lia. clear Hes1.
    (* the untouched entry [u] sits behind the two touched ones *)
    assert (u ∈ filter (λ x, lru.key x ≠ k') (filter (λ x, lru.key x ≠ k) (lru.entries c)))
      as Hutail by (rewrite !list_elem_of_filter; done).
    assert (∃ front, lru.entries ci
              = front ++ filter (λ x, lru.key x ≠ k') (filter (λ x, lru.key x ≠ k) (lru.entries c))
              ∧ Forall (λ x, lru.key x = k ∨ lru.key x = k') front
              ∧ k ∈ lru.key <$> front) as (front & Hfront & Htouched & Hkfront).
    { rewrite Hentsi, Hents1. destruct (decide (lru.key kvk = k')) as [Hkk'|Hkk'].
      - rewrite filter_cons_False by (intros Hc; by apply Hc).
        exists [lru.Entry k' v']. split_and!; [done| |].
        + constructor; [by right|constructor].
        + simpl. rewrite <- Hkk', Hkey. set_solver.
      - rewrite filter_cons_True by done.
        exists [lru.Entry k' v'; kvk]. split_and!; [done| |].
        + constructor; [by right|]. constructor; [by left|constructor].
        + simpl. rewrite Hkey. set_solver. }
    set (tail := filter (λ x, lru.key x ≠ k') (filter (λ x, lru.key x ≠ k) (lru.entries c))) in *.
    assert (∃ tail', tail = tail' ++ [kv] ∧ lru.entries c2 = front ++ tail') as (tail' & Htail & Hc2).
    { destruct (last tail) as [z|] eqn:Hlast.
      - apply last_Some in Hlast as [tail' Htail']. exists tail'.
        rewrite Htail', app_assoc, Hes in Hfront.
        apply app_inj_tail in Hfront as [-> ->]. done.
      - apply last_None in Hlast. rewrite Hlast in Hutail. by apply elem_of_nil in Hutail. }
    assert (kv ∈ tail) as Hkvtail by (rewrite Htail; apply elem_of_app; right; left).
    unfold tail in Hkvtail. rewrite !list_elem_of_filter in Hkvtail.
    destruct Hkvtail as (Hne' & Hne & Hkvc).
    split_and!.
    + exists kvk. by split_and!.
    + done.
    + exists kv. by split_and!.
    + apply (wf_keys c2 k Hwf2). rewrite Hc2, fmap_app. apply elem_of_app. by left.
Qed.

(** C10. After every sequence of Get, Add and RemoveOldest calls on a new
    cache that returns, the set of keys of the lookup map equals the set of
    keys of the entries in the recency list, each map binding points at the
    list element that carries its key, no key occurs twice in the list, and
    Len() is the common count.  No such sequence panics, and with a budget
    that is not negative every such sequence returns. *)
Theorem lru_map_and_list_in_sync
    (mb : Z) (cb : option (string → V → W → W)) (w : W) (ops : list (lru.op V)) :
  (∀ c, lru.run ops (lru.New mb cb w) = Ret c →
     dom (lru.cache c) = list_to_set (lru.key <$> lru.entries c)
     ∧ (∀ k e, lru.cache c !! k = Some e →
          e ∈ lru.ll c ∧ ∃ kv, lru.elems c !! e = Some kv ∧ lru.key kv = k)
     ∧ NoDup (lru.key <$> lru.entries c)
     ∧ lru.Len_ c = Z.of_nat (size (dom (lru.cache c)))
     ∧ lru.Len_ c = Z.of_nat (length (lru.entries c)))
  ∧ lru.run ops (lru.New mb cb w) ≠ Panic
  ∧ (0 ≤ mb → ∃ c, lru.run ops (lru.New mb cb w) = Ret c).
Proof.
  pose proof (run_inv ops (lru.New mb cb w) (New_wf mb cb w)) as Hinv.
  split_and!.
  - intros c Hrun. rewrite Hrun in Hinv. destruct Hinv as [Hwf _].
    assert (dom (lru.cache c) = list_to_set (lru.key <$> lru.entries c)) as Hdom.
    { apply set_eq. intros k. rewrite elem_of_dom, elem_of_list_to_set.
      symmetry. by apply wf_keys. }
    assert (Hnd := wf_NoDup_keys c Hwf).
    split_and!; try done.
    + apply (wf_cache c Hwf).
    + rewrite Hdom, size_list_to_set by done.
      unfold lru.Len_. by rewrite length_fmap, length_entries.
    + unfold lru.Len_. by rewrite length_entries.
  - intros Hp. by rewrite Hp in Hinv.
  - intros Hmb. by apply run_Ret; [apply New_wf|].
Qed.

End LruClaims.

(** ** The hash ring *)

Section Ring.
Import consistenthash.
Implicit Types (m : Map) (l : list Z) (f : Z → bool).

(** *** [sort.Search] *)

Lemma shiftr_half i j : i ≤ j → i ≤ Z.shiftr (i + j) 1 ∧ (i < j → Z.shiftr (i + j) 1 < j).
Proof.
  intros Hij. rewrite Z.shiftr_div_pow2 by lia. change (2 ^ 1) with 2.
  pose proof (Z.div_mod (i + j) 2). pose proof (Z.mod_pos_bound (i + j) 2). lia.
Qed.

(** On a predicate that, once true, stays true up to [n], the loop keeps
    [f] false below [i] and true from [j] on. *)
Lemma search_loop_spec f n fuel i j :
  (∀ x y, 0 ≤ x ≤ y → y < n → f x = true → f y = true) →
  0 ≤ i ≤ j → j ≤ n → j - i ≤ Z.of_nat fuel →
  (∀ x, 0 ≤ x < i → f x = false) →
  (∀ x, j ≤ x < n → f x = true) →
  let r := search_loop fuel f i j in
  i ≤ r ≤ j ∧ (∀ x, 0 ≤ x < r → f x = false) ∧ (∀ x, r ≤ x < n → f x = true).
Proof.
  intros Hmono. revert i j. induction fuel as [|fuel IH]; intros i j Hij Hjn Hfuel Hlo Hhi.
  - simpl. assert (i = j) as -> by lia. split_and!; [lia|lia|done|done].
  - simpl. destruct (Z.ltb_spec i j) as [Hlt|Hge].
    + destruct (shiftr_half i j) as [Hh1 Hh2]; [lia|]. specialize (Hh2 Hlt).
      set (h := Z.shiftr (i + j) 1) in *.
      destruct (f h) eqn:Hfh; simpl.
      * destruct (IH i h) as (Hr & Hrlo & Hrhi); [lia|lia|lia|done| |].
        { intros x Hx. destruct (Z.lt_ge_cases x j); [|apply Hhi; lia].
          apply (Hmono h x); [lia|lia|done]. }
        split_and!; [lia|lia|done|done].
      * destruct (IH (h + 1) j) as (Hr & Hrlo & Hrhi); [lia|lia|lia| |done|].
        { intros x Hx. destruct (f x) eqn:Hfx; [|done].
          rewrite (Hmono x h) in Hfh; [done|lia|lia|done]. }
        split_and!; [lia|lia|done|done].
    + assert (i = j) as -> by lia. split_and!; [lia|lia|done|done].
Qed.

Lemma Search_spec f n :
  0 ≤ n →
  (∀ x y, 0 ≤ x ≤ y → y < n → f x = true → f y = true) →
  0 ≤ Search n f ≤ n
  ∧ (∀ x, 0 ≤ x < Search n f → f x = false)
  ∧ (∀ x, Search n f ≤ x < n → f x = true).
Proof.
  intros Hn Hmono. unfold Search.
  apply (search_loop_spec f n (Z.to_nat n) 0 n Hmono); intros; lia.
Qed.

(** The search stays within the slice whatever the predicate. *)
Lemma search_loop_range f fuel i j : i ≤ j → i ≤ search_loop fuel f i j ≤ j.
Proof.
  revert i j. induction fuel as [|fuel IH]; intros i j Hij; simpl; [lia|].
  destruct (Z.ltb_spec i j) as [Hlt|Hge]; [|lia].
  destruct (shiftr_half i j) as [Hh1 Hh2]; [lia|]. specialize (Hh2 Hlt).
  destruct (f _); simpl.
  - specialize (IH i (Z.shiftr (i + j) 1)). lia.
  - specialize (IH (Z.shiftr (i + j) 1 + 1) j). lia.
Qed.

Lemma Search_range f n : 0 ≤ n → 0 ≤ Search n f ≤ n.
Proof. intros Hn. unfold Search. by apply search_loop_range. Qed.

Lemma Get_index_range f n : 0 < n → 0 ≤ Z.rem (Search n f) n < n.
Proof.
  intros Hn. pose proof (Search_range f n). rewrite Z.rem_mod_nonneg by lia.
  apply Z.mod_pos_bound. lia.
Qed.

(** *** Sorted position lists *)

Lemma StronglySorted_lookup_le l (i j : nat) a b :
  StronglySorted Z.le l → (i ≤ j)%nat → l !! i = Some a → l !! j = Some b → a ≤ b.
Proof.
  intros Hs. revert i j. induction Hs as [|x l Hs IH Hx]; intros i j Hij Hi Hj; [done|].
  destruct i as [|i], j as [|j]; simpl in *; simplify_eq; try lia.
  - rewrite Forall_forall in Hx. apply Hx. by eapply list_elem_of_lookup_2.
  - apply (IH i j); [lia|done|done].
Qed.

Lemma key_at_lookup m (i : Z) :
  0 ≤ i < Z.of_nat (length (keys m)) → keys m !! Z.to_nat i = Some (key_at m i).
Proof. intros Hi. unfold key_at. apply list_lookup_lookup_total_lt. lia. Qed.

Lemma elem_of_key_at m q :
  q ∈ keys m → ∃ i, 0 ≤ i < Z.of_nat (length (keys m)) ∧ key_at m i = q.
Proof.
  intros Hq. apply list_elem_of_lookup in Hq as [i Hi].
  pose proof (lookup_lt_Some _ _ _ Hi). exists (Z.of_nat i). split; [lia|].
  unfold key_at. rewrite Nat2Z.id. by apply list_lookup_total_correct.
Qed.

Lemma New_ring_wf R fn : ring_wf (New R fn).
Proof.
  split; simpl; [constructor|]. intros p Hp. by apply elem_of_nil in Hp.
Qed.

Lemma add_replica_mapped key m i :
  (∀ p, p ∈ keys m → is_Some (hashMap m !! p)) →
  ∀ p, p ∈ keys (add_replica key m i) → is_Some (hashMap (add_replica key m i) !! p).
Proof.
  intros Hm p Hp. simpl in *. apply elem_of_app in Hp as [Hp|Hp].
  - destruct (decide (hash_of m (Itoa i ++ key) = p)) as [->|Hne].
    + rewrite lookup_insert_eq. eauto.
    + rewrite lookup_insert_ne by done. by apply Hm.
  - apply list_elem_of_singleton in Hp as ->. rewrite lookup_insert_eq. eauto.
Qed.

Lemma add_node_mapped key m :
  (∀ p, p ∈ keys m → is_Some (hashMap m !! p)) →
  ∀ p, p ∈ keys (add_node m key) → is_Some (hashMap (add_node m key) !! p).
Proof.
  unfold add_node. generalize (seqZ 0 (replicas m)). intros idxs. revert m.
  induction idxs as [|i idxs IH]; intros m Hm; simpl; [done|].
  apply IH. by apply add_replica_mapped.
Qed.

Lemma add_nodes_mapped nodes m :
  (∀ p, p ∈ keys m → is_Some (hashMap m !! p)) →
  ∀ p, p ∈ keys (foldl add_node m nodes) → is_Some (hashMap (foldl add_node m nodes) !! p).
Proof.
  revert m. induction nodes as [|key nodes IH]; intros m Hm; simpl; [done|].
  apply IH. by apply add_node_mapped.
Qed.

Lemma Add_ring_wf nodes m : ring_wf m → ring_wf (Add nodes m).
Proof.
  intros [_ Hm]. split; simpl.
  - unfold sort_Ints. apply (StronglySorted_merge_sort Z.le).
  - intros p Hp. unfold sort_Ints in Hp. rewrite merge_sort_Permutation in Hp.
    by apply add_nodes_mapped.
Qed.

Lemma Adds_ring_wf (adds : list (list string)) m :
  ring_wf m → ring_wf (foldl (λ m nodes, Add nodes m) m adds).
Proof.
  revert m. induction adds as [|nodes adds IH]; intros m Hm; simpl; [done|].
  apply IH. by apply Add_ring_wf.
Qed.

(** *** [Get] on a well-formed ring *)

Lemma Get_successor m key :
  ring_wf m → keys m ≠ [] →
  ∃ p node, p ∈ keys m ∧ hashMap m !! p = Some node ∧ Get key m = node
    ∧ ((hash_of m key ≤ p ∧ ∀ q, q ∈ keys m → hash_of m key ≤ q → p ≤ q)
       ∨ ((∀ q, q ∈ keys m → q < hash_of m key) ∧ ∀ q, q ∈ keys m → p ≤ q)).
Proof.
  intros [Hs Hm] Hne.
  set (n := Z.of_nat (length (keys m))).
  assert (0 < n) as Hn. { unfold n. destruct (keys m); [done|simpl; lia]. }
  set (h := hash_of m key). set (f := λ i, h <=? key_at m i).
  assert (∀ x y, 0 ≤ x ≤ y → y < n → f x = true → f y = true) as Hmono.
  { intros x y Hxy Hy. unfold f. rewrite !Z.leb_le. intros Hx.
    pose proof (StronglySorted_lookup_le (keys m) (Z.to_nat x) (Z.to_nat y)
                  (key_at m x) (key_at m y) Hs) as Hle.
    rewrite !key_at_lookup in Hle by (unfold n in *; lia).
    specialize (Hle ltac:(lia) eq_refl eq_refl). lia. }
  destruct (Search_spec f n ltac:(lia) Hmono) as (Hr & Hlo & Hhi).
  pose proof (Get_index_range f n Hn) as Hidx.
  set (idx := Search n f) in *. set (p := key_at m (Z.rem idx n)).
  assert (p ∈ keys m) as Hp.
  { eapply list_elem_of_lookup_2. apply key_at_lookup. unfold n in *. lia. }
  destruct (Hm p Hp) as [node Hnode]. exists p, node.
  assert (Get key m = node) as HGet.
  { unfold Get. rewrite decide_False by (destruct (keys m); done).
    fold n h f idx p. by rewrite Hnode. }
  split_and!; try done.
  assert (∀ q, q ∈ keys m → key_at m 0 ≤ q) as Hmin.
  { intros q Hq. apply elem_of_key_at in Hq as (i & Hi & <-).
    apply (StronglySorted_lookup_le (keys m) (Z.to_nat 0) (Z.to_nat i)); [done|lia| |];
      apply key_at_lookup; unfold n in *; lia. }
  destruct (decide (idx = n)) as [Heq|Hlt].
  - right. unfold p. rewrite Heq, Z.rem_same by lia. split; [|done].
    intros q Hq. apply elem_of_key_at in Hq as (i & Hi & <-).
    specialize (Hlo i ltac:(unfold n in *; lia)). unfold f in Hlo.
    apply Z.leb_gt in Hlo. done.
  - left. unfold p. rewrite Z.rem_small by lia.
    pose proof (Hhi idx ltac:(lia)) as Hidxh. unfold f in Hidxh. apply Z.leb_le in Hidxh.
    split; [done|]. intros q Hq Hhq. apply elem_of_key_at in Hq as (i & Hi & <-).
    destruct (Z.lt_ge_cases i idx) as [Hii|Hii].
    + specialize (Hlo i ltac:(lia)). unfold f in Hlo. apply Z.leb_gt in Hlo. lia.
    + apply (StronglySorted_lookup_le (keys m) (Z.to_nat idx) (Z.to_nat i)); [done|lia| |];
        apply key_at_lookup; unfold n in *; lia.
Qed.

(** *** A ring with one node *)

Lemma add_replica_values node m i :
  (∀ p x, hashMap m !! p = Some x → x = node) →
  ∀ p x, hashMap (add_replica node m i) !! p = Some x → x = node.
Proof.
  intros Hm p x. simpl. intros Hp. apply lookup_insert_Some in Hp as [[_ <-]|[_ Hp]]; [done|].
  by eapply Hm.
Qed.

Lemma add_node_values node m :
  (∀ p x, hashMap m !! p = Some x → x = node) →
  ∀ p x, hashMap (add_node m node) !! p = Some x → x = node.
Proof.
  unfold add_node. generalize (seqZ 0 (replicas m)). intros idxs. revert m.
  induction idxs as [|i idxs IH]; intros m Hm; simpl; [done|].
  apply IH. by apply add_replica_values.
Qed.

Lemma add_replica_replicas key m i : replicas (add_replica key m i) = replicas m.
Proof. reflexivity. Qed.

Lemma add_node_length key m :
  length (keys (add_node m key)) = (length (keys m) + Z.to_nat (replicas m))%nat.
Proof.
  unfold add_node. rewrite <- (length_seqZ 0 (replicas m)).
  generalize (seqZ 0 (replicas m)). intros idxs. revert m.
  induction idxs as [|i idxs IH]; intros m; simpl; [lia|].
  rewrite IH. simpl. rewrite length_app. simpl. lia.
Qed.

(** C7. Ring lookup is clockwise nearest-successor assignment.  On every
    ring built from [New(R, h)] by calls of Add that has at least one
    position, Get(key) returns the node identifier that the position map
    holds at a position [p] of the ring, where [p] is the smallest position
    that is at least hash(key) or, when hash(key) exceeds all positions, the
    smallest position of all.  In particular, after
    [New(R, h).Add(node)] with R ≥ 1, Get(key) returns [node] for every key
    (the claim's "node1" is one such node). *)
Theorem ring_Get_nearest_successor :
  (∀ (R : Z) (fn : option Hash) (adds : list (list string)) (key : string),
     let m := foldl (λ m nodes, Add nodes m) (New R fn) adds in
     keys m ≠ [] →
     ∃ p node, p ∈ keys m ∧ hashMap m !! p = Some node ∧ Get key m = node
       ∧ ((hash_of m key ≤ p ∧ ∀ q, q ∈ keys m → hash_of m key ≤ q → p ≤ q)
          ∨ ((∀ q, q ∈ keys m → q < hash_of m key) ∧ ∀ q, q ∈ keys m → p ≤ q)))
  ∧ (∀ (R : Z) (fn : option Hash) (node key : string),
       1 ≤ R → Get key (Add [node] (New R fn)) = node).
Proof.
  split.
  - intros R fn adds key m Hne. apply Get_successor; [|done].
    apply Adds_ring_wf, New_ring_wf.
  - intros R fn node key HR.
    set (m := Add [node] (New R fn)).
    assert (ring_wf m) as Hwf by apply Add_ring_wf, New_ring_wf.
    assert (keys m ≠ []) as Hne.
    { intros Hnil. apply (f_equal length) in Hnil. unfold m in Hnil. simpl in Hnil.
      unfold sort_Ints in Hnil. rewrite merge_sort_Permutation, add_node_length in Hnil.
      simpl in Hnil. lia. }
    destruct (Get_successor m key Hwf Hne) as (p & x & _ & Hx & <- & _).
    unfold m in Hx. simpl in Hx. eapply add_node_values; [|exact Hx].
    intros q y Hq. simpl in Hq. by rewrite lookup_empty in Hq.
Qed.

(** C8. On a ring without positions, and so on one to which no node was
    ever added, Get returns the empty string for every key. *)
Theorem ring_Get_empty (m : Map) (key : string) :
  keys m = [] → Get key m = "".
Proof. intros Hk. unfold Get. by rewrite Hk. Qed.

End Ring.

(** ** The bounded recency cache: an added entry that fits stays *)

Section LruFront.
Context {V : Type} `{!lru.Value V} {W : Type}.

Lemma evict_keeps_front fuel (c c' : lru.Cache V W) kv rest :
  wf c → lru.entries c = kv :: rest →
  lru.maxBytes c = 0 ∨ int64 (lru.entry_size kv) ≤ lru.maxBytes c →
  lru.evict fuel c = Ret c' →
  ∃ rest', lru.entries c' = kv :: rest'.
Proof.
  revert c rest. induction fuel as [|fuel IH]; intros c rest Hwf Hents Hfit; simpl.
  - destruct (lru.over_budget c); [done|]. intros [= <-]. eauto.
  - destruct (lru.over_budget c) eqn:Hob; [|intros [= <-]; eauto].
    destruct (lru.Back (lru.ll c)) as [e|] eqn:Hb.
    + apply Back_Some in Hb as [l Hl].
      destruct (RemoveOldest_snoc c l e Hwf Hl)
        as (kv' & c1 & _ & Hents1 & -> & Hwf1 & _ & _ & _ & Hmb1 & _).
      rewrite bind_Ret. rewrite Hents in Hents1.
      destruct (lru.entries c1) as [|kv1 rest1] eqn:Hc1.
      * simpl in Hents1. injection Hents1 as -> ->.
        apply (wf_over_budget c Hwf) in Hob as [Hnz Hlt]. rewrite Hents in Hlt.
        simpl in Hlt. rewrite Z.add_0_r in Hlt. lia.
      * simpl in Hents1. injection Hents1 as <- _.
        apply (IH c1 rest1 Hwf1 Hc1). by rewrite Hmb1.
    + apply Back_None in Hb. pose proof (length_entries c Hwf) as Hlen.
      rewrite Hents, Hb in Hlen. done.
Qed.

Lemma Add_keeps_added (c c' : lru.Cache V W) k v :
  wf c →
  lru.maxBytes c = 0 ∨ int64 (len k + lru.Len v) ≤ lru.maxBytes c →
  lru.Add k v c = Ret c' →
  wf c' ∧ ∃ rest, lru.entries c' = lru.Entry k v :: rest.
Proof.
  intros Hwf Hfit Hadd. pose proof (Add_inv c k v Hwf) as Hinv. rewrite Hadd in Hinv.
  split; [by destruct Hinv|]. unfold lru.Add in Hadd.
  destruct (insert_or_update_spec c k v Hwf) as (c1 & Hins & Hwf1 & Hents & Hmb & _).
  rewrite Hins, bind_Ret in Hadd.
  eapply (evict_keeps_front _ c1); [done|exact Hents| |exact Hadd].
  by rewrite Hmb.
Qed.

Lemma NoDup_keys_eq (es : list (lru.entry V)) kv1 kv2 :
  NoDup (lru.key <$> es) → kv1 ∈ es → kv2 ∈ es → lru.key kv1 = lru.key kv2 → kv1 = kv2.
Proof.
  induction es as [|x es IH]; [by intros _ ?%elem_of_nil|].
  rewrite fmap_cons, NoDup_cons. intros [Hx Hnd] H1 H2 Hk.
  apply elem_of_cons in H1 as [->|H1], H2 as [->|H2]; try done.
  - exfalso. apply Hx. rewrite Hk. by apply list_elem_of_fmap_2.
  - exfalso. apply Hx. rewrite <- Hk. by apply list_elem_of_fmap_2.
  - by apply IH.
Qed.

Lemma Get_front (c : lru.Cache V W) k v rest :
  wf c → lru.entries c = lru.Entry k v :: rest →
  ∃ c', lru.Get k c = Ret (Some v, c') ∧ wf c'
    ∧ lru.maxBytes c' = lru.maxBytes c ∧ lru.OnEvicated c' = lru.OnEvicated c.
Proof.
  intros Hwf Hents.
  assert (is_Some (lru.cache c !! k)) as [e Hk].
  { apply (wf_keys c k Hwf). rewrite Hents. simpl. set_solver. }
  destruct (Get_hit c k e Hwf Hk)
    as (kv & c' & Hkv & Hkey & Hget & Hwf' & _ & _ & _ & _ & Hmb & _ & Hev & _).
  assert (kv = lru.Entry k v) as ->.
  { apply (NoDup_keys_eq (lru.entries c)); [by apply wf_NoDup_keys| | |done].
    - apply elem_of_entries. exists e. split; [|done]. by apply (wf_cache c Hwf k e).
    - rewrite Hents. left. }
  exists c'. by split_and!.
Qed.

End LruFront.

(** ** The namespace coordinator *)

Section GroupProofs.
Import zzacache.
Context {Env : Type}.
Implicit Types (g : Group Env) (w : World Env) (c : cache) (key : string).

Lemma with_mainCache_id g : with_mainCache (mainCache g) g = g.
Proof. by destruct g. Qed.

Lemma cache_get_miss_id key c c' : cache_get key c = Ret (None, c') → c' = c.
Proof.
  unfold cache_get. destruct c as [cb [l|]]; simpl; [|congruence].
  unfold lru.Get. destruct (lru.cache l !! key) as [e|]; simpl; [|congruence].
  unfold lru.deref. simpl. destruct (lru.elems l !! e); simpl; congruence.
Qed.

Lemma Group_Get_miss key g w :
  key ≠ "" → cache_get key (mainCache g) = Ret (None, mainCache g) →
  Group_Get key g w = load key g w.
Proof.
  intros Hk Hmiss. unfold Group_Get. rewrite decide_False by done.
  rewrite Hmiss, bind_Ret. simpl. by rewrite with_mainCache_id.
Qed.

Lemma cache_add_Ret key v c :
  cache_wf c → 0 ≤ cacheBytes c → ∃ c', cache_add key v c = Ret c' ∧ cache_wf c'.
Proof.
  intros Hwf Hcb. unfold cache_add.
  set (l := match lru_ c with Some l => l | None => lru.New (cacheBytes c) None tt end).
  assert (wf l ∧ lru.maxBytes l = cacheBytes c ∧ lru.OnEvicated l = None) as (Hl & Hmb & Hev).
  { unfold l, cache_wf in *. destruct (lru_ c); [done|]. split_and!; [apply New_wf|done|done]. }
  destruct (Add_Ret l key v Hl) as [l' Hadd]; [lia|].
  pose proof (Add_inv l key v Hl) as Hinv. rewrite Hadd in Hinv.
  destruct Hinv as (Hl' & _ & _ & Hmb' & Hev').
  rewrite Hadd, bind_Ret. eexists. split; [done|].
  unfold cache_wf. simpl. split_and!; [done|congruence|congruence].
Qed.

Lemma cache_get_wf key c r c' : cache_wf c → cache_get key c = Ret (r, c') → cache_wf c'.
Proof.
  unfold cache_get, cache_wf. destruct c as [cb [l|]]; simpl; [|by intros _ [= <- <-]].
  intros (Hl & Hmb & Hev). destruct (lru.cache l !! key) as [e|] eqn:Hk.
  - destruct (Get_hit l key e Hl Hk)
      as (kv & l' & _ & _ & -> & Hl' & _ & _ & _ & _ & Hmb' & _ & Hev' & _).
    rewrite bind_Ret. intros [= <- <-]. simpl. split_and!; [done|congruence|congruence].
  - rewrite Get_miss by done. rewrite bind_Ret. intros [= <- <-]. by simpl.
Qed.

Lemma cache_add_wf key v c c' : cache_wf c → cache_add key v c = Ret c' → cache_wf c'.
Proof.
  intros Hwf. unfold cache_add.
  set (l := match lru_ c with Some l => l | None => lru.New (cacheBytes c) None tt end).
  assert (wf l ∧ lru.maxBytes l = cacheBytes c ∧ lru.OnEvicated l = None) as (Hl & Hmb & Hev).
  { unfold l, cache_wf in *. destruct (lru_ c); [done|]. split_and!; [apply New_wf|done|done]. }
  pose proof (Add_inv l key v Hl) as Hinv.
  destruct (lru.Add key v l) as [l'| |]; [|done|done].
  destruct Hinv as (Hl' & _ & _ & Hmb' & Hev').
  rewrite bind_Ret. intros [= <-]. unfold cache_wf. simpl.
  split_and!; [done|congruence|congruence].
Qed.

(** Every Get keeps the local cache well formed, so the local cache of a
    Group is well formed in every state reached from [NewGroup]. *)
Lemma Group_Get_cache_wf key g w r g' w' :
  cache_wf (mainCache g) → Group_Get key g w = Ret (r, g', w') → cache_wf (mainCache g').
Proof.
  intros Hwf. unfold Group_Get. destruct (decide (key = "")); [by intros [= _ <- _]|].
  destruct (cache_get key (mainCache g)) as [[o c1]| |] eqn:Hget; [|done|done].
  apply cache_get_wf in Hget; [|done]. rewrite bind_Ret. simpl.
  destruct o as [v|]; [by intros [= _ <- _]|].
  assert (∀ w0, getLocally key (with_mainCache c1 g) w0 = Ret (r, g', w') →
          cache_wf (mainCache g')) as Hloc.
  { intros w0. unfold getLocally.
    destruct (getter (with_mainCache c1 g) key (env w0)) as [[X|err] e1].
    - unfold populateCache. simpl.
      destruct (cache_add key _ c1) as [c2| |] eqn:Hadd; [|done|done].
      rewrite !bind_Ret. intros [= _ <- _]. simpl. by eapply cache_add_wf.
    - by intros [= _ <- _]. }
  unfold load. simpl. destruct (peers g) as [pick|]; [|apply Hloc].
  destruct (pick key (env w)) as [[peer|] e1]; [|apply Hloc].
  unfold getFromPeer. simpl. destruct (peer (name g) key e1) as [[Y|err] e2].
  - by intros [= _ <- _].
  - apply Hloc.
Qed.

Lemma NewGroup_cache_wf (nm : string) cb (f : option (Getter Env)) g :
  NewGroup nm cb f = Ret g → cache_wf (mainCache g).
Proof. destruct f; [|done]. by intros [= <-]. Qed.

Lemma int64_le_nonneg z m : 0 ≤ z → z ≤ m → int64 z ≤ m.
Proof.
  intros Hz Hm. destruct (Z.le_gt_cases z max_int64) as [Hle|Hgt].
  - rewrite int64_id; [done|]. unfold min_int64. lia.
  - pose proof (int64_range z). lia.
Qed.

Lemma getLocally_Err key g w err e1 :
  getter g key (env w) = (Err err, e1) →
  getLocally key g w = Ret (Err err, g, record (CallGetter key) e1 w).
Proof. intros Hg. unfold getLocally. by rewrite Hg. Qed.

Lemma getLocally_Ok key g w X e1 :
  getter g key (env w) = (Ok X, e1) →
  cache_wf (mainCache g) → 0 ≤ cacheBytes (mainCache g) →
  ∃ c, cache_add key {| b := X |} (mainCache g) = Ret c ∧ cache_wf c
    ∧ getLocally key g w
      = Ret (Ok {| b := X |}, with_mainCache c g, record (CallGetter key) e1 w).
Proof.
  intros Hg Hwf Hcb. unfold getLocally. rewrite Hg.
  destruct (cache_add_Ret key {| b := cloneBytes X |} (mainCache g) Hwf Hcb) as (c & Hadd & Hc).
  exists c. split_and!; [done|done|]. unfold populateCache. by rewrite Hadd.
Qed.

(** C6. For every Group (any name, any cache state) and any world, Get on
    the empty key returns the input-validation error at once: no call is
    made to the Loader, to peer resolution or to the log, and the Group, its
    local cache included, is returned as it was. *)
Theorem Group_Get_empty_key g w :
  Group_Get "" g w = Ret (Err "key不能为空", g, w).
Proof. unfold Group_Get. by rewrite decide_True. Qed.

(** C5. Remote-sourced values are not cached locally.  When the local cache
    misses on a key that is not empty, peer resolution returns a peer and the
    fetch from that peer succeeds with bytes [Y], Get returns [Y], the calls
    made are exactly the peer pick and the peer fetch (the Loader is not
    called), and the Group is returned unchanged: its local cache is the
    same state and so still misses on the key. *)
Theorem Group_Get_remote_not_cached g w key c' (pick : PeerPicker Env) peer e1 Y e2 :
  key ≠ "" →
  cache_get key (mainCache g) = Ret (None, c') →
  peers g = Some pick →
  pick key (env w) = (Some peer, e1) →
  peer (name g) key e1 = (Ok Y, e2) →
  Group_Get key g w
  = Ret (Ok {| b := Y |}, g,
         {| env := e2; calls := calls w ++ [CallPickPeer key; CallPeerGet (name g) key] |})
  ∧ cache_get key (mainCache g) = Ret (None, mainCache g).
Proof.
  intros Hk Hmiss Hp Hpick Hpeer.
  assert (c' = mainCache g) as -> by (by eapply cache_get_miss_id).
  split; [|done]. rewrite Group_Get_miss by done.
  unfold load. rewrite Hp, Hpick. unfold getFromPeer. simpl. rewrite Hpeer.
  unfold record. simpl. by rewrite <- app_assoc.
Qed.

(** C4. A remote-fetch failure is never propagated.  When the local cache
    misses on a key that is not empty, a peer is picked and the fetch from
    it fails with [err], Get logs the failure and continues as the local
    load does ([getLocally]); it then returns what the Loader returns: the
    Loader's error when the Loader fails, and otherwise the Loader's bytes,
    which it has inserted into the local cache (the insertion returns for a
    byte budget that is not negative).  Moreover, whenever any Get returns
    an error, the key was empty or the error is the one the Loader returned
    in the last call that Get made. *)
Theorem Group_Get_remote_failure_falls_back :
  (∀ g w key c' (pick : PeerPicker Env) peer e1 err e2,
     key ≠ "" →
     cache_get key (mainCache g) = Ret (None, c') →
     peers g = Some pick →
     pick key (env w) = (Some peer, e1) →
     peer (name g) key e1 = (Err err, e2) →
     let w2 := {| env := e2;
                  calls := calls w ++ [CallPickPeer key; CallPeerGet (name g) key;
                                       CallLog ("[GeeCache] Failed to get from peer " ++ err)%string] |} in
     Group_Get key g w = getLocally key g w2
     ∧ (∀ err' e3, getter g key e2 = (Err err', e3) →
          Group_Get key g w = Ret (Err err', g, record (CallGetter key) e3 w2))
     ∧ (∀ X e3, getter g key e2 = (Ok X, e3) →
          cache_wf (mainCache g) → 0 ≤ cacheBytes (mainCache g) →
          ∃ g', Group_Get key g w = Ret (Ok {| b := X |}, g', record (CallGetter key) e3 w2)
                ∧ populateCache key {| b := X |} g = Ret g'))
  ∧ (∀ g w key err g' w',
       Group_Get key g w = Ret (Err err, g', w') →
       key = ""
       ∨ ∃ e e', getter g key e = (Err err, e') ∧ last (calls w') = Some (CallGetter key)).
Proof.
  split.
  - intros g w key c' pick peer e1 err e2 Hk Hmiss Hp Hpick Hpeer w2.
    assert (c' = mainCache g) as -> by (by eapply cache_get_miss_id).
    assert (Group_Get key g w = getLocally key g w2) as Hfall.
    { rewrite Group_Get_miss by done.
      unfold load. rewrite Hp, Hpick. unfold getFromPeer. simpl. rewrite Hpeer.
      unfold record, w2. simpl. by rewrite <- !app_assoc. }
    split_and!; [done| |].
    + intros err' e3 Hg. rewrite Hfall. by apply getLocally_Err.
    + intros X e3 Hg Hwf Hcb. rewrite Hfall.
      destruct (getLocally_Ok key g w2 X e3 Hg Hwf Hcb) as (c & Hadd & _ & ->).
      eexists. split; [done|]. unfold populateCache. by rewrite Hadd.
  - intros g w key err g' w' HGet. unfold Group_Get in HGet.
    destruct (decide (key = "")) as [|Hk]; [by left|]. right.
    assert (∀ g0 w0, getLocally key g0 w0 = Ret (Err err, g', w') →
            ∃ e e', getter g0 key e = (Err err, e') ∧ last (calls w') = Some (CallGetter key))
      as Hloc.
    { intros g0 w0. unfold getLocally.
      destruct (getter g0 key (env w0)) as [[X|err0] e'] eqn:Hg.
      - destruct (populateCache _ _ g0); simpl; congruence.
      - intros [= -> <- <-]. exists (env w0), e'. split; [done|]. simpl. apply last_snoc. }
    destruct (cache_get key (mainCache g)) as [[[v|] c1]| |]; simpl in HGet; try done.
    unfold load in HGet. simpl in HGet.
    destruct (peers g) as [pick|]; [|by apply Hloc in HGet].
    destruct (pick key (env w)) as [[peer|] e1]; [|by apply Hloc in HGet].
    unfold getFromPeer in HGet. simpl in HGet.
    destruct (peer (name g) key e1) as [[Y|err1] e2]; [done|].
    by apply Hloc in HGet.
Qed.

(** C3 (as the code has it). Read-through caching loads a key once on the
    local path when the loaded entry fits the budget.  For a Group with no
    peer-resolution strategy, a well-formed local cache that misses on the
    key, a Loader that answers the key with bytes [X], and a byte budget that
    is 0 (unbounded) or at least [len(key) + len(X)]: the first Get returns
    [X] after one call of the Loader and leaves the entry in the local cache;
    a second Get of the key, in whatever world, returns [X] from the cache
    and only logs the hit; and two Gets in a row call the Loader once. *)
Theorem Group_Get_loads_once_when_entry_fits g w key X e1 :
  key ≠ "" →
  peers g = None →
  cache_wf (mainCache g) →
  cache_get key (mainCache g) = Ret (None, mainCache g) →
  getter g key (env w) = (Ok X, e1) →
  cacheBytes (mainCache g) = 0
  ∨ len key + Z.of_nat (length X) ≤ cacheBytes (mainCache g) →
  ∃ g1,
    Group_Get key g w = Ret (Ok {| b := X |}, g1, record (CallGetter key) e1 w)
    ∧ populateCache key {| b := X |} g = Ret g1
    ∧ (∀ w', ∃ g2, Group_Get key g1 w'
                   = Ret (Ok {| b := X |}, g2, record (CallLog "[ZzaCache] hit") (env w') w'))
    ∧ Get_twice key g w
      = Ret (Ok {| b := X |}, Ok {| b := X |},
             calls w ++ [CallGetter key; CallLog "[ZzaCache] hit"]).
Proof.
  intros Hk Hp Hwf Hmiss Hg Hfit.
  pose proof (len_nonneg key) as Hlen.
  assert (0 ≤ cacheBytes (mainCache g)) as Hcb by lia.
  destruct (getLocally_Ok key g w X e1 Hg Hwf Hcb) as (c & Hadd & Hc & Hloc).
  assert (Group_Get key g w
          = Ret (Ok {| b := X |}, with_mainCache c g, record (CallGetter key) e1 w)) as H1.
  { rewrite Group_Get_miss by done. unfold load. by rewrite Hp. }
  (* the entry is at the front of the recency cache after the insertion *)
  assert (∃ l rest, lru_ c = Some l ∧ wf l
            ∧ lru.entries l = lru.Entry key {| b := X |} :: rest) as (l & rest & Hl & Hwfl & Hents).
  { unfold cache_add in Hadd.
    set (l0 := match lru_ (mainCache g) with
               | Some l => l
               | None => lru.New (cacheBytes (mainCache g)) None tt
               end) in *.
    assert (wf l0 ∧ lru.maxBytes l0 = cacheBytes (mainCache g)) as [Hl0 Hmb0].
    { unfold l0, cache_wf in *. destruct (lru_ (mainCache g)); [tauto|].
      split; [apply New_wf|done]. }
    destruct (lru.Add key {| b := X |} l0) as [l'| |] eqn:Hl'; try done.
    rewrite bind_Ret in Hadd. injection Hadd as <-.
    destruct (Add_keeps_added l0 l' key {| b := X |} Hl0) as (Hwf' & rest & Hrest); [|done|].
    { rewrite Hmb0. destruct Hfit as [?|Hfit]; [by left|right].
      apply int64_le_nonneg; unfold lru.Len, ByteView_Value; simpl; lia. }
    exists l', rest. by split_and!. }
  assert (∀ w', ∃ g2, Group_Get key (with_mainCache c g) w'
                      = Ret (Ok {| b := X |}, g2, record (CallLog "[ZzaCache] hit") (env w') w'))
    as H2.
  { intros w'. unfold Group_Get. rewrite decide_False by done.
    unfold cache_get. simpl. rewrite Hl.
    destruct (Get_front l key {| b := X |} rest Hwfl Hents) as (l2 & -> & _).
    rewrite !bind_Ret. simpl. eauto. }
  exists (with_mainCache c g). split_and!.
  - done.
  - unfold populateCache. by rewrite Hadd.
  - done.
  - unfold Get_twice. rewrite H1, bind_Ret. simpl.
    destruct (H2 (record (CallGetter key) e1 w)) as [g2 ->].
    rewrite bind_Ret. simpl. by rewrite <- app_assoc.
Qed.

End GroupProofs.

(** ** The HTTP peer client *)

Section HTTP.
Import zzacache.

Lemma append_assoc (s1 s2 s3 : string) : ((s1 ++ s2) ++ s3 = s1 ++ s2 ++ s3)%string.
Proof.
  induction s1 as [|a s1 IH]; [done|].
  change (String.String a ((s1 ++ s2) ++ s3) = String.String a (s1 ++ s2 ++ s3))%string.
  by f_equal.
Qed.

Lemma Set_getter peers p peer :
  peer ∈ peers → httpGetters (Set_ peers p) !! peer = Some {| baseURL := peer ++ basePath p |}.
Proof.
  simpl. generalize (∅ : gmap string httpGetter).
  induction peers as [|x peers IH]; intros m Hin; [by apply elem_of_nil in Hin|].
  simpl. destruct (decide (peer ∈ peers)) as [Hp|Hp]; [by apply IH|].
  apply elem_of_cons in Hin as [->|?]; [|done].
  clear IH. revert m. induction peers as [|y peers IH]; intros m; simpl.
  - by rewrite lookup_insert_eq.
  - apply not_elem_of_cons in Hp as [Hne Hp].
    rewrite insert_insert_ne by done. by apply IH.
Qed.

(** C9 (what the code does). For every peer set with [Set] on a new pool
    and every namespace and key, the client asks the transport for the URL
    [peer ++ "/_zzacache" ++ QueryEscape(namespace) ++ "/" ++ QueryEscape(key)]:
    nothing separates the base path from the namespace.  For the peer
    http://localhost:8001, the namespace scores and the key Tom this is
    http://localhost:8001/_zzacachescores/Tom, where the claim has
    http://localhost:8001/_zzacache/scores/Tom. *)
Theorem httpGetter_Get_url_has_no_separator :
  (∀ {Env : Type} (http_Get : string → Env → result Response * Env)
     (self : string) (peers : list string) (peer group key : string) (e : Env),
     peer ∈ peers →
     ∃ h, httpGetters (Set_ peers (NewHTTPPool self)) !! peer = Some h
          ∧ request_url h group key
            = (peer ++ "/_zzacache" ++ QueryEscape group ++ "/" ++ QueryEscape key)%string
          ∧ httpGetter_Get http_Get h group key e
            = match http_Get (peer ++ "/_zzacache" ++ QueryEscape group ++ "/"
                              ++ QueryEscape key)%string e with
              | (Err err, e) => (Err err, e)
              | (Ok res, e) =>
                  if decide (StatusCode res ≠ StatusOK)
                  then (Err ("server returned: " ++ Status res)%string, e)
                  else match Body res with
                       | Err err => (Err ("reading response body: " ++ err)%string, e)
                       | Ok bytes => (Ok bytes, e)
                       end
              end)
  ∧ (request_url <$> httpGetters (Set_ ["http://localhost:8001"]
                                       (NewHTTPPool "http://localhost:8000"))
                      !! "http://localhost:8001")
    = Some (λ group key, "http://localhost:8001/_zzacache" ++ QueryEscape group ++ "/"
                         ++ QueryEscape key)%string
  ∧ request_url {| baseURL := "http://localhost:8001" ++ defaultBasePath |} "scores" "Tom"
    = "http://localhost:8001/_zzacachescores/Tom"
  ∧ request_url {| baseURL := "http://localhost:8001" ++ defaultBasePath |} "scores" "Tom"
    ≠ "http://localhost:8001/_zzacache/scores/Tom".
Proof.
  split_and!.
  - intros Env http_Get self peers peer group key e Hin.
    eexists. split; [by apply Set_getter|].
    assert (request_url {| baseURL := peer ++ basePath (NewHTTPPool self) |} group key
            = (peer ++ "/_zzacache" ++ QueryEscape group ++ "/" ++ QueryEscape key)%string)
      as Hurl.
    { unfold request_url. simpl. unfold defaultBasePath. by rewrite !append_assoc. }
    split; [done|]. unfold httpGetter_Get. by rewrite Hurl.
  - reflexivity.
  - reflexivity.
  - discriminate.
Qed.

End HTTP.

(** ** The bounded recency cache: further properties *)

Section LruMore.
Context {V : Type} `{!lru.Value V} {W : Type}.
Implicit Types (c : lru.Cache V W) (kv : lru.entry V) (es : list (lru.entry V)).


Lemma reached_wf mb cb (w : W) ops c :
  lru.run ops (lru.New mb cb w) = Ret c → wf c ∧ lru.maxBytes c = mb.
Proof.
  intros Hrun. pose proof (run_inv ops (lru.New mb cb w) (New_wf mb cb w)) as Hinv.
  by rewrite Hrun in Hinv.
Qed.

Lemma filter_key_Permutation kv es :
  NoDup (lru.key <$> es) → kv ∈ es →
  kv :: filter (λ x, lru.key x ≠ lru.key kv) es ≡ₚ es.
Proof.
  induction es as [|x es IH]; [by intros _ ?%elem_of_nil|].
  rewrite fmap_cons, NoDup_cons. intros [Hx Hnd] Hin.
  apply elem_of_cons in Hin as [<-|Hin].
  - rewrite filter_cons_False by (intros Hc; by apply Hc).
    rewrite filter_all; [done|]. apply Forall_forall. intros y Hy Hky. apply Hx.
    rewrite <- Hky. by apply list_elem_of_fmap_2.
  - assert (lru.key x ≠ lru.key kv) as Hne.
    { intros Hk. apply Hx. rewrite Hk. by apply list_elem_of_fmap_2. }
    rewrite filter_cons_True by done. rewrite Permutation_swap. by rewrite IH.
Qed.

Lemma wf_entries_nil_cache c : wf c → lru.entries c = [] → lru.cache c = ∅.
Proof.
  intros Hwf Hes. apply map_empty. intros k.
  destruct (lru.cache c !! k) as [e|] eqn:Hk; [|done].
  assert (k ∈ lru.key <$> lru.entries c) as Hin by (apply (wf_keys c k Hwf); eauto).
  rewrite Hes in Hin. by apply elem_of_nil in Hin.
Qed.

Lemma wf_entries_nil_ll c : wf c → lru.entries c = [] → lru.ll c = [].
Proof.
  intros Hwf Hes. pose proof (length_entries c Hwf) as Hlen. rewrite Hes in Hlen.
  by destruct (lru.ll c).
Qed.

(** X1. Insert then look up.  On every cache reached from a new one with a
    budget that is 0 (unbounded) or that holds the entry on its own, Add of
    a key and value returns, and the Get of that key that follows returns
    the value just added. *)
Theorem lru_Add_then_Get
    (mb : Z) (cb : option (string → V → W → W)) (w : W) (ops : list (lru.op V)) c k v :
  lru.run ops (lru.New mb cb w) = Ret c →
  mb = 0 ∨ (0 ≤ lru.Len v ∧ len k + lru.Len v ≤ mb) →
  ∃ c1 c2, lru.Add k v c = Ret c1 ∧ lru.Get k c1 = Ret (Some v, c2).
Proof.
  intros Hrun Hfit. destruct (reached_wf mb cb w ops c Hrun) as [Hwf Hmb].
  pose proof (len_nonneg k) as Hk.
  destruct (Add_Ret c k v Hwf) as [c1 Hadd]; [lia|].
  destruct (Add_keeps_added c c1 k v Hwf) as (Hwf1 & rest & Hents); [|done|].
  { rewrite Hmb. destruct Hfit as [?|[? ?]]; [by left|right].
    apply int64_le_nonneg; lia. }
  destruct (Get_front c1 k v rest Hwf1 Hents) as (c2 & Hget & _).
  by exists c1, c2.
Qed.

(** X2. Get only reorders.  On every cache reached from a new one, a Get
    returns; it leaves the lookup map, the byte counter, the budget, the
    count and the callback's world as they were and keeps the same entries
    (a permutation); it returns nothing exactly when the key has no binding,
    and then the whole cache is unchanged; and when it returns a value, the
    entry of that key and value is the most recently used one afterwards. *)
Theorem lru_Get_only_reorders
    (mb : Z) (cb : option (string → V → W → W)) (w : W) (ops : list (lru.op V)) c k :
  lru.run ops (lru.New mb cb w) = Ret c →
  ∃ r c', lru.Get k c = Ret (r, c')
    ∧ lru.entries c' ≡ₚ lru.entries c
    ∧ lru.cache c' = lru.cache c ∧ lru.nbytes c' = lru.nbytes c
    ∧ lru.maxBytes c' = lru.maxBytes c ∧ lru.Len_ c' = lru.Len_ c
    ∧ lru.world c' = lru.world c
    ∧ (r = None ↔ lru.cache c !! k = None)
    ∧ (r = None → c' = c)
    ∧ (∀ v, r = Some v →
         lru.Entry k v ∈ lru.entries c ∧ head (lru.entries c') = Some (lru.Entry k v)).
Proof.
  intros Hrun. destruct (reached_wf mb cb w ops c Hrun) as [Hwf Hmb].
  destruct (lru.cache c !! k) as [e|] eqn:Hk.
  - destruct (Get_hit c k e Hwf Hk)
      as (kv & c' & Hkv & Hkey & Hget & Hwf' & Hents & Hll & _ & Hc & Hmb' & Hnb & _ & Hw).
    exists (Some (lru.value kv)), c'.
    assert (kv ∈ lru.entries c) as Hin.
    { apply elem_of_entries. exists e. split; [|done]. by apply (wf_cache c Hwf k e). }
    split_and!; try done.
    + rewrite Hents, <- Hkey. apply filter_key_Permutation; [by apply wf_NoDup_keys|done].
    + unfold lru.Len_. by rewrite <- (length_entries c' Hwf'), <- (length_entries c Hwf),
        Hents, <- Hkey, filter_key_Permutation by (by apply wf_NoDup_keys || done).
    + intros v [= <-]. rewrite Hents. destruct kv as [k0 v0]. simpl in *. by subst.
  - exists None, c. rewrite Get_miss by done. by split_and!.
Qed.



(** X6. A negative budget.  On a new cache whose budget is negative, Add of
    an entry of representable size never returns: its loop empties the list
    and goes on, as the counter 0 still exceeds the budget. *)
Theorem lru_Add_negative_budget_loops
    (mb : Z) (cb : option (string → V → W → W)) (w : W) k v :
  mb < 0 → 0 ≤ lru.Len v → len k + lru.Len v ≤ max_int64 →
  lru.Add k v (lru.New mb cb w) = Loops.
Proof.
  intros Hmb Hv Hmax. pose proof (len_nonneg k) as Hk.
  assert (Hwf0 := New_wf mb cb w). unfold lru.Add.
  destruct (insert_or_update_spec (lru.New mb cb w) k v Hwf0)
    as (c1 & -> & Hwf1 & Hents & Hmb1 & _).
  rewrite bind_Ret. change (lru.entries (lru.New mb cb w)) with (@nil (lru.entry V)) in Hents.
  rewrite filter_nil in Hents. simpl in Hmb1.
  assert (length (lru.ll c1) = 1%nat) as Hlen.
  { by rewrite <- (length_entries c1 Hwf1), Hents. }
  assert (lru.over_budget c1 = true) as Hob1.
  { apply (wf_over_budget c1 Hwf1). rewrite Hents, Hmb1. simpl. unfold lru.entry_size. simpl.
    rewrite int64_id; [lia|]. unfold min_int64, max_int64 in *. lia. }
  destruct (lru.ll c1) as [|e [|? ?]] eqn:Hll; simpl in Hlen; try lia.
  destruct (RemoveOldest_snoc c1 [] e Hwf1 Hll)
    as (kv & c2 & _ & _ & Hr & Hwf2 & Hll2 & _ & _ & Hmb2 & _).
  assert (lru.over_budget c2 = true) as Hob2.
  { apply over_budget_true. rewrite (wf_nil_nbytes c2 Hwf2 Hll2). lia. }
  simpl. rewrite Hob1, Hr, bind_Ret, Hob2, (RemoveOldest_nil c2 Hll2), bind_Ret.
  by rewrite Hob2.
Qed.

Lemma drain n c :
  wf c → length (lru.entries c) = n →
  ∃ c', lru.run (replicate n lru.OpRemoveOldest) c = Ret c' ∧ wf c'
    ∧ lru.entries c' = []
    ∧ lru.world c' = foldr (notify c) (lru.world c) (lru.entries c).
Proof.
  revert c. induction n as [|n IH]; intros c Hwf Hlen.
  - exists c. destruct (lru.entries c); [by split_and!|done].
  - destruct (lru.Back (lru.ll c)) as [e|] eqn:Hb.
    2:{ apply Back_None in Hb. pose proof (length_entries c Hwf) as Hl.
        rewrite Hb, Hlen in Hl. done. }
    apply Back_Some in Hb as [l Hl].
    destruct (RemoveOldest_snoc c l e Hwf Hl)
      as (kv & c1 & _ & Hents & Hr & Hwf1 & _ & _ & _ & _ & Hcb & Hw).
    destruct (IH c1 Hwf1) as (c' & Hrun & Hwf' & Hnil & Hw').
    { rewrite Hents, length_app in Hlen. simpl in Hlen. lia. }
    exists c'. split_and!; try done.
    + simpl. by rewrite Hr, bind_Ret.
    + rewrite Hw', Hents, foldr_app. simpl. unfold notify. by rewrite Hcb, Hw.
Qed.

(** X7. Draining.  On every cache reached from a new one, as many calls of
    RemoveOldest as the cache has entries return and leave it empty: no
    entry, no binding in the lookup map, a byte counter of 0; the callback
    has seen every entry, the least recently used first; and one more
    RemoveOldest changes nothing. *)
Theorem lru_RemoveOldest_drains
    (mb : Z) (cb : option (string → V → W → W)) (w : W) (ops : list (lru.op V)) c :
  lru.run ops (lru.New mb cb w) = Ret c →
  ∃ c', lru.run (replicate (Z.to_nat (lru.Len_ c)) lru.OpRemoveOldest) c = Ret c'
    ∧ lru.entries c' = [] ∧ lru.cache c' = ∅ ∧ lru.nbytes c' = 0 ∧ lru.Len_ c' = 0
    ∧ lru.world c' = foldr (notify c) (lru.world c) (lru.entries c)
    ∧ lru.RemoveOldest c' = Ret c'.
Proof.
  intros Hrun. destruct (reached_wf mb cb w ops c Hrun) as [Hwf Hmb].
  destruct (drain (Z.to_nat (lru.Len_ c)) c Hwf) as (c' & Hdrain & Hwf' & Hnil & Hw).
  { unfold lru.Len_. rewrite Nat2Z.id. by apply length_entries. }
  pose proof (wf_entries_nil_ll c' Hwf' Hnil) as Hll.
  exists c'. split_and!; try done.
  - by apply wf_entries_nil_cache.
  - by apply wf_nil_nbytes.
  - unfold lru.Len_. by rewrite Hll.
  - by apply RemoveOldest_nil.
Qed.

End LruMore.

Section LruMore2.
Context {V : Type} `{!lru.Value V} {W : Type}.
Implicit Types (c : lru.Cache V W) (kv : lru.entry V) (es : list (lru.entry V)).

Lemma adds_unbounded (kvs : list (string * V)) c :
  wf c → lru.maxBytes c = 0 →
  ∃ c', lru.run (adds kvs) c = Ret c' ∧ wf c'
    ∧ lru.entries c' = foldl touch (lru.entries c) kvs
    ∧ lru.world c' = lru.world c.
Proof.
  revert c. induction kvs as [|[k v] kvs IH]; intros c Hwf Hmb.
  - exists c. by split_and!.
  - destruct (Add_keep c k v Hwf) as (c1 & Hadd & Hwf1 & Hents & Hmb1 & _ & Hw); [by left|].
    destruct (IH c1 Hwf1) as (c' & Hrun & Hwf' & Hents' & Hw'); [congruence|].
    exists c'. split_and!; try done.
    + simpl. by rewrite Hadd, bind_Ret.
    + by rewrite Hents', Hents.
    + congruence.
Qed.

Lemma elem_of_keys_touch (kvs : list (string * V)) es k :
  k ∈ lru.key <$> foldl touch es kvs ↔ k ∈ lru.key <$> es ∨ k ∈ kvs.*1.
Proof.
  revert es. induction kvs as [|[k0 v0] kvs IH]; intros es; simpl.
  - rewrite elem_of_nil. tauto.
  - rewrite IH. unfold touch at 1. simpl. rewrite !elem_of_cons, !list_elem_of_fmap.
    split.
    + intros [[->|(kv & -> & Hkv)]|?]; [tauto| |tauto].
      apply list_elem_of_filter in Hkv as [_ Hkv]. left. eauto.
    + intros [(kv & -> & Hkv)|[->|?]]; [|tauto|tauto].
      destruct (decide (lru.key kv = k0)) as [?|Hne]; [tauto|].
      left. right. exists kv. split; [done|]. by apply list_elem_of_filter.
Qed.

(** X3. A budget of 0 is no bound.  On a new cache with budget 0 every
    sequence of Adds returns, nothing is evicted and the callback is never
    called: the entries are those of every Add made, each key with the value
    added last, most recently added first, and a key has a binding exactly
    when it was added. *)
Theorem lru_zero_budget_never_evicts
    (cb : option (string → V → W → W)) (w : W) (kvs : list (string * V)) :
  ∃ c, lru.run (adds kvs) (lru.New 0 cb w) = Ret c
    ∧ lru.entries c = foldl touch [] kvs
    ∧ lru.world c = w
    ∧ ∀ k, is_Some (lru.cache c !! k) ↔ k ∈ kvs.*1.
Proof.
  destruct (adds_unbounded kvs (lru.New 0 cb w) (New_wf 0 cb w) eq_refl)
    as (c & Hrun & Hwf & Hents & Hw).
  exists c. split_and!; try done. intros k.
  rewrite <- (wf_keys c k Hwf), Hents, elem_of_keys_touch.
  change (lru.entries (lru.New 0 cb w)) with (@nil (lru.entry V)).
  rewrite fmap_nil, elem_of_nil. tauto.
Qed.


End LruMore2.

(** ** The hash ring: further properties *)

Section RingMore.
Import consistenthash.
Implicit Types (m : Map) (l : list Z).

Lemma hash_of_ext m1 m2 s : hash m1 = hash m2 → hash_of m1 s = hash_of m2 s.
Proof. unfold hash_of. by intros ->. Qed.

Lemma positions_ext m1 m2 node :
  hash m1 = hash m2 → replicas m1 = replicas m2 → positions m1 node = positions m2 node.
Proof.
  intros Hh Hr. unfold positions. rewrite Hr. apply list_fmap_ext.
  intros _ i _. by apply hash_of_ext.
Qed.

(** The fields of a ring after the loop over the replicas of one node. *)
Lemma add_replicas_fields node (idxs : list Z) m :
  hash (foldl (add_replica node) m idxs) = hash m
  ∧ replicas (foldl (add_replica node) m idxs) = replicas m
  ∧ keys (foldl (add_replica node) m idxs)
    = keys m ++ ((λ i, hash_of m (Itoa i ++ node)%string) <$> idxs)
  ∧ hashMap (foldl (add_replica node) m idxs)
    = foldl (λ hm p, <[p := node]> hm) (hashMap m)
        ((λ i, hash_of m (Itoa i ++ node)%string) <$> idxs).
Proof.
  revert m. induction idxs as [|i idxs IH]; intros m; simpl.
  - by rewrite app_nil_r.
  - destruct (IH (add_replica node m i)) as (Hh & Hr & Hk & Hm).
    rewrite Hh, Hr, Hk, Hm. simpl. split_and!; try done.
    by rewrite <- app_assoc.
Qed.

Lemma add_node_fields m node :
  hash (add_node m node) = hash m
  ∧ replicas (add_node m node) = replicas m
  ∧ keys (add_node m node) = keys m ++ positions m node
  ∧ hashMap (add_node m node)
    = foldl (λ hm p, <[p := node]> hm) (hashMap m) (positions m node).
Proof. apply add_replicas_fields. Qed.

Lemma bind_positions_ext m1 m2 (nodes : list string) :
  hash m1 = hash m2 → replicas m1 = replicas m2 →
  nodes ≫= positions m1 = nodes ≫= positions m2.
Proof.
  intros Hh Hr. induction nodes as [|n nodes IH]; [done|].
  rewrite !bind_cons, IH. f_equal. by apply positions_ext.
Qed.

Lemma insert_nodes_ext m1 m2 (nodes : list string) (hm : gmap Z string) :
  hash m1 = hash m2 → replicas m1 = replicas m2 →
  foldl (λ hm node, foldl (λ hm p, <[p := node]> hm) hm (positions m1 node)) hm nodes
  = foldl (λ hm node, foldl (λ hm p, <[p := node]> hm) hm (positions m2 node)) hm nodes.
Proof.
  intros Hh Hr. revert hm. induction nodes as [|n nodes IH]; intros hm; [done|].
  simpl. by rewrite IH, (positions_ext m1 m2).
Qed.

Lemma add_nodes_fields nodes m :
  hash (foldl add_node m nodes) = hash m
  ∧ replicas (foldl add_node m nodes) = replicas m
  ∧ keys (foldl add_node m nodes) = keys m ++ (nodes ≫= positions m)
  ∧ hashMap (foldl add_node m nodes)
    = foldl (λ hm node, foldl (λ hm p, <[p := node]> hm) hm (positions m node))
        (hashMap m) nodes.
Proof.
  revert m. induction nodes as [|node nodes IH]; intros m.
  - simpl. by rewrite app_nil_r.
  - destruct (add_node_fields m node) as (Hh1 & Hr1 & Hk1 & Hm1).
    destruct (IH (add_node m node)) as (Hh & Hr & Hk & Hm).
    change (foldl add_node m (node :: nodes)) with (foldl add_node (add_node m node) nodes).
    rewrite Hh, Hr, Hk, Hm, Hh1, Hr1, Hk1, Hm1.
    split_and!; try done.
    + rewrite bind_cons, <- app_assoc. do 2 f_equal. by apply bind_positions_ext.
    + simpl. by apply insert_nodes_ext.
Qed.

Lemma Add_fields nodes m :
  hash (Add nodes m) = hash m
  ∧ replicas (Add nodes m) = replicas m
  ∧ keys (Add nodes m) = sort_Ints (keys m ++ (nodes ≫= positions m))
  ∧ hashMap (Add nodes m)
    = foldl (λ hm node, foldl (λ hm p, <[p := node]> hm) hm (positions m node))
        (hashMap m) nodes.
Proof.
  destruct (add_nodes_fields nodes m) as (Hh & Hr & Hk & Hm).
  unfold Add. simpl. by rewrite Hh, Hr, Hk, Hm.
Qed.

Lemma sort_Ints_Permutation l : sort_Ints l ≡ₚ l.
Proof. apply merge_sort_Permutation. Qed.

Lemma sort_Ints_sorted l : StronglySorted Z.le (sort_Ints l).
Proof. apply (StronglySorted_merge_sort Z.le). Qed.

Lemma sorted_unique l1 l2 :
  StronglySorted Z.le l1 → StronglySorted Z.le l2 → l1 ≡ₚ l2 → l1 = l2.
Proof. apply (StronglySorted_unique Z.le). Qed.

Lemma sort_Ints_perm_eq l1 l2 : l1 ≡ₚ l2 → sort_Ints l1 = sort_Ints l2.
Proof.
  intros Hp. apply sorted_unique; [apply sort_Ints_sorted..|].
  by rewrite !sort_Ints_Permutation.
Qed.

Lemma sort_Ints_id l : StronglySorted Z.le l → sort_Ints l = l.
Proof.
  intros Hs. apply sorted_unique; [apply sort_Ints_sorted|done|apply sort_Ints_Permutation].
Qed.

Lemma hash_of_range m s : 0 ≤ hash_of m s < 2 ^ 32.
Proof. unfold hash_of, uint32_of. apply Z.mod_pos_bound. lia. Qed.

Lemma length_positions m node : length (positions m node) = Z.to_nat (replicas m).
Proof. unfold positions. by rewrite length_fmap, length_seqZ. Qed.

Lemma length_bind_positions m nodes :
  length (nodes ≫= positions m) = (length nodes * Z.to_nat (replicas m))%nat.
Proof.
  induction nodes as [|n nodes IH]; [done|].
  rewrite bind_cons, length_app, length_positions, IH. simpl. lia.
Qed.

(** X9. Add places exactly R positions per node and keeps the ring sorted.
    For every ring and every list of nodes, after Add the position list is
    sorted; it holds the old positions and, for each node of the list,
    the hashes of "0node", ..., "(R-1)node" (nothing else, with
    repetitions kept), so it has grown by R positions per node (by none
    when R is not positive); every new position is a [uint32]; and the
    hash function and the replica count are unchanged. *)
Theorem ring_Add_positions (m : Map) (nodes : list string) :
  StronglySorted Z.le (keys (Add nodes m))
  ∧ keys (Add nodes m) ≡ₚ keys m ++ (nodes ≫= positions m)
  ∧ length (keys (Add nodes m))
    = (length (keys m) + length nodes * Z.to_nat (replicas m))%nat
  ∧ (∀ p, p ∈ nodes ≫= positions m → 0 ≤ p < 2 ^ 32)
  ∧ hash (Add nodes m) = hash m
  ∧ replicas (Add nodes m) = replicas m.
Proof.
  destruct (Add_fields nodes m) as (Hh & Hr & Hk & _).
  rewrite Hk. split_and!; try done.
  - apply sort_Ints_sorted.
  - apply sort_Ints_Permutation.
  - by rewrite sort_Ints_Permutation, length_app, length_bind_positions.
  - intros p Hp. apply list_elem_of_bind in Hp as (n & Hp & _).
    unfold positions in Hp. apply list_elem_of_fmap in Hp as (i & -> & _).
    apply hash_of_range.
Qed.

(** The position map after Add: a new position holds one of the added nodes
    that hash to it, any other position holds what it held. *)
Lemma insert_positions_lookup (hm : gmap Z string) node ps q :
  (foldl (λ hm p, <[p := node]> hm) hm ps) !! q
  = if decide (q ∈ ps) then Some node else hm !! q.
Proof.
  revert hm. induction ps as [|p ps IH]; intros hm; simpl; [done|].
  rewrite IH. destruct (decide (q ∈ ps)) as [Hin|Hnin].
  - rewrite decide_True; [done|by right].
  - destruct (decide (q = p)) as [->|Hne].
    + rewrite decide_True by left. by rewrite lookup_insert_eq.
    + rewrite decide_False by (rewrite elem_of_cons; tauto). by rewrite lookup_insert_ne.
Qed.

Lemma Add_hashMap_lookup nodes m q :
  ((q ∉ nodes ≫= positions m) ∧ hashMap (Add nodes m) !! q = hashMap m !! q)
  ∨ (∃ node, node ∈ nodes ∧ q ∈ positions m node ∧ hashMap (Add nodes m) !! q = Some node).
Proof.
  destruct (Add_fields nodes m) as (_ & _ & _ & ->).
  generalize (hashMap m). induction nodes as [|n nodes IH] using rev_ind; intros hm.
  - left. split; [|done]. simpl. apply not_elem_of_nil.
  - rewrite foldl_app. simpl. rewrite insert_positions_lookup.
    destruct (decide (q ∈ positions m n)) as [Hin|Hnin].
    + right. exists n. split_and!; [|done|done]. apply elem_of_app. right. left.
    + destruct (IH hm) as [[Hq Heq]|(node & Hnode & Hq & Heq)].
      * left. split; [|done]. rewrite bind_app, elem_of_app, bind_singleton.
        tauto.
      * right. exists node. split_and!; [|done|done]. apply elem_of_app. by left.
Qed.

Lemma ring_ring_wf R fn adds : ring_wf (ring R fn adds).
Proof. apply Adds_ring_wf, New_ring_wf. Qed.

Lemma ring_snoc R fn adds nodes : ring R fn (adds ++ [nodes]) = Add nodes (ring R fn adds).
Proof. unfold ring. by rewrite foldl_app. Qed.

Lemma ring_values R fn adds p node :
  hashMap (ring R fn adds) !! p = Some node → node ∈ concat adds.
Proof.
  revert p node. induction adds as [|nodes adds IH] using rev_ind; intros p node.
  { unfold ring. simpl. by rewrite lookup_empty. }
  rewrite ring_snoc, concat_app. change (concat [nodes]) with (nodes ++ []).
  rewrite app_nil_r, elem_of_app.
  destruct (Add_hashMap_lookup nodes (ring R fn adds) p) as [[_ ->]|(n & Hn & _ & ->)].
  - intros Hp. left. by eapply IH.
  - intros [= <-]. by right.
Qed.

Lemma ring_Get_registered_node_aux
    (R : Z) (fn : option Hash) (adds : list (list string)) (key : string) :
  (keys (ring R fn adds) = [] ∧ Get key (ring R fn adds) = "")
  ∨ (keys (ring R fn adds) ≠ [] ∧ Get key (ring R fn adds) ∈ concat adds).
Proof.
  destruct (keys (ring R fn adds)) as [|p0 ps] eqn:Hk.
  - left. split; [done|]. unfold Get. by rewrite Hk.
  - right. split; [done|].
    destruct (Get_successor (ring R fn adds) key (ring_ring_wf R fn adds))
      as (p & node & _ & Hnode & <- & _); [by rewrite Hk|].
    by eapply ring_values.
Qed.

(** X10. Get answers with a registered node.  On every ring built from
    [New(R, fn)] by calls of Add: on a ring without positions Get(key) is
    the empty string, and on a ring with positions it is one of the node
    identifiers that were passed to Add.  So when no node is named by the
    empty string, Get returns the empty string exactly when the ring has no
    position.  The condition on the names is needed: with at least one
    replica, the ring whose only node is named by the empty string has
    positions, and its Get returns the empty string for every key. *)
Theorem ring_Get_registered_node
    (R : Z) (fn : option Hash) (adds : list (list string)) (key : string) :
  ((keys (ring R fn adds) = [] ∧ Get key (ring R fn adds) = "")
   ∨ (keys (ring R fn adds) ≠ [] ∧ Get key (ring R fn adds) ∈ concat adds))
  ∧ ("" ∉ concat adds → (Get key (ring R fn adds) = "" ↔ keys (ring R fn adds) = []))
  ∧ (1 ≤ R → keys (ring R fn [[""]]) ≠ [] ∧ Get key (ring R fn [[""]]) = "").
Proof.
  split_and!.
  - apply ring_Get_registered_node_aux.
  - intros Hno.
    destruct (ring_Get_registered_node_aux R fn adds key) as [[Hk Hg]|[Hk Hg]]; [done|].
    split; [|done]. intros Hnil. by rewrite Hnil in Hg.
  - intros HR.
    assert (keys (ring R fn [[""]]) ≠ []) as Hne.
    { intros Hnil. apply (f_equal length) in Hnil. unfold ring in Hnil. simpl in Hnil.
      unfold sort_Ints in Hnil. rewrite merge_sort_Permutation, add_node_length in Hnil.
      simpl in Hnil. lia. }
    split; [done|].
    destruct (ring_Get_registered_node_aux R fn [[""]] key) as [[Hk _]|[_ Hg]]; [done|].
    simpl in Hg. by apply list_elem_of_singleton in Hg.
Qed.

(** X11. Calls of Add compose.  For every ring, adding one list of nodes and
    then another gives the same ring as adding the two lists at once; and on
    a ring built from [New] by calls of Add, Add with no node changes
    nothing. *)
Theorem ring_Add_composes :
  (∀ (m : Map) (nodes1 nodes2 : list string),
     Add nodes2 (Add nodes1 m) = Add (nodes1 ++ nodes2) m)
  ∧ (∀ (R : Z) (fn : option Hash) (adds : list (list string)),
       Add [] (ring R fn adds) = ring R fn adds).
Proof.
  split.
  - intros m nodes1 nodes2.
    destruct (Add_fields nodes1 m) as (Hh1 & Hr1 & Hk1 & Hm1).
    destruct (Add_fields nodes2 (Add nodes1 m)) as (Hh2 & Hr2 & Hk2 & Hm2).
    destruct (Add_fields (nodes1 ++ nodes2) m) as (Hh & Hr & Hk & Hm).
    assert (nodes2 ≫= positions (Add nodes1 m) = nodes2 ≫= positions m) as Hbind.
    { by apply bind_positions_ext. }
    destruct (Add nodes2 (Add nodes1 m)) as [h2 r2 k2 hm2].
    destruct (Add (nodes1 ++ nodes2) m) as [h r k hm]. simpl in *.
    f_equal.
    + congruence.
    + congruence.
    + rewrite Hk2, Hk, Hk1, Hbind, bind_app, app_assoc. apply sort_Ints_perm_eq.
      by rewrite sort_Ints_Permutation.
    + rewrite Hm2, Hm, Hm1, foldl_app. by apply insert_nodes_ext.
  - intros R fn adds. destruct (ring_ring_wf R fn adds) as [Hs _].
    unfold Add. simpl. rewrite sort_Ints_id by done. by destruct (ring R fn adds).
Qed.

(** X12. Adding nodes moves a key only to an added node.  On every ring
    built from [New] by calls of Add, after one more Add the node that Get
    returns for a key is either the node it returned before or one of the
    nodes just added. *)
Theorem ring_Add_moves_keys_only_to_new_nodes
    (R : Z) (fn : option Hash) (adds : list (list string)) (nodes : list string)
    (key : string) :
  Get key (Add nodes (ring R fn adds)) = Get key (ring R fn adds)
  ∨ Get key (Add nodes (ring R fn adds)) ∈ nodes.
Proof.
  set (m := ring R fn adds). set (m' := Add nodes m).
  assert (ring_wf m) as Hwf by apply ring_ring_wf.
  assert (ring_wf m') as Hwf' by (by apply Add_ring_wf).
  destruct (Add_fields nodes m) as (Hh & _ & Hk & _). fold m' in Hh, Hk.
  assert (∀ q, q ∈ keys m → q ∈ keys m') as Hsub.
  { intros q Hq. rewrite Hk, sort_Ints_Permutation, elem_of_app. by left. }
  destruct (keys m') as [|p0 ps] eqn:Hk'.
  { left. assert (keys m = []) as Hnil.
    { destruct (keys m) as [|q ?]; [done|]. specialize (Hsub q ltac:(left)).
      by apply elem_of_nil in Hsub. }
    unfold Get. by rewrite Hk', Hnil. }
  destruct (Get_successor m' key Hwf') as (p' & node' & Hp' & Hnode' & HGet' & Hchar');
    [by rewrite Hk'|].
  rewrite <- Hk' in *. clear Hk' p0 ps.
  destruct (Add_hashMap_lookup nodes m p') as [[Hnew Heq]|(n & Hn & _ & Heq)]; fold m' in Heq.
  2:{ right. rewrite HGet'. congruence. }
  left. rewrite Heq in Hnode'.
  assert (p' ∈ keys m) as Hpm.
  { rewrite Hk, sort_Ints_Permutation, elem_of_app in Hp'. tauto. }
  destruct (Get_successor m key Hwf) as (p & node & Hp & Hnode & HGet & Hchar).
  { intros Hnil. rewrite Hnil in Hpm. by apply elem_of_nil in Hpm. }
  rewrite (hash_of_ext m' m key Hh) in Hchar'.
  assert (p = p') as ->.
  { pose proof (Hsub p Hp) as Hpm'.
    destruct Hchar' as [[Hle' Hmin']|[Hall' Hmin']], Hchar as [[Hle Hmin]|[Hall Hmin]].
    - pose proof (Hmin' p Hpm' Hle). pose proof (Hmin p' Hpm Hle'). lia.
    - pose proof (Hall p' Hpm). lia.
    - pose proof (Hall' p Hpm'). lia.
    - pose proof (Hmin' p Hpm'). pose proof (Hmin p' Hpm). lia. }
  congruence.
Qed.

End RingMore.

(** ** The namespace coordinator: further properties *)

Section GroupMore.
Import zzacache.
Context {Env : Type}.
Implicit Types (g : Group Env) (w : World Env) (c : cache) (key : string).

Lemma getLocally_inv key g w r g' w' :
  getLocally key g w = Ret (r, g', w') →
  calls w' = calls w ++ [CallGetter key]
  ∧ ((∃ err, r = Err err ∧ g' = g)
     ∨ (∃ X e e', r = Ok {| b := X |} ∧ getter g key e = (Ok X, e')
                  ∧ populateCache key {| b := X |} g = Ret g')).
Proof.
  unfold getLocally. destruct (getter g key (env w)) as [[X|err] e'] eqn:Hg.
  - destruct (populateCache key _ g) as [g1| |] eqn:Hp; simpl; [|done|done].
    intros [= <- <- <-]. split; [done|]. right. exists X, (env w), e'. by split_and!.
  - intros [= <- <- <-]. split; [done|]. left. eauto.
Qed.

Lemma populateCache_fields key v g g' :
  populateCache key v g = Ret g' →
  name g' = name g ∧ getter g' = getter g ∧ peers g' = peers g
  ∧ cacheBytes (mainCache g') = cacheBytes (mainCache g).
Proof.
  unfold populateCache, cache_add. destruct (lru.Add _ _ _); simpl; [|done|done].
  by intros [= <-].
Qed.

Lemma cache_get_cacheBytes key c r c' :
  cache_get key c = Ret (r, c') → cacheBytes c' = cacheBytes c.
Proof.
  unfold cache_get. destruct (lru_ c); [|by intros [= _ <-]].
  destruct (lru.Get key _) as [[? ?]| |]; simpl; [|done|done]. by intros [= _ <-].
Qed.

(** X13. The order of the calls a Get makes.  A Get that returns has made
    its outside calls in one of six shapes and no other: none at all (the
    key is empty); the log line of a local hit; the Loader alone (no
    strategy attached); the peer pick and then the Loader (no peer picked);
    the peer pick and the peer fetch (which succeeded: the Loader is not
    called); or the peer pick, the failed peer fetch, the log line of the
    failure and then the Loader.  So the Loader is called at most once per
    Get, always last, and never after a successful peer fetch or a hit. *)
Theorem Group_Get_call_order g w key r g' w' :
  Group_Get key g w = Ret (r, g', w') →
  ∃ cs, calls w' = calls w ++ cs
    ∧ ((cs = [] ∧ key = "" ∧ r = Err "key不能为空")
       ∨ (cs = [CallLog "[ZzaCache] hit"] ∧ ∃ v, r = Ok v)
       ∨ (cs = [CallGetter key] ∧ peers g = None)
       ∨ (cs = [CallPickPeer key; CallGetter key] ∧ peers g ≠ None)
       ∨ (cs = [CallPickPeer key; CallPeerGet (name g) key] ∧ ∃ v, r = Ok v)
       ∨ (∃ err, cs = [CallPickPeer key; CallPeerGet (name g) key;
                       CallLog ("[GeeCache] Failed to get from peer " ++ err)%string;
                       CallGetter key])).
Proof.
  unfold Group_Get. destruct (decide (key = "")) as [->|Hk].
  { intros [= <- <- <-]. exists []. rewrite app_nil_r. split; [done|]. by left. }
  destruct (cache_get key (mainCache g)) as [[[v|] c1]| |]; simpl; [| |done|done].
  { intros [= <- <- <-]. exists [CallLog "[ZzaCache] hit"]. split; [done|]. right. left. eauto. }
  unfold load. simpl. destruct (peers g) as [pick|] eqn:Hp.
  2:{ intros Hloc. apply getLocally_inv in Hloc as [Hc _].
      exists [CallGetter key]. split; [done|]. do 2 right. by left. }
  destruct (pick key (env w)) as [[peer|] e1].
  2:{ intros Hloc. apply getLocally_inv in Hloc as [Hc _]. simpl in Hc.
      exists [CallPickPeer key; CallGetter key]. split; [by rewrite Hc, <- app_assoc|].
      do 3 right. by left. }
  unfold getFromPeer. simpl. destruct (peer (name g) key e1) as [[Y|err] e2].
  - intros [= <- <- <-]. exists [CallPickPeer key; CallPeerGet (name g) key].
    split; [simpl; by rewrite <- app_assoc|]. do 4 right. left. eauto.
  - intros Hloc. apply getLocally_inv in Hloc as [Hc _]. simpl in Hc.
    eexists. split; [by rewrite Hc, <- !app_assoc|]. do 5 right. by exists err.
Qed.

Lemma Group_Get_fields g w key r g' w' :
  Group_Get key g w = Ret (r, g', w') →
  name g' = name g ∧ getter g' = getter g ∧ peers g' = peers g
  ∧ cacheBytes (mainCache g') = cacheBytes (mainCache g)
  ∧ (∀ err, r = Err err → g' = g).
Proof.
  unfold Group_Get. destruct (decide (key = "")) as [->|Hk].
  { intros [= <- <- <-]. by split_and!. }
  destruct (cache_get key (mainCache g)) as [[[v|] c1]| |] eqn:Hget; simpl; [| |done|done].
  { intros [= <- <- <-]. split_and!; try done. simpl. by eapply cache_get_cacheBytes. }
  apply cache_get_miss_id in Hget as ->. rewrite with_mainCache_id.
  assert (∀ w0, getLocally key g w0 = Ret (r, g', w') →
          name g' = name g ∧ getter g' = getter g ∧ peers g' = peers g
          ∧ cacheBytes (mainCache g') = cacheBytes (mainCache g)
          ∧ (∀ err, r = Err err → g' = g)) as Hloc.
  { intros w0 Hloc. apply getLocally_inv in Hloc as [_ [(err & -> & ->)|(X & e & e' & -> & _ & Hp)]].
    - by split_and!.
    - apply populateCache_fields in Hp as (? & ? & ? & ?). by split_and!. }
  unfold load. destruct (peers g) as [pick|] eqn:Hp; [|apply Hloc].
  destruct (pick key (env w)) as [[peer|] e1]; [|apply Hloc].
  unfold getFromPeer. simpl. destruct (peer (name g) key e1) as [[Y|err] e2]; [|apply Hloc].
  intros [= <- <- <-]. by split_and!.
Qed.

(** X14. What a Get leaves alone.  A Get that returns never changes the
    Group's name, Loader, peer strategy or byte budget, and a Get that
    returns an error returns the Group exactly as it was: a failed load
    caches nothing and reorders nothing. *)
Theorem Group_Get_frame g w key r g' w' :
  Group_Get key g w = Ret (r, g', w') →
  name g' = name g ∧ getter g' = getter g ∧ peers g' = peers g
  ∧ cacheBytes (mainCache g') = cacheBytes (mainCache g)
  ∧ (∀ err, r = Err err → g' = g).
Proof. apply Group_Get_fields. Qed.

(** X16. The peer strategy is attached at most once.  A sequence of
    RegisterPeers calls (nil arguments included) on a Group without a
    strategy never loops; it returns exactly when every call but the last
    passes nil, and then the Group has the argument of the last call as its
    strategy (none when there was no call) and is otherwise unchanged; it
    panics exactly when a call that passes a strategy is followed by another
    call.  So a call that passes nil attaches nothing and a later call still
    returns.  On a Group with a strategy every call panics. *)
Theorem RegisterPeers_once (ps : list (option (PeerPicker Env))) g :
  (peers g = None →
     match RegisterPeers_all ps g with
     | Ret g' =>
         (∀ i p, ps !! i = Some (Some p) → S i = length ps)
         ∧ peers g' = mjoin (last ps)
         ∧ name g' = name g ∧ getter g' = getter g ∧ mainCache g' = mainCache g
     | Panic => ∃ i p, ps !! i = Some (Some p) ∧ (S i < length ps)%nat
     | Loops => False
     end)
  ∧ (peers g ≠ None → ∀ p ps', RegisterPeers_all (p :: ps') g = Panic).
Proof.
  split.
  - revert g. induction ps as [|p ps IH]; intros g Hg; simpl.
    { by split_and!. }
    unfold RegisterPeers at 1. rewrite Hg, bind_Ret.
    destruct p as [q|].
    + destruct ps as [|p' ps]; simpl.
      * split_and!; try done. intros [|i] p; [done|]. by destruct i.
      * exists 0%nat, q. split; [done|]. lia.
    + set (g1 := {| name := name g; getter := getter g; mainCache := mainCache g;
                    peers := None |}).
      specialize (IH g1 eq_refl).
      destruct (RegisterPeers_all ps g1) as [g'| |]; [| |done].
      * destruct IH as (Hlast & Hp & Hn & Hgt & Hc). split_and!; try done.
        -- intros [|i] p; [done|]. simpl. intros Hi. f_equal. by apply (Hlast i p).
        -- rewrite Hp. by destruct ps.
      * destruct IH as (i & p & Hi & Hlt). exists (S i), p. split; [done|]. simpl. lia.
  - intros Hg p ps'. simpl. unfold RegisterPeers. by destruct (peers g).
Qed.

Lemma sizes_Permutation (es1 es2 : list (lru.entry ByteView)) :
  es1 ≡ₚ es2 → sizes es1 = sizes es2.
Proof. induction 1; simpl; lia. Qed.

Lemma Get_exact mb (l l' : lru.Cache ByteView unit) key r :
  exact_counter mb l → lru.Get key l = Ret (r, l') →
  exact_counter mb l' ∧ lru.OnEvicated l' = lru.OnEvicated l.
Proof.
  intros (Hwf & Hmb & Hnn & Hnb & Hle). destruct (lru.cache l !! key) as [e|] eqn:Hk.
  - destruct (Get_hit l key e Hwf Hk)
      as (kv & l1 & Hkv & Hkey & -> & Hwf1 & Hents & _ & _ & _ & Hmb1 & Hnb1 & Hev & _).
    intros [= _ <-]. split; [|done].
    assert (kv ∈ lru.entries l) as Hin.
    { apply elem_of_entries. exists e. split; [|done]. by apply (wf_cache l Hwf key e). }
    assert (lru.entries l1 ≡ₚ lru.entries l) as Hperm.
    { rewrite Hents, <- Hkey. apply filter_key_Permutation; [by apply wf_NoDup_keys|done]. }
    assert (lru.total_size l1 = lru.total_size l) as Htot.
    { rewrite !total_size_entries. by apply sizes_Permutation. }
    split_and!; [done|congruence| |congruence|congruence].
    unfold nonneg. by rewrite Hperm.
  - rewrite Get_miss by done. intros [= _ <-]. by split_and!.
Qed.

Lemma cache_get_exact key c r c' :
  cache_exact c → cache_get key c = Ret (r, c') → cache_exact c'.
Proof.
  unfold cache_get, cache_exact. destruct c as [cb [l|]]; simpl; [|by intros _ [= _ <-]].
  intros [Hex Hev]. destruct (lru.Get key l) as [[o l']| |] eqn:Hget; simpl; [|done|done].
  intros [= _ <-]. simpl. destruct (Get_exact cb l l' key o Hex Hget). split; congruence.
Qed.

Lemma cache_add_exact key X c c' :
  0 < cacheBytes c → cache_exact c →
  cacheBytes c + len key + Z.of_nat (length X) ≤ max_int64 →
  cache_add key {| b := X |} c = Ret c' →
  cache_exact c' ∧ cacheBytes c' = cacheBytes c.
Proof.
  intros Hcb Hex Hfit. unfold cache_add.
  set (l := match lru_ c with Some l => l | None => lru.New (cacheBytes c) None tt end).
  assert (exact_counter (cacheBytes c) l ∧ lru.OnEvicated l = None) as [Hl Hev].
  { unfold l, cache_exact in *. destruct (lru_ c); [done|]. split; [by apply New_exact|done]. }
  destruct (Add_exact (cacheBytes c) l key {| b := X |} Hcb) as (l' & Hadd & Hl'); [|done|].
  { split; simpl; unfold lru.Len, ByteView_Value; simpl; lia. }
  assert (wf l) as Hwf by (by destruct Hl).
  pose proof (Add_inv l key {| b := X |} Hwf) as Hinv. rewrite Hadd in Hinv.
  destruct Hinv as (_ & _ & _ & _ & Hev').
  rewrite Hadd, bind_Ret. intros [= <-]. unfold cache_exact. simpl.
  split; [split; [done|congruence]|done].
Qed.

Lemma Group_Get_exact g w key r g' w' :
  0 < cacheBytes (mainCache g) → cache_exact (mainCache g) →
  (∀ e X e', getter g key e = (Ok X, e') →
     cacheBytes (mainCache g) + len key + Z.of_nat (length X) ≤ max_int64) →
  Group_Get key g w = Ret (r, g', w') →
  cache_exact (mainCache g').
Proof.
  intros Hcb Hex Hfit. unfold Group_Get. destruct (decide (key = "")); [by intros [= _ <- _]|].
  destruct (cache_get key (mainCache g)) as [[o c1]| |] eqn:Hget; [|done|done].
  pose proof (cache_get_exact _ _ _ _ Hex Hget) as Hex1.
  pose proof (cache_get_cacheBytes _ _ _ _ Hget) as Hcb1.
  rewrite bind_Ret. simpl. destruct o as [v|]; [by intros [= _ <- _]|].
  assert (∀ w0, getLocally key (with_mainCache c1 g) w0 = Ret (r, g', w') →
          cache_exact (mainCache g')) as Hloc.
  { intros w0 Hloc.
    apply getLocally_inv in Hloc as [_ [(err & -> & ->)|(X & e & e' & -> & Hg & Hp)]]; [done|].
    unfold populateCache in Hp. simpl in Hp, Hg.
    destruct (cache_add key _ c1) as [c2| |] eqn:Hadd; [|done|done].
    rewrite bind_Ret in Hp. injection Hp as <-. simpl.
    eapply (cache_add_exact key X c1); [lia|done| |done].
    rewrite Hcb1. by eapply Hfit. }
  unfold load. simpl. destruct (peers g) as [pick|]; [|apply Hloc].
  destruct (pick key (env w)) as [[peer|] e1]; [|apply Hloc].
  unfold getFromPeer. simpl. destruct (peer (name g) key e1) as [[Y|err] e2]; [|apply Hloc].
  by intros [= _ <- _].
Qed.

Lemma Get_all_exact keys g w g' w' :
  0 < cacheBytes (mainCache g) → cache_exact (mainCache g) →
  (∀ key e X e', key ∈ keys → getter g key e = (Ok X, e') →
     cacheBytes (mainCache g) + len key + Z.of_nat (length X) ≤ max_int64) →
  Get_all keys g w = Ret (g', w') →
  cache_exact (mainCache g') ∧ cacheBytes (mainCache g') = cacheBytes (mainCache g).
Proof.
  revert g w. induction keys as [|key keys IH]; intros g w Hcb Hex Hfit; simpl.
  - by intros [= <- <-].
  - destruct (Group_Get key g w) as [[[r g1] w1]| |] eqn:Hget; [|done|done].
    rewrite bind_Ret. simpl. intros Hall.
    destruct (Group_Get_fields g w key r g1 w1 Hget) as (_ & Hg & _ & Hcb1 & _).
    destruct (IH g1 w1) as [Hex' Hcb']; [lia| | |done|].
    + eapply Group_Get_exact; [done|done| |done].
      intros e X e'. apply Hfit. left.
    + intros k e X e' Hk. rewrite Hg, Hcb1. apply Hfit. by right.
    + split; [done|congruence].
Qed.

(** X15. A Group's local cache stays within its byte budget.  Starting from
    a Group whose cache is not built yet (as [NewGroup] makes it), with a
    budget above 0, after any sequence of Gets that returns (whatever the
    peers and the Loader answer, as long as the budget plus the size of one
    loaded entry stays within the [int64] range) the byte counter of the
    local cache is the exact sum of the sizes of the cached entries and is
    at most the budget. *)
Theorem Group_cache_stays_within_budget (keys : list string) g w g' w' :
  0 < cacheBytes (mainCache g) →
  lru_ (mainCache g) = None →
  (∀ key e X e', key ∈ keys → getter g key e = (Ok X, e') →
     cacheBytes (mainCache g) + len key + Z.of_nat (length X) ≤ max_int64) →
  Get_all keys g w = Ret (g', w') →
  used_bytes (mainCache g') = sizes (cached (mainCache g'))
  ∧ used_bytes (mainCache g') ≤ cacheBytes (mainCache g).
Proof.
  intros Hcb Hnew Hfit Hall.
  destruct (Get_all_exact keys g w g' w' Hcb) as [Hex Hcb']; [|done|done|].
  { unfold cache_exact. by rewrite Hnew. }
  unfold used_bytes, cached, cache_exact in *. destruct (lru_ (mainCache g')) as [l|].
  - destruct Hex as [(_ & _ & _ & Hnb & Hle) _]. rewrite Hcb' in Hle.
    rewrite <- total_size_entries. lia.
  - simpl. lia.
Qed.

End GroupMore.

(** ** Strings, the registry and the HTTP server side *)

Section ServerMore.
Import zzacache zzaserver.

Lemma append_cons c (s t : string) :
  (String.String c s ++ t)%string = String.String c (s ++ t)%string.
Proof. reflexivity. Qed.

Lemma append_nil_l (t : string) : (EmptyString ++ t)%string = t.
Proof. reflexivity. Qed.

Lemma chars_app (s t : string) :
  String.list_ascii_of_string (s ++ t)
  = String.list_ascii_of_string s ++ String.list_ascii_of_string t.
Proof.
  induction s as [|c s IH]; [done|]. rewrite append_cons. simpl. by rewrite IH.
Qed.

Lemma prefix_app (p rest : string) : String.prefix p (p ++ rest) = true.
Proof.
  induction p as [|c p IH]; [by destruct rest|]. rewrite append_cons. simpl.
  by destruct (ascii_dec c c).
Qed.

Lemma skip_app (p rest : string) : skip (String.length p) (p ++ rest) = rest.
Proof. induction p as [|c p IH]; [done|]. by rewrite append_cons. Qed.

Lemma prefix_skip (p s : string) :
  String.prefix p s = true → s = (p ++ skip (String.length p) s)%string.
Proof.
  revert s. induction p as [|c p IH]; intros s; [done|].
  destruct s as [|d s]; simpl; [done|]. destruct (ascii_dec c d) as [->|]; [|done].
  intros Hp. rewrite append_cons. f_equal. by apply IH.
Qed.

Lemma cut_slash_None (s : string) : no_slash s → cut_slash s = None.
Proof.
  unfold no_slash. induction s as [|c s IH]; [done|]. simpl.
  intros [Hc Hs]%Forall_cons. rewrite IH by done.
  destruct (Ascii.eqb_spec c "/"); done.
Qed.

Lemma cut_slash_app (a rest : string) :
  no_slash a → cut_slash (a ++ String.String "/" rest) = Some (a, rest).
Proof.
  unfold no_slash. induction a as [|c a IH]; [done|]. rewrite append_cons. simpl.
  intros [Hc Ha]%Forall_cons. rewrite IH by done.
  destruct (Ascii.eqb_spec c "/"); done.
Qed.

Lemma cut_slash_Some (s a rest : string) :
  cut_slash s = Some (a, rest) → no_slash a ∧ s = (a ++ String.String "/" rest)%string.
Proof.
  revert a. induction s as [|c s IH]; intros a; [done|]. simpl.
  destruct (Ascii.eqb_spec c "/") as [->|Hne].
  - intros [= <- <-]. split; [constructor|done].
  - destruct (cut_slash s) as [[a' rest']|]; [|done]. intros [= <- <-].
    destruct (IH a' eq_refl) as [Ha ->]. split; [by constructor|done].
Qed.

(** *** [url.QueryEscape] *)

Lemma escape_byte_safe c :
  forallb url_safe (String.list_ascii_of_string (escape_byte c)) = true.
Proof. destruct c as [[] [] [] [] [] [] [] []]; reflexivity. Qed.

Lemma escape_byte_length c : (1 ≤ String.length (escape_byte c))%nat.
Proof. destruct c as [[] [] [] [] [] [] [] []]; vm_compute; lia. Qed.

Lemma url_safe_no_slash c : url_safe c = true → c ≠ "/"%char.
Proof. by intros Hc ->. Qed.

Lemma length_app_string (s t : string) :
  String.length (s ++ t) = (String.length s + String.length t)%nat.
Proof. induction s as [|c s IH]; [done|]. rewrite append_cons. simpl. by rewrite IH. Qed.

Lemma QueryEscape_plain s : plain s → QueryEscape s = s.
Proof.
  unfold plain. induction s as [|c s IH]; [done|]. simpl.
  intros [Hc Hs]%Forall_cons. unfold escape_byte. rewrite Hc, append_cons, append_nil_l.
  by rewrite IH.
Qed.

Lemma QueryEscape_safe s :
  Forall (λ c, url_safe c = true) (String.list_ascii_of_string (QueryEscape s)).
Proof.
  induction s as [|c s IH]; [constructor|]. simpl. rewrite chars_app.
  apply Forall_app. split; [|done].
  apply Forall_forall. intros x Hx.
  pose proof (escape_byte_safe c) as Hc. rewrite forallb_forall in Hc.
  apply Hc. by apply list_elem_of_In.
Qed.

Lemma QueryEscape_no_slash s : no_slash (QueryEscape s).
Proof.
  unfold no_slash. eapply Forall_impl; [apply QueryEscape_safe|].
  intros c. apply url_safe_no_slash.
Qed.

(** X20. What QueryEscape produces.  The escaped form of any string
    consists of letters, digits and the bytes [-_.~+%] only, so it contains
    no slash (and no other separator of a URL); it is at least as long as
    the string; and a string of letters, digits and [-_.~] is its own
    escaped form. *)
Theorem QueryEscape_alphabet (s : string) :
  Forall (λ c, url_safe c = true) (String.list_ascii_of_string (QueryEscape s))
  ∧ no_slash (QueryEscape s)
  ∧ (String.length s ≤ String.length (QueryEscape s))%nat
  ∧ (plain s → QueryEscape s = s).
Proof.
  split_and!.
  - apply QueryEscape_safe.
  - apply QueryEscape_no_slash.
  - induction s as [|c s IH]; [done|]. simpl. rewrite length_app_string.
    pose proof (escape_byte_length c). lia.
  - apply QueryEscape_plain.
Qed.

(** *** The registry *)

Section WithEnv.
Context {Env : Type}.
Implicit Types (r reg : Registry Env) (w : World Env).

Lemma NewGroup_registered_ok (nm : string) cb (f : Getter Env) r :
  reg_ok r →
  ∃ l r', NewGroup_registered nm cb (Some f) r = Ret (l, r') ∧ reg_ok r'.
Proof.
  intros Hok. eexists _, _. split; [reflexivity|].
  intros n l. simpl. intros Hn. apply lookup_insert_Some in Hn as [[_ <-]|[_ Hn]].
  - rewrite lookup_insert_eq. eauto.
  - destruct (Hok n l Hn) as [g Hg].
    rewrite lookup_insert_ne; [eauto|]. intros <-.
    apply (is_fresh (dom (store r))). apply elem_of_dom. eauto.
Qed.

(** X17. The registry.  NewGroup with a Loader returns a pointer to a new
    Group (empty cache of the given budget, no peer strategy) that no
    earlier pointer equals, and stores it under its name: GetGroup of that
    name then returns it, whatever the name held before; GetGroup of every
    other name and the Group behind every earlier pointer are unchanged.
    NewGroup with a nil Loader panics, and GetGroup on the empty registry
    returns nil. *)
Theorem registry_NewGroup_then_GetGroup (nm : string) (cb : Z) (f : Getter Env) r :
  (∃ l r', NewGroup_registered nm cb (Some f) r = Ret (l, r')
     ∧ GetGroup nm r' = Some l
     ∧ store r' !! l
       = Some {| name := nm; getter := f;
                 mainCache := {| cacheBytes := cb; lru_ := None |}; peers := None |}
     ∧ (l ∉ dom (store r))
     ∧ (∀ n, n ≠ nm → GetGroup n r' = GetGroup n r)
     ∧ (∀ l', l' ≠ l → store r' !! l' = store r !! l'))
  ∧ NewGroup_registered nm cb None r = Panic
  ∧ GetGroup nm (no_groups : Registry Env) = None.
Proof.
  split_and!; [|done|done].
  eexists _, _. split; [reflexivity|]. unfold GetGroup. simpl. split_and!.
  - by rewrite lookup_insert_eq.
  - by rewrite lookup_insert_eq.
  - apply is_fresh.
  - intros n Hn. by rewrite lookup_insert_ne.
  - intros l' Hl'. by rewrite lookup_insert_ne.
Qed.

(** *** The handler *)

Lemma ServerHTTP_parts (p : HTTPPool) (r : Request) reg w gname key :
  String.prefix (basePath p) (URL_Path r) = true →
  cut_slash (skip (String.length (basePath p)) (URL_Path r)) = Some (gname, key) →
  ServerHTTP p r reg w
  = match GetGroup gname reg with
    | None =>
        Ret (http_Error ("no such group: " ++ gname) StatusNotFound, reg,
             Log p (Method r ++ " " ++ URL_Path r)%string w)
    | Some l =>
        x ← Get_at l key reg (Log p (Method r ++ " " ++ URL_Path r)%string w);
        Ret (reply_of x.1.1, x.1.2, x.2)
    end.
Proof.
  intros Hp Hcut. unfold ServerHTTP, SplitN2. rewrite Hp, Hcut. simpl.
  destruct (GetGroup gname reg) as [l|]; [|done].
  destruct (Get_at l key reg _) as [[[res reg'] w']| |]; [|done|done].
  rewrite !bind_Ret. simpl. by destruct res.
Qed.

(** X18. The replies of the handler.  For a request whose path does not
    start with the base path the handler panics.  Otherwise it logs the
    request and, reading what follows the base path: with no slash in it
    the reply is 400 "bad request"; with a first slash, the part before is
    the group name and the rest (slashes included) the key; an unknown
    group name is answered 404 "no such group: <name>", the registry
    untouched; for a known group the handler calls Get on the Group behind
    the pointer, stores the Group that Get leaves, and replies 500 with the
    error message when Get fails and 200 with the value's bytes as
    application/octet-stream when it succeeds. *)
Theorem ServerHTTP_replies (p : HTTPPool) (method : string) reg w :
  (∀ path, String.prefix (basePath p) path = false →
     ServerHTTP p {| Method := method; URL_Path := path |} reg w = Panic)
  ∧ (∀ rest, no_slash rest →
       ServerHTTP p {| Method := method; URL_Path := basePath p ++ rest |} reg w
       = Ret (http_Error "bad request" 400, reg,
              Log p (method ++ " " ++ (basePath p ++ rest))%string w))
  ∧ (∀ gname key, no_slash gname →
       let path := (basePath p ++ gname ++ String.String "/" key)%string in
       let w1 := Log p (method ++ " " ++ path)%string w in
       (GetGroup gname reg = None →
          ServerHTTP p {| Method := method; URL_Path := path |} reg w
          = Ret (http_Error ("no such group: " ++ gname) 404, reg, w1))
       ∧ (∀ l g res g' w',
            GetGroup gname reg = Some l → store reg !! l = Some g →
            Group_Get key g w1 = Ret (res, g', w') →
            ServerHTTP p {| Method := method; URL_Path := path |} reg w
            = Ret (reply_of res,
                   {| groups := groups reg; store := <[l := g']> (store reg) |}, w')
            ∧ (status (reply_of res) = 200 ↔ ∃ v, res = Ok v)
            ∧ (status (reply_of res) = 500 ↔ ∃ err, res = Err err))).
Proof.
  split_and!.
  - intros path Hp. unfold ServerHTTP. simpl. by rewrite Hp.
  - intros rest Hrest. unfold ServerHTTP, SplitN2. simpl.
    rewrite prefix_app, skip_app, cut_slash_None by done. done.
  - intros gname key Hg path w1.
    assert (ServerHTTP p {| Method := method; URL_Path := path |} reg w
            = match GetGroup gname reg with
              | None => Ret (http_Error ("no such group: " ++ gname) StatusNotFound, reg, w1)
              | Some l => x ← Get_at l key reg w1; Ret (reply_of x.1.1, x.1.2, x.2)
              end) as Hparts.
    { apply ServerHTTP_parts; simpl; unfold path.
      - apply prefix_app.
      - rewrite skip_app. by apply cut_slash_app. }
    split.
    + intros Hnone. by rewrite Hparts, Hnone.
    + intros l g res g' w' Hl Hgl HGet. rewrite Hparts, Hl. unfold Get_at.
      rewrite Hgl, HGet, !bind_Ret. simpl. split_and!; [done| |].
      * destruct res; simpl; split; try done; [eauto|by intros [? ?]].
      * destruct res; simpl; split; try done; [by intros [? ?]|eauto].
Qed.


(** X23. The documented path form is not served.  For a server with the
    default base path "/_zzacache", a path of the documented form
    "/_zzacache/<group>/<key>" is read as the group with the empty name and
    the key "<group>/<key>": unless a Group with the empty name is
    registered, the reply is 404 "no such group: ". *)
Theorem ServerHTTP_documented_path_not_found (self_s method rest : string) reg w :
  GetGroup "" reg = None →
  ServerHTTP (NewHTTPPool self_s)
    {| Method := method; URL_Path := "/_zzacache/" ++ rest |} reg w
  = Ret (http_Error "no such group: " 404, reg,
         Log (NewHTTPPool self_s) (method ++ " " ++ ("/_zzacache/" ++ rest))%string w).
Proof.
  intros Hnone. rewrite (ServerHTTP_parts _ _ _ _ "" rest).
  - by rewrite Hnone.
  - cbn [URL_Path basePath NewHTTPPool defaultBasePath].
    apply (prefix_app "/_zzacache" (String.String "/" rest)).
  - cbn [URL_Path basePath NewHTTPPool defaultBasePath].
    change ("/_zzacache/" ++ rest)%string
      with ("/_zzacache" ++ String.String "/" rest)%string.
    by rewrite (skip_app "/_zzacache").
Qed.

End WithEnv.

(** *** The peer pool *)

Lemma getters_lookup (m : gmap string httpGetter) (bp : string) (peers : list string) peer :
  (foldl (λ m x, <[x := {| baseURL := x ++ bp |}]> m) m peers) !! peer
  = if decide (peer ∈ peers) then Some {| baseURL := peer ++ bp |} else m !! peer.
Proof.
  revert m. induction peers as [|x peers IH]; intros m; simpl; [done|].
  rewrite IH. destruct (decide (peer ∈ peers)) as [Hin|Hnin].
  - rewrite decide_True; [done|by right].
  - destruct (decide (peer = x)) as [->|Hne].
    + rewrite decide_True by left. by rewrite lookup_insert_eq.
    + rewrite decide_False by (rewrite elem_of_cons; tauto). by rewrite lookup_insert_ne.
Qed.

(** X21. Picking a peer.  On a pool without a ring (Set was never called)
    PickPeer panics.  After Set with a list of peers on a new pool, PickPeer
    returns either no peer, or the getter of a peer with these properties:
    it is the node that the ring (50 replicas per peer, CRC-32) assigns to
    the key, it is one of the peers of the list, it is neither the empty
    string nor this node itself, and its base URL is the peer's address
    followed by "/_zzacache".  With no peer in the list, or this node as the
    only peer, PickPeer returns no peer for every key. *)
Theorem PickPeer_after_Set (self_ : string) (peers : list string) (key : string) :
  PickPeer key (NewHTTPPool self_) = Panic
  ∧ (PickPeer key (Set_ peers (NewHTTPPool self_)) = Ret None
     ∨ ∃ peer,
         peer = consistenthash.Get key (ring defaultReplicas None [peers])
         ∧ peer ∈ peers ∧ peer ≠ "" ∧ peer ≠ self_
         ∧ PickPeer key (Set_ peers (NewHTTPPool self_))
           = Ret (Some (Some {| baseURL := peer ++ "/_zzacache" |})))
  ∧ (peers = [] ∨ peers = [self_] →
       PickPeer key (Set_ peers (NewHTTPPool self_)) = Ret None).
Proof.
  split; [done|].
  assert (∀ ps : list string,
            PickPeer key (Set_ ps (NewHTTPPool self_))
            = let peer := consistenthash.Get key (ring defaultReplicas None [ps]) in
              if decide (peer ≠ "" ∧ peer ≠ self_)
              then Ret (Some (httpGetters (Set_ ps (NewHTTPPool self_)) !! peer))
              else Ret None) as Hpick by done.
  split.
  - rewrite !Hpick. cbv zeta.
    set (peer := consistenthash.Get key (ring defaultReplicas None [peers])).
    destruct (decide (peer ≠ "" ∧ peer ≠ self_)) as [[Hne Hself]|]; [|by left].
    right. exists peer.
    assert (peer ∈ peers) as Hin.
    { destruct (ring_Get_registered_node_aux defaultReplicas None [peers] key)
        as [[_ Hempty]|[_ Hreg]]; [done|].
      fold peer in Hreg. change (concat [peers]) with (peers ++ []) in Hreg.
      by rewrite app_nil_r in Hreg. }
    split_and!; try done. by rewrite (Set_getter peers _ peer Hin).
  - intros [->| ->]; rewrite Hpick; cbv zeta.
    + rewrite decide_False; [done|]. intros [Hne _]. by apply Hne.
    + set (peer := consistenthash.Get key (ring defaultReplicas None [[self_]])).
      destruct (decide (peer ≠ "" ∧ peer ≠ self_)) as [[Hne Hself]|]; [|done].
      destruct (ring_Get_registered_node_aux defaultReplicas None [[self_]] key)
        as [[_ Hempty]|[_ Hreg]]; [done|].
      fold peer in Hreg. change (concat [[self_]]) with [self_] in Hreg.
      apply list_elem_of_singleton in Hreg. done.
Qed.

(** *** Byte views *)

Lemma length_string_of_list_byte (x : list byte) :
  String.length (String.string_of_list_byte x) = length x.
Proof.
  unfold String.string_of_list_byte. induction x as [|y x IH]; [done|]. simpl. by rewrite IH.
Qed.

(** X22. The three views of a ByteView agree.  For every ByteView, Len is
    the number of bytes of ByteSlice and the length of String; the bytes of
    String are those of ByteSlice; and a ByteView made of the bytes of a
    string gives that string back. *)
Theorem ByteView_views_agree (v : ByteView) (s : string) :
  lru.Len v = Z.of_nat (length (ByteView_ByteSlice v))
  ∧ lru.Len v = len (ByteView_String v)
  ∧ String.list_byte_of_string (ByteView_String v) = ByteView_ByteSlice v
  ∧ ByteView_String {| b := String.list_byte_of_string s |} = s
  ∧ lru.Len {| b := String.list_byte_of_string s |} = len s.
Proof.
  unfold lru.Len, ByteView_Value, ByteView_ByteSlice, ByteView_String, cloneBytes, len.
  simpl. split_and!.
  - done.
  - by rewrite length_string_of_list_byte.
  - apply String.list_byte_of_string_of_list_byte.
  - apply String.string_of_list_byte_of_string.
  - by rewrite <- (length_string_of_list_byte (String.list_byte_of_string s)),
      String.string_of_list_byte_of_string.
Qed.

End ServerMore.

Section PoolMore.
Import zzacache zzaserver.

(** X8. Set rebuilds the pool from scratch.  After Set with a list of peers
    the pool's address and base path are as before; its ring is the ring of
    50 replicas per peer with the CRC-32 hash built from these peers alone;
    it has a getter for exactly the peers of the list, each with the peer's
    address followed by the base path as base URL; and nothing of an earlier
    Set is left: Set after Set gives the pool of the second Set alone. *)
Theorem Set_rebuilds_the_pool (p : HTTPPool) (peers1 peers2 : list string) :
  self (Set_ peers2 p) = self p
  ∧ basePath (Set_ peers2 p) = basePath p
  ∧ pool_peers (Set_ peers2 p) = Some (ring defaultReplicas None [peers2])
  ∧ (∀ peer, httpGetters (Set_ peers2 p) !! peer
             = if decide (peer ∈ peers2) then Some {| baseURL := peer ++ basePath p |}
               else None)
  ∧ Set_ peers2 (Set_ peers1 p) = Set_ peers2 p.
Proof.
  split_and!; try done.
  intros peer. simpl. by rewrite getters_lookup, lookup_empty.
Qed.

End PoolMore.

(** ** Concrete runs *)

Section Runs.
Import examples zzacache.

Lemma lru_used_bytes_exact_and_bounded_witness :
  (∃ c, lru.run (adds (take 3 [("A", "11"); ("B", "22"); ("C", "3333")]))
               (lru.New 10 None tt) = Ret c
        ∧ lru.nbytes c = lru.total_size c
        ∧ lru.total_size c ≤ 10)
  ∧ (∃ c, lru.run (adds (take 1 [("k", "v")])) (lru.New max_int64 None tt) = Ret c
          ∧ lru.nbytes c = lru.total_size c
          ∧ lru.total_size c ≤ max_int64).
Proof.
  split; apply (lru_used_bytes_exact_and_bounded (V := string) (W := unit)).
  - lia.
  - vm_compute. repeat split; congruence.
  - reflexivity.
  - vm_compute. repeat split; congruence.
Defined.

(** The counter wraps around.  With a budget of 10, one Add of the key "k"
    and a value that reports [MaxInt64] as its length returns, keeps the
    entry, and leaves the counter at [MinInt64]: the counter is not the sum
    of the sizes, and the sum exceeds the budget. *)
Lemma lru_used_bytes_wrap_around :
  ∃ c, lru.run (adds [("k", max_int64 : sized)]) (lru.New 10 None tt) = Ret c
       ∧ lru.Len_ c = 1
       ∧ lru.nbytes c = min_int64
       ∧ lru.total_size c = 2 ^ 63
       ∧ lru.nbytes c ≠ lru.total_size c
       ∧ 10 < lru.total_size c.
Proof.
  eexists. split; [vm_compute; reflexivity|]. vm_compute. repeat split; congruence.
Defined.

Lemma lru_evicts_least_recently_used_witness :
  (∃ c, lru.run [lru.OpAdd "A" "11"; lru.OpAdd "B" "22"; lru.OpAdd "C" "33"]
                (lru.New 6 None tt) = Ret c
        ∧ lru.entries c = [lru.Entry "C" "33"; lru.Entry "B" "22"]
        ∧ lru.cache c !! "A" = None
        ∧ lru.world c = notify c (lru.Entry "A" "11") tt)
  ∧ ((∃ kv, lru.key kv = "A" ∧ lru.value kv = "11"
            ∧ lru.entries ab_got = kv :: filter (λ x, lru.key x ≠ "A") (lru.entries ab))
     ∧ lru.entries ab_got_ins
       = lru.Entry "C" "33" :: filter (λ x, lru.key x ≠ "C") (lru.entries ab_got)
     ∧ (∃ kv, lru.entries ab_got_ins = lru.entries ab_got_added ++ [kv]
              ∧ kv ∈ lru.entries ab ∧ lru.key kv ≠ "A" ∧ lru.key kv ≠ "C")
     ∧ is_Some (lru.cache ab_got_added !! "A")).
Proof.
  destruct (lru_evicts_least_recently_used (V := string) None tt) as (_ & Habc & Hget).
  split.
  - apply Habc; first [done | vm_compute; congruence].
  - apply (Hget 6 [lru.OpAdd "A" "11"; lru.OpAdd "B" "22"] ab "A" "11" ab_got "C" "33").
    + vm_compute. reflexivity.
    + vm_compute. reflexivity.
    + vm_compute. reflexivity.
    + vm_compute. reflexivity.
    + vm_compute. reflexivity.
    + exists (lru.Entry "B" "22"). split_and!; [|done|done].
      vm_compute. left.
Defined.

Lemma lru_map_and_list_in_sync_witness :
  ∃ c, lru.run [lru.OpAdd "A" "11"; lru.OpGet "A"; lru.OpRemoveOldest; lru.OpAdd "B" "22"]
               (lru.New 6 (None : option (string → string → unit → unit)) tt) = Ret c
       ∧ dom (lru.cache c) = list_to_set (lru.key <$> lru.entries c)
       ∧ lru.Len_ c = Z.of_nat (size (dom (lru.cache c)))
       ∧ lru.Len_ c = Z.of_nat (length (lru.entries c)).
Proof.
  destruct (lru_map_and_list_in_sync (V := string) 6 None tt
              [lru.OpAdd "A" "11"; lru.OpGet "A"; lru.OpRemoveOldest; lru.OpAdd "B" "22"])
    as (Hsync & _ & Hret).
  destruct Hret as [c Hc]; [lia|]. exists c. split; [done|].
  destruct (Hsync c Hc) as (Hdom & _ & _ & Hsize & Hlen). by split_and!.
Defined.

Lemma ring_Get_nearest_successor_witness :
  (∃ p node,
     p ∈ consistenthash.keys (consistenthash.Add ["aaaaaaa"; "b"]
                                (consistenthash.New 2 (Some by_length)))
     ∧ consistenthash.hashMap (consistenthash.Add ["aaaaaaa"; "b"]
                                 (consistenthash.New 2 (Some by_length))) !! p = Some node
     ∧ consistenthash.Get "123"
         (consistenthash.Add ["aaaaaaa"; "b"] (consistenthash.New 2 (Some by_length))) = node
     ∧ ((3 ≤ p ∧ ∀ q, q ∈ [2; 2; 8; 8] → 3 ≤ q → p ≤ q)
        ∨ ((∀ q, q ∈ [2; 2; 8; 8] → q < 3) ∧ ∀ q, q ∈ [2; 2; 8; 8] → p ≤ q)))
  ∧ consistenthash.Get "Tom" (consistenthash.Add ["node1"] (consistenthash.New 50 None))
    = "node1".
Proof.
  destruct ring_Get_nearest_successor as [Hsucc Hone]. split.
  - apply (Hsucc 2 (Some by_length) [["aaaaaaa"; "b"]] "123"). vm_compute. congruence.
  - apply Hone. lia.
Defined.

Lemma ring_Get_empty_witness :
  consistenthash.Get "Tom" (consistenthash.New 50 None) = "".
Proof. apply ring_Get_empty. reflexivity. Defined.

(** With a negative budget the loop of Add has no exit: it empties the list
    and goes on, since [0 > maxBytes] still holds. *)
Lemma Add_loops_on_negative_budget :
  lru.Add "k" "v" (lru.New (-1) (None : option (string → string → unit → unit)) tt) = Loops
  ∧ Group_Get "k" (scores (-1) None) quiet = Loops.
Proof. split; vm_compute; reflexivity. Qed.

(** With a budget of one byte the loaded entry (three bytes) is evicted by
    the Add that inserted it, and the second Get calls the Loader again. *)
Lemma Group_Get_loads_twice_when_entry_does_not_fit :
  NewGroup "scores" 1 (Some loader) = Ret (scores 1 None)
  ∧ Get_twice "k" (scores 1 None) quiet
    = Ret (Ok {| b := xy |}, Ok {| b := xy |}, [CallGetter "k"; CallGetter "k"]).
Proof. split; vm_compute; reflexivity. Qed.

Lemma Group_Get_loads_once_when_entry_fits_witness :
  ∃ g1,
    Group_Get "k" (scores 3 None) quiet
    = Ret (Ok {| b := xy |}, g1, record (CallGetter "k") tt quiet)
    ∧ populateCache "k" {| b := xy |} (scores 3 None) = Ret g1
    ∧ (∀ w', ∃ g2, Group_Get "k" g1 w'
                   = Ret (Ok {| b := xy |}, g2, record (CallLog "[ZzaCache] hit") (env w') w'))
    ∧ Get_twice "k" (scores 3 None) quiet
      = Ret (Ok {| b := xy |}, Ok {| b := xy |},
             calls quiet ++ [CallGetter "k"; CallLog "[ZzaCache] hit"]).
Proof.
  apply (Group_Get_loads_once_when_entry_fits (scores 3 None) quiet "k" xy tt).
  - done.
  - reflexivity.
  - exact I.
  - reflexivity.
  - reflexivity.
  - right. vm_compute. congruence.
Defined.

Lemma Group_Get_remote_failure_falls_back_witness :
  Group_Get "k" (scores 64 (Some (pick peer_down))) quiet
  = getLocally "k" (scores 64 (Some (pick peer_down)))
      {| env := tt;
         calls := [CallPickPeer "k"; CallPeerGet "scores" "k";
                   CallLog "[GeeCache] Failed to get from peer connection refused"] |}
  ∧ ∃ g', Group_Get "k" (scores 64 (Some (pick peer_down))) quiet
          = Ret (Ok {| b := xy |}, g',
                 {| env := tt;
                    calls := [CallPickPeer "k"; CallPeerGet "scores" "k";
                              CallLog "[GeeCache] Failed to get from peer connection refused";
                              CallGetter "k"] |})
          ∧ populateCache "k" {| b := xy |} (scores 64 (Some (pick peer_down))) = Ret g'.
Proof.
  destruct (@Group_Get_remote_failure_falls_back unit) as [Hfall _].
  destruct (Hfall (scores 64 (Some (pick peer_down))) quiet "k"
              (mainCache (scores 64 (Some (pick peer_down)))) (pick peer_down) peer_down tt
              "connection refused" tt) as (H1 & _ & H3); try reflexivity; [done|].
  split; [exact H1|].
  apply (H3 xy tt); [reflexivity|exact I|vm_compute; congruence].
Defined.

Lemma Group_Get_remote_not_cached_witness :
  Group_Get "k" (scores 64 (Some (pick peer_up))) quiet
  = Ret (Ok {| b := xy |}, scores 64 (Some (pick peer_up)),
         {| env := tt; calls := [CallPickPeer "k"; CallPeerGet "scores" "k"] |})
  ∧ cache_get "k" (mainCache (scores 64 (Some (pick peer_up))))
    = Ret (None, mainCache (scores 64 (Some (pick peer_up)))).
Proof.
  apply (Group_Get_remote_not_cached (scores 64 (Some (pick peer_up))) quiet "k"
           (mainCache (scores 64 (Some (pick peer_up)))) (pick peer_up) peer_up tt xy tt);
    first [done | reflexivity].
Defined.

End Runs.

(** ** Concrete runs of the further properties *)

Section MoreRuns.
Import examples examples2 zzacache zzaserver.

Lemma lru_Add_then_Get_witness :
  ∃ c1 c2, lru.Add "C" "33" ab = Ret c1 ∧ lru.Get "C" c1 = Ret (Some "33", c2).
Proof.
  apply (lru_Add_then_Get (V := string) 6 None tt [lru.OpAdd "A" "11"; lru.OpAdd "B" "22"]).
  - vm_compute. reflexivity.
  - right. vm_compute. split; congruence.
Defined.

Lemma lru_Get_only_reorders_witness :
  ∃ r c', lru.Get "A" ab = Ret (r, c')
    ∧ lru.entries c' ≡ₚ lru.entries ab
    ∧ lru.cache c' = lru.cache ab ∧ lru.nbytes c' = lru.nbytes ab
    ∧ lru.maxBytes c' = lru.maxBytes ab ∧ lru.Len_ c' = lru.Len_ ab
    ∧ lru.world c' = lru.world ab
    ∧ (r = None ↔ lru.cache ab !! "A" = None)
    ∧ (r = None → c' = ab)
    ∧ (∀ v, r = Some v →
         lru.Entry "A" v ∈ lru.entries ab ∧ head (lru.entries c') = Some (lru.Entry "A" v)).
Proof.
  apply (lru_Get_only_reorders (V := string) 6 None tt
           [lru.OpAdd "A" "11"; lru.OpAdd "B" "22"]).
  vm_compute. reflexivity.
Defined.



Lemma lru_Add_negative_budget_loops_witness :
  lru.Add "k" "v" (lru.New (-1) (None : option (string → string → unit → unit)) tt) = Loops.
Proof.
  apply (lru_Add_negative_budget_loops (V := string)).
  - lia.
  - vm_compute. congruence.
  - vm_compute. congruence.
Defined.

Lemma lru_RemoveOldest_drains_witness :
  ∃ c', lru.run (replicate (Z.to_nat (lru.Len_ ab)) lru.OpRemoveOldest) ab = Ret c'
    ∧ lru.entries c' = [] ∧ lru.cache c' = ∅ ∧ lru.nbytes c' = 0 ∧ lru.Len_ c' = 0
    ∧ lru.world c' = foldr (notify ab) (lru.world ab) (lru.entries ab)
    ∧ lru.RemoveOldest c' = Ret c'.
Proof.
  apply (lru_RemoveOldest_drains (V := string) 6 None tt
           [lru.OpAdd "A" "11"; lru.OpAdd "B" "22"]).
  vm_compute. reflexivity.
Defined.

Lemma Group_Get_call_order_witness :
  ∃ cs, calls fell_back.2 = calls quiet ++ cs
    ∧ ((cs = [] ∧ "k" = "" ∧ fell_back.1.1 = Err "key不能为空")
       ∨ (cs = [CallLog "[ZzaCache] hit"] ∧ ∃ v, fell_back.1.1 = Ok v)
       ∨ (cs = [CallGetter "k"] ∧ peers down = None)
       ∨ (cs = [CallPickPeer "k"; CallGetter "k"] ∧ peers down ≠ None)
       ∨ (cs = [CallPickPeer "k"; CallPeerGet (name down) "k"] ∧ ∃ v, fell_back.1.1 = Ok v)
       ∨ (∃ err, cs = [CallPickPeer "k"; CallPeerGet (name down) "k";
                       CallLog ("[GeeCache] Failed to get from peer " ++ err)%string;
                       CallGetter "k"])).
Proof.
  apply (Group_Get_call_order down quiet "k" fell_back.1.1 fell_back.1.2 fell_back.2).
  vm_compute. reflexivity.
Defined.

Lemma Group_Get_frame_witness :
  name fell_back.1.2 = name down ∧ getter fell_back.1.2 = getter down
  ∧ peers fell_back.1.2 = peers down
  ∧ cacheBytes (mainCache fell_back.1.2) = cacheBytes (mainCache down)
  ∧ (∀ err, fell_back.1.1 = Err err → fell_back.1.2 = down).
Proof.
  apply (Group_Get_frame down quiet "k" fell_back.1.1 fell_back.1.2 fell_back.2).
  vm_compute. reflexivity.
Defined.

Lemma Group_cache_stays_within_budget_witness :
  used_bytes (mainCache small_after.1) = sizes (cached (mainCache small_after.1))
  ∧ used_bytes (mainCache small_after.1) ≤ cacheBytes (mainCache small).
Proof.
  apply (Group_cache_stays_within_budget ["k"; "kk"; "k"] small quiet
           small_after.1 small_after.2).
  - vm_compute. reflexivity.
  - reflexivity.
  - intros key e X e' Hkey [= <- _].
    assert (len key ≤ 2) as Hlen.
    { apply elem_of_cons in Hkey as [->|Hkey]; [vm_compute; congruence|].
      apply elem_of_cons in Hkey as [->|Hkey]; [vm_compute; congruence|].
      apply list_elem_of_singleton in Hkey as ->. vm_compute. congruence. }
    change (cacheBytes (mainCache small)) with 4. change (Z.of_nat (length xy)) with 2.
    unfold max_int64. lia.
  - vm_compute. reflexivity.
Defined.

Lemma RegisterPeers_once_witness :
  match RegisterPeers_all [None; Some (pick peer_up)] (scores 64 None) with
  | Ret g' =>
      (∀ i p, [None; Some (pick peer_up)] !! i = Some (Some p) → S i = 2%nat)
      ∧ peers g' = Some (pick peer_up)
      ∧ name g' = name (scores 64 None) ∧ getter g' = getter (scores 64 None)
      ∧ mainCache g' = mainCache (scores 64 None)
  | Panic => ∃ i p, [None; Some (pick peer_up)] !! i = Some (Some p) ∧ (S i < 2)%nat
  | Loops => False
  end.
Proof.
  destruct (RegisterPeers_once [None; Some (pick peer_up)] (scores 64 None)) as [Hnone _].
  apply Hnone. reflexivity.
Defined.

Lemma ServerHTTP_replies_witness :
  ServerHTTP (NewHTTPPool "http://localhost:8001")
    {| Method := "GET"; URL_Path := "/_zzacache" ++ "scores" ++ String.String "/" "Tom" |}
    one_group quiet
  = Ret (reply_of served.1.1,
         {| groups := groups one_group;
            store := <[1%positive := served.1.2]> (store one_group) |}, served.2)
  ∧ (status (reply_of served.1.1) = 200 ↔ ∃ v, served.1.1 = Ok v)
  ∧ (status (reply_of served.1.1) = 500 ↔ ∃ err, served.1.1 = Err err).
Proof.
  destruct (ServerHTTP_replies (NewHTTPPool "http://localhost:8001") "GET" one_group quiet)
    as (_ & _ & Hgroup).
  destruct (Hgroup "scores" "Tom") as [_ Hknown].
  { repeat constructor; discriminate. }
  apply (Hknown 1%positive (scores 64 None)).
  - reflexivity.
  - reflexivity.
  - vm_compute. reflexivity.
Defined.


Lemma ServerHTTP_documented_path_not_found_witness :
  ServerHTTP (NewHTTPPool "http://localhost:8001")
    {| Method := "GET"; URL_Path := "/_zzacache/" ++ "scores/Tom" |} one_group quiet
  = Ret (http_Error "no such group: " 404, one_group,
         Log (NewHTTPPool "http://localhost:8001")
           ("GET" ++ " " ++ ("/_zzacache/" ++ "scores/Tom"))%string quiet).
Proof.
  apply (ServerHTTP_documented_path_not_found (Env := unit)). reflexivity.
Defined.

End MoreRuns.
